(** * mezashi / mefront: the detection pipeline, embedded and verified

    The development follows the TypeScript sources of [mefront/src/lib]:

    - [types.ts], [obbUtils.ts]   : [Detection], [GeoTIFFMeta], [getOBBCorners]
    - [geotiff.ts]                : [pixelToGeo]
    - [inference.ts]              : [mapDetectionsToOriginal], [nmsOBB],
                                    [computeAABBIoU], the tile grid of
                                    [runInference]
    - [exportResults.ts]          : [mergeGeoTIFFDetections],
                                    [computePolygonIoU], [getAABB]
    - [labels.ts]                 : [MODEL_INPUT_SIZE], [CLASS_NAMES],
                                    [CONFIDENCE_THRESHOLD]

    and, around them, [runTile] and [runInference] of [inference.ts],
    [prepareTile] and [canvasToFloat32CHW] of [imageUtils.ts], the RGBA
    bytes of [parseGeoTIFF], the exports [buildPixelResultJSON],
    [buildGeoJSONForClass] and [downloadGeoJSON], the counts of
    [ResultPanel.tsx], zoom and pan of [DetectionCanvas.tsx] and the
    image slots of [App.tsx].

    Numbers.  A JavaScript [number] is modelled by a rational [Q]
    (pixel dimensions of an image, which are integers, by [Z]); there
    are no NaN and no infinities, and equality of computed numbers is
    [Qeq] ([==]).  The detection pipeline is embedded with exact
    operations: its statements compare, order and copy the numbers the
    code computes.  Where a statement depends on the rounding of
    binary64 or binary32 ([Binary64.pixelToGeo], [buildPixelResultJSON],
    [canvasToFloat32CHW], [DetectionCanvas]) every operation is
    followed by the rounding of the class [Rounding].  [Math.cos] and [Math.sin] are
    library functions that the language only specifies up to an
    implementation approximation; they are taken as operations of a
    class [MathTrig], and the only facts ever assumed about them are
    the exact values at [0]. *)

From Stdlib Require Import QArith Qminmax Qround Qpower Lqa Lia ZArith.
From stdpp Require Import gmap list strings sorting pretty.

Open Scope Q_scope.

(** ** Numbers *)

(** [a > b] on numbers, as a boolean. *)
Definition gtb (a b : Q) : bool :=
  match a ?= b with Gt => true | _ => false end.

(** [Math.round]: the nearest integer, halves rounded up. *)
Definition Math_round (q : Q) : Z := Qfloor (q + (1 # 2)).

(** [Math.ceil]. *)
Definition Math_ceil (q : Q) : Z := Qceiling q.

Class MathTrig := {
  Math_cos : Q -> Q;
  Math_sin : Q -> Q
}.

(** What ECMAScript fixes exactly: [Math.cos(0) = 1], [Math.sin(0) = 0]. *)
Definition TrigAtZero `{MathTrig} : Prop :=
  forall a : Q, a == 0 -> Math_cos a == 1 /\ Math_sin a == 0.

(** A concrete pair of approximations (truncated power series), used
    to run the definitions on concrete inputs. *)
Definition series_cos (a : Q) : Q :=
  1 - a * a / 2 + a * a * a * a / 24.

Definition series_sin (a : Q) : Q :=
  a - a * a * a / 6 + a * a * a * a * a / 120.

Definition seriesTrig : MathTrig :=
  {| Math_cos := series_cos; Math_sin := series_sin |}.

(** ** Data model ([types.ts]) *)

Record Detection := mkDetection {
  classId : nat;
  className : string;
  confidence : Q;
  cx : Q;
  cy : Q;
  width : Q;
  height : Q;
  angle : Q
}.

Module XY.

(** The object shape [{ x: number; y: number }]. *)
Record t := mk { x : Q; y : Q }.

Definition eq (p q : t) : Prop := x p == x q /\ y p == y q.

End XY.

Record GeoTIFFMeta := mkGeoTIFFMeta {
  tiePoint : XY.t;
  pixelScale : XY.t;
  epsg : option Z
}.

(** A corner as the tuple [[number, number]]. *)
Definition Corner : Type := Q * Q.

Definition corner_eq (p q : Corner) : Prop :=
  fst p == fst q /\ snd p == snd q.

(** ** [obbUtils.ts] *)

Definition getOBBCorners `{MathTrig} (d : Detection) : list Corner :=
  let cos := Math_cos (angle d) in
  let sin := Math_sin (angle d) in
  let hw := width d / 2 in
  let hh := height d / 2 in
  let corners : list Corner :=
    [(- hw, - hh); (hw, - hh); (hw, hh); (- hw, hh)] in
  map (fun '(dx, dy) =>
         (cx d + dx * cos - dy * sin,
          cy d + dx * sin + dy * cos)) corners.

(** ** [geotiff.ts] *)

Definition pixelToGeo (px py : Q) (meta : GeoTIFFMeta) : XY.t :=
  {| XY.x := XY.x (tiePoint meta) + px * XY.x (pixelScale meta);
     XY.y := XY.y (tiePoint meta) - py * XY.y (pixelScale meta) |}.

(** ** [labels.ts] *)

Definition MODEL_INPUT_SIZE : Z := 1024.

(** ** [inference.ts] *)

(** [{ ...d, cx: ..., cy: ..., width: ..., height: ... }] *)
Definition mapDetectionsToOriginal (detections : list Detection)
    (scale padX padY tileOffsetX tileOffsetY : Q) : list Detection :=
  map (fun d =>
         {| classId := classId d;
            className := className d;
            confidence := confidence d;
            cx := (cx d - padX) / scale + tileOffsetX;
            cy := (cy d - padY) / scale + tileOffsetY;
            width := width d / scale;
            height := height d / scale;
            angle := angle d |}) detections.

Definition computeAABBIoU (a b : Detection) : Q :=
  let aHalfW := Qmax (width a) (height a) / 2 in
  let aHalfH := aHalfW in
  let bHalfW := Qmax (width b) (height b) / 2 in
  let bHalfH := bHalfW in
  let ax1 := cx a - aHalfW in
  let ay1 := cy a - aHalfH in
  let ax2 := cx a + aHalfW in
  let ay2 := cy a + aHalfH in
  let bx1 := cx b - bHalfW in
  let by1 := cy b - bHalfH in
  let bx2 := cx b + bHalfW in
  let by2 := cy b + bHalfH in
  let ix1 := Qmax ax1 bx1 in
  let iy1 := Qmax ay1 by1 in
  let ix2 := Qmin ax2 bx2 in
  let iy2 := Qmin ay2 by2 in
  let iw := Qmax 0 (ix2 - ix1) in
  let ih := Qmax 0 (iy2 - iy1) in
  let intersection := iw * ih in
  let aArea := (ax2 - ax1) * (ay2 - ay1) in
  let bArea := (bx2 - bx1) * (by2 - by1) in
  let union := aArea + bArea - intersection in
  if gtb union 0 then intersection / union else 0.

(** [Array.prototype.sort] with a comparator: a stable sort; [a] comes
    before [b] when [cmp a b] is negative, and elements that compare
    equal keep their order. *)
Fixpoint sort_insert {A} (cmp : A -> A -> Q) (a : A) (l : list A) : list A :=
  match l with
  | [] => [a]
  | b :: l' => if gtb (cmp a b) 0 then b :: sort_insert cmp a l'
               else a :: b :: l'
  end.

Definition Array_sort {A} (cmp : A -> A -> Q) (l : list A) : list A :=
  foldr (sort_insert cmp) [] l.

(** The comparator of [nmsOBB]: [(a, b) => b.confidence - a.confidence]. *)
Definition byConfidenceDesc (a b : Detection) : Q :=
  confidence b - confidence a.

(** The body of the inner loop
    [for (let j = i + 1; j < sorted.length; j++)]. *)
Definition nms_inner_body (sorted : list Detection) (iouThreshold : Q)
    (i : nat) (suppressed : gset nat) (j : nat) : gset nat :=
  if bool_decide (j ∈ suppressed) then suppressed
  else match sorted !! i, sorted !! j with
       | Some di, Some dj =>
         if negb (classId di =? classId dj)%nat then suppressed
         else if gtb (computeAABBIoU di dj) iouThreshold
              then {[ j ]} ∪ suppressed
              else suppressed
       | _, _ => suppressed
       end.

(** The body of the outer loop [for (let i = 0; i < sorted.length; i++)];
    the loop state is [keep] and [suppressed]. *)
Definition nms_outer_body (sorted : list Detection) (iouThreshold : Q)
    (st : list Detection * gset nat) (i : nat) : list Detection * gset nat :=
  if bool_decide (i ∈ st.2) then st
  else match sorted !! i with
       | Some di =>
         (st.1 ++ [di],
          foldl (nms_inner_body sorted iouThreshold i) st.2
                (seq (S i) (length sorted - S i)))
       | None => st
       end.

Definition nms_loop (sorted : list Detection) (iouThreshold : Q)
    : list Detection * gset nat :=
  foldl (nms_outer_body sorted iouThreshold) ([], ∅)
        (seq 0 (length sorted)).

Definition nmsOBB (detections : list Detection) (iouThreshold : Q)
    : list Detection :=
  if (length detections =? 0)%nat then []
  else
    let sorted := Array_sort byConfidenceDesc detections in
    (nms_loop sorted iouThreshold).1.

(** *** The tile grid of [runInference] *)

Definition SLICE_THRESHOLD : Z := 1280.
Definition TILE_OVERLAP : Q := 1 # 4.

(** The source rectangle handed to [prepareTile]. *)
Record Tile := mkTile { sx : Z; sy : Z; sw : Z; sh : Z }.

Definition tileStride (tileSize : Z) : Z :=
  Math_round (inject_Z tileSize * (1 - TILE_OVERLAP)).

(** [Math.max(1, Math.ceil((dim - tileSize) / stride) + 1)] *)
Definition tileCount (tileSize dim : Z) : Z :=
  Z.max 1
    (Math_ceil (inject_Z (dim - tileSize) / inject_Z (tileStride tileSize))
     + 1).

(** [Math.min(t * stride, dim - tileSize)] *)
Definition tileOrigin (tileSize dim t : Z) : Z :=
  Z.min (t * tileStride tileSize) (dim - tileSize).

(** [Math.min(tileSize, dim - origin)] *)
Definition tileExtent (tileSize dim t : Z) : Z :=
  Z.min tileSize (dim - tileOrigin tileSize dim t).

(** The rectangles on which [runInference] calls [prepareTile], in the
    order of the calls. *)
Definition planTiles (tileSize imgWidth imgHeight : Z) : list Tile :=
  if (imgWidth <=? SLICE_THRESHOLD)%Z && (imgHeight <=? SLICE_THRESHOLD)%Z
  then [mkTile 0 0 imgWidth imgHeight]
  else
    ty ← seqZ 0 (tileCount tileSize imgHeight);
    tx ← seqZ 0 (tileCount tileSize imgWidth);
    [mkTile (tileOrigin tileSize imgWidth tx)
            (tileOrigin tileSize imgHeight ty)
            (tileExtent tileSize imgWidth tx)
            (tileExtent tileSize imgHeight ty)].

(** ** [exportResults.ts] *)

Record AABB := mkAABB { minX : Q; minY : Q; maxX : Q; maxY : Q }.

(** The reduction starts from [+Infinity] and [-Infinity], so the first
    corner replaces all four seeds; on no corner at all the seeds
    remain, which is the result [None]. *)
Definition getAABB (corners : list XY.t) : option AABB :=
  match corners with
  | [] => None
  | c :: rest =>
    Some (foldl (fun b corner =>
                   {| minX := Qmin (minX b) (XY.x corner);
                      minY := Qmin (minY b) (XY.y corner);
                      maxX := Qmax (maxX b) (XY.x corner);
                      maxY := Qmax (maxY b) (XY.y corner) |})
                {| minX := XY.x c; minY := XY.y c;
                   maxX := XY.x c; maxY := XY.y c |} rest)
  end.

(** With a box still at its infinite seeds the area of that box is
    [+Infinity], so is [union], and the quotient [0 / +Infinity] is
    [0]. *)
Definition computePolygonIoU (corners1 corners2 : list XY.t) : Q :=
  match getAABB corners1, getAABB corners2 with
  | Some box1, Some box2 =>
    let ix1 := Qmax (minX box1) (minX box2) in
    let iy1 := Qmax (minY box1) (minY box2) in
    let ix2 := Qmin (maxX box1) (maxX box2) in
    let iy2 := Qmin (maxY box1) (maxY box2) in
    let iw := Qmax 0 (ix2 - ix1) in
    let ih := Qmax 0 (iy2 - iy1) in
    let intersection := iw * ih in
    let area1 := (maxX box1 - minX box1) * (maxY box1 - minY box1) in
    let area2 := (maxX box2 - minX box2) * (maxY box2 - minY box2) in
    let union := area1 + area2 - intersection in
    if gtb union 0 then intersection / union else 0
  | _, _ => 0
  end.

(** An element of [geoDetections1] and [geoDetections2]. *)
Record GeoDetection := mkGeoDetection {
  detection : Detection;
  geoCorners : list XY.t
}.

Definition toGeoDetection `{MathTrig} (meta : GeoTIFFMeta) (d : Detection)
    : GeoDetection :=
  {| detection := d;
     geoCorners :=
       map (fun '(px, py) => pixelToGeo px py meta) (getOBBCorners d) |}.

(** The inner loop [for (let j = 0; j < geoDetections1.length; j++)],
    from index [j] on: the index and the element at which the loop
    breaks, if it does. *)
Fixpoint findDuplicate (iouThreshold : Q) (g2 : GeoDetection)
    (geoDetections1 : list GeoDetection) (j : nat)
    : option (nat * GeoDetection) :=
  match geoDetections1 with
  | [] => None
  | g1 :: rest =>
    if negb (classId (detection g2) =? classId (detection g1))%nat
    then findDuplicate iouThreshold g2 rest (S j)
    else if gtb (computePolygonIoU (geoCorners g2) (geoCorners g1))
                iouThreshold
         then Some (j, g1)
         else findDuplicate iouThreshold g2 rest (S j)
  end.

(** One iteration of the outer loop, on the contents of [merged]. *)
Definition mergeStep (iouThreshold : Q) (geoDetections1 : list GeoDetection)
    (merged : list Detection) (g2 : GeoDetection) : list Detection :=
  match findDuplicate iouThreshold g2 geoDetections1 0 with
  | Some (j, g1) =>
    if gtb (confidence (detection g2)) (confidence (detection g1))
    then <[ j := detection g2 ]> merged
    else merged
  | None => merged ++ [detection g2]
  end.

Definition mergeGeoTIFFDetections `{MathTrig}
    (detections1 : list Detection) (meta1 : GeoTIFFMeta)
    (detections2 : list Detection) (meta2 : GeoTIFFMeta)
    (iouThreshold : Q) : list Detection :=
  let geoDetections1 := map (toGeoDetection meta1) detections1 in
  let geoDetections2 := map (toGeoDetection meta2) detections2 in
  let merged := detections1 in
  foldl (mergeStep iouThreshold geoDetections1) merged geoDetections2.

(** ** Arrays as heap objects

    The functions above work on the contents of arrays.  The callers
    hold arrays by reference, and [sort], index assignment and [push]
    update an array in place; the following definitions place the
    arrays in a heap to tell which ones the two functions write. *)

Abbreviation loc := nat (only parsing).
Abbreviation heap := (gmap nat (list Detection)).

(** An array literal or a spread copy [[...a]]: a new object. *)
Definition alloc (contents : list Detection) (h : heap) : loc * heap :=
  let l := fresh (dom h) in (l, <[ l := contents ]> h).

(** The outer loop of [nmsOBB] on the heap: [sorted] is read, [keep]
    is pushed to. *)
Definition nms_outer_body_heap (sorted keep : loc) (iouThreshold : Q)
    (st : gset nat * heap) (i : nat) : gset nat * heap :=
  if bool_decide (i ∈ st.1) then st
  else match st.2 !! sorted with
       | Some s =>
         match s !! i with
         | Some di =>
           (foldl (nms_inner_body s iouThreshold i) st.1
                  (seq (S i) (length s - S i)),
            alter (fun k => k ++ [di]) keep st.2)
         | None => st
         end
       | None => st
       end.

Definition nmsOBB_heap (detections : loc) (iouThreshold : Q) (h : heap)
    : option (loc * heap) :=
  ds ← h !! detections;
  if (length ds =? 0)%nat then Some (alloc [] h)
  else
    let '(sorted, h1) := alloc ds h in
    let h2 := alter (Array_sort byConfidenceDesc) sorted h1 in
    let '(keep, h3) := alloc [] h2 in
    s ← h3 !! sorted;
    let st := foldl (nms_outer_body_heap sorted keep iouThreshold)
                    (∅, h3) (seq 0 (length s)) in
    Some (keep, st.2).

(** The outer loop of [mergeGeoTIFFDetections] on the heap: only
    [merged] is written. *)
Definition mergeGeoTIFFDetections_heap `{MathTrig}
    (detections1 : loc) (meta1 : GeoTIFFMeta)
    (detections2 : loc) (meta2 : GeoTIFFMeta)
    (iouThreshold : Q) (h : heap) : option (loc * heap) :=
  d1 ← h !! detections1;
  d2 ← h !! detections2;
  let geoDetections1 := map (toGeoDetection meta1) d1 in
  let geoDetections2 := map (toGeoDetection meta2) d2 in
  let '(merged, h1) := alloc d1 h in
  Some (merged,
        foldl (fun h' g2 =>
                 alter (fun m => mergeStep iouThreshold geoDetections1 m g2)
                       merged h')
              h1 geoDetections2).

(** ** Data of the tests ([exportResults.test.ts]) *)

(** [makeDetection({ cx, cy, width, height, confidence })]: class 0,
    angle 0. *)
Definition makeDetection (cx cy width height confidence : Q) : Detection :=
  mkDetection 0 "plane" confidence cx cy width height 0.

Definition test_meta1 : GeoTIFFMeta :=
  mkGeoTIFFMeta (XY.mk 0 100) (XY.mk 1 1) (Some 32654%Z).

Definition test_meta2 : GeoTIFFMeta :=
  mkGeoTIFFMeta (XY.mk 50 100) (XY.mk 1 1) (Some 32654%Z).

(** Boxes that agree up to [==] on every bound. *)
Definition AABB_eq (b b' : AABB) : Prop :=
  minX b == minX b' /\ minY b == minY b'
  /\ maxX b == maxX b' /\ maxY b == maxY b'.

(** ** Loop invariants *)

(** [sorted[k]] suppresses [sorted[j]]: the test of the inner loop of
    [nmsOBB] succeeds on the pair. *)
Definition suppresses (sorted : list Detection) (iouThreshold : Q)
    (k j : nat) : Prop :=
  exists dk dj : Detection,
    sorted !! k = Some dk /\ sorted !! j = Some dj
    /\ classId dk = classId dj
    /\ iouThreshold < computeAABBIoU dk dj.

(** The state of the outer loop of [nmsOBB] on reaching index [i]:
    [keep] lists, in increasing order of index, the elements below [i]
    that are not suppressed; every suppressed index was suppressed by a
    kept one before it; and whatever a kept index suppresses is in
    [suppressed]. *)
Record nms_inv (sorted : list Detection) (iouThreshold : Q)
    (i : nat) (st : list Detection * gset nat) : Prop := {
  inv_keep :
    exists ks : list nat,
      Forall2 (fun k d => sorted !! k = Some d) ks st.1
      /\ (forall p q kp kq : nat,
            (p < q)%nat -> ks !! p = Some kp -> ks !! q = Some kq ->
            (kp < kq)%nat)
      /\ (forall k : nat, k ∈ ks <-> (k < i)%nat /\ k ∉ st.2);
  inv_cause :
    forall j : nat, j ∈ st.2 ->
      exists k : nat, (k < j)%nat /\ (k < i)%nat /\ (k ∉ st.2)
                      /\ suppresses sorted iouThreshold k j;
  inv_closed :
    forall k j : nat, (k < i)%nat -> k ∉ st.2 -> (k < j)%nat ->
      suppresses sorted iouThreshold k j -> j ∈ st.2
}.
(** ** Binary floating point

    Where a statement depends on how the arithmetic of the language
    rounds, a finite [number] is still a rational, and an operation
    returns the exact result rounded: [fl] rounds to binary64, as
    every arithmetic operation on numbers does, and [fround] to
    binary32, as a store into a [Float32Array] does.  The roundings are
    the operations of a class; [ieee754] is round to nearest, ties to
    even, and [RoundingLaws] are the facts the proofs use of it.
    Overflow to an infinity is outside the model. *)

(** The nearest integer, a tie to the even one. *)
Definition roundTiesToEven (q : Q) : Z :=
  let f := Qfloor q in
  match (q ?= inject_Z f + (1 # 2))%Q with
  | Lt => f
  | Gt => (f + 1)%Z
  | Eq => if Z.even f then f else (f + 1)%Z
  end.

(** The integer [k] with [2 ^ k <= q < 2 ^ (k + 1)], for [0 < q]. *)
Definition Qlog2 (q : Q) : Z :=
  let k := (Z.log2 (Qnum q) - Z.log2 (Zpos (Qden q)))%Z in
  if Qle_bool (2 ^ k)%Q q then k else (k - 1)%Z.

(** Rounding of a positive number to [prec] significant bits, the
    last bit no finer than [2 ^ emin]. *)
Definition roundPositive (prec emin : Z) (q : Q) : Q :=
  let e := Z.max emin (Qlog2 q - (prec - 1)) in
  inject_Z (roundTiesToEven (q / 2 ^ e)) * 2 ^ e.

Definition roundBinary (prec emin : Z) (q : Q) : Q :=
  match q ?= 0 with
  | Eq => 0
  | Gt => roundPositive prec emin q
  | Lt => - roundPositive prec emin (- q)
  end.

Class Rounding := {
  fl : Q -> Q;
  fround : Q -> Q
}.

Definition ieee754 : Rounding :=
  {| fl := roundBinary 53 (-1074); fround := roundBinary 24 (-149) |}.

(** Rounding keeps the order of numbers, and 0 and 1 need none. *)
Definition RoundingLaws `{Rounding} : Prop :=
  (forall a b : Q, a <= b -> fl a <= fl b)
  /\ (forall a b : Q, a <= b -> fround a <= fround b)
  /\ fl 0 == 0 /\ fl 1 == 1 /\ fround 0 == 0 /\ fround 1 == 1.

Module Binary64.

(** [pixelToGeo] of [geotiff.ts] with the rounding of its two
    operations per coordinate. *)
Definition pixelToGeo `{Rounding} (px py : Q) (meta : GeoTIFFMeta) : XY.t :=
  {| XY.x := fl (XY.x (tiePoint meta) + fl (px * XY.x (pixelScale meta)));
     XY.y := fl (XY.y (tiePoint meta) - fl (py * XY.y (pixelScale meta))) |}.

(** [getOBBCorners] of [obbUtils.ts] with its roundings; the negation
    of a number is exact. *)
Definition getOBBCorners `{MathTrig} `{Rounding} (d : Detection)
    : list Corner :=
  let cos := Math_cos (angle d) in
  let sin := Math_sin (angle d) in
  let hw := fl (width d / 2) in
  let hh := fl (height d / 2) in
  let corners : list Corner :=
    [(- hw, - hh); (hw, - hh); (hw, hh); (- hw, hh)] in
  map (fun '(dx, dy) =>
         (fl (fl (cx d + fl (dx * cos)) - fl (dy * sin)),
          fl (fl (cy d + fl (dx * sin)) + fl (dy * cos)))) corners.

(** [Math.round(x * k) / k]. *)
Definition roundTo `{Rounding} (k : Z) (x : Q) : Q :=
  fl (inject_Z (Math_round (fl (x * inject_Z k))) / inject_Z k).

End Binary64.


(** ** Further parts of [exportResults.ts] *)

(** The flag [isDuplicate] at the end of the inner loop of
    [mergeGeoTIFFDetections], for the second-set detection [d2]. *)
Definition isDuplicate `{MathTrig} (detections1 : list Detection)
    (meta1 meta2 : GeoTIFFMeta) (iouThreshold : Q) (d2 : Detection) : bool :=
  match findDuplicate iouThreshold (toGeoDetection meta2 d2)
          (map (toGeoDetection meta1) detections1) 0 with
  | Some _ => true
  | None => false
  end.

(** ** Further parts of [labels.ts] *)

Definition CLASS_NAMES : list string :=
  ["plane"; "ship"; "storage tank"; "baseball diamond"; "tennis court";
   "basketball court"; "ground track field"; "harbor"; "bridge";
   "large vehicle"; "small vehicle"; "helicopter"; "roundabout";
   "soccer ball field"; "swimming pool"].

Definition CONFIDENCE_THRESHOLD : Q := 1 # 4.

(** ** [imageUtils.ts]: the letterbox of [prepareTile]

    The canvas and its pixels are outside the model; what is kept is
    the arithmetic that places the region [sw] by [sh] in the square
    of side [modelSize], which is also what [prepareTile] returns for
    the way back. *)

Module Letterbox.

Record t := mk { scale : Q; padX : Q; padY : Q; newW : Z; newH : Z }.

End Letterbox.

Definition prepareTile (sw sh modelSize : Z) : Letterbox.t :=
  let scale := Qmin (inject_Z modelSize / inject_Z sw)
                    (inject_Z modelSize / inject_Z sh) in
  let newW := Math_round (inject_Z sw * scale) in
  let newH := Math_round (inject_Z sh * scale) in
  let padX := (inject_Z modelSize - inject_Z newW) / 2 in
  let padY := (inject_Z modelSize - inject_Z newH) / 2 in
  Letterbox.mk scale padX padY newW newH.

(** ** Further parts of [inference.ts] *)

(** A number used as [classId]: the model of [Detection] holds class
    indices, so a value that is no natural number has no image. *)
Definition toClassId (q : Q) : option nat :=
  if Qeq_bool q (inject_Z (Qfloor q)) && (0 <=? Qfloor q)%Z
  then Some (Z.to_nat (Qfloor q)) else None.

(** [CLASS_NAMES[classId] ?? `class_${classId}`] *)
Definition classNameOf (classId : nat) : string :=
  default ("class_" +:+ pretty classId) (CLASS_NAMES !! classId).

(** One iteration of the loop of [runTile]: the detections it pushes.
    A read past the end of [data] is [undefined]; a row is skipped
    only when its confidence is a number below the threshold, and a
    row that is kept with an undefined field, or with a class that is
    no index, is outside the model ([None]). *)
Definition runTile_row (data : list Q) (i : nat) : option (list Detection) :=
  let offset := (i * 7)%nat in
  match data !! (offset + 5)%nat with
  | Some confidence =>
    if gtb CONFIDENCE_THRESHOLD confidence then Some []
    else
      cx ← data !! offset;
      cy ← data !! (offset + 1)%nat;
      w ← data !! (offset + 2)%nat;
      h ← data !! (offset + 3)%nat;
      angle ← data !! (offset + 4)%nat;
      classId ← data !! (offset + 6)%nat ≫= toClassId;
      Some [ {| classId := classId;
                className := classNameOf classId;
                confidence := confidence;
                cx := cx; cy := cy; width := w; height := h;
                angle := angle |} ]
  | None => None
  end.

(** [runTile] after [session.run]: [output] is [results.output0], as
    the pair of [output.data] and [output.dims[1]], if present. *)
Definition runTile (output : option (list Q * nat))
    : option (list Detection) :=
  match output with
  | None => Some []
  | Some (data, numDetections) =>
    foldl (fun acc i =>
             detections ← acc;
             row ← runTile_row data i;
             Some (detections ++ row))
          (Some []) (seq 0 numDetections)
  end.

(** The loop body of the slice branch of [runInference]; the state is
    the progress reported so far, [allDetections] and [done]. *)
Definition runInference_tile (infer : Tile -> option (list Q * nat))
    (totalTiles : Z)
    (acc : option (list (Z * Z) * list Detection * Z)) (tile : Tile)
    : option (list (Z * Z) * list Detection * Z) :=
  '(progress, allDetections, done) ← acc;
  let lb := prepareTile (sw tile) (sh tile) MODEL_INPUT_SIZE in
  tileDets ← runTile (infer tile);
  let mapped :=
    mapDetectionsToOriginal tileDets (Letterbox.scale lb)
      (Letterbox.padX lb) (Letterbox.padY lb)
      (inject_Z (sx tile)) (inject_Z (sy tile)) in
  Some (progress ++ [((done + 1)%Z, totalTiles)],
        allDetections ++ mapped, (done + 1)%Z).

(** [runInference]: the inference engine is the parameter [infer],
    from the source rectangle of a tile to the output tensor of the
    session for it.  The result is the list of calls of [onProgress]
    and the returned detections. *)
Definition runInference (infer : Tile -> option (list Q * nat))
    (imgWidth imgHeight : Z) : option (list (Z * Z) * list Detection) :=
  if (imgWidth <=? SLICE_THRESHOLD)%Z && (imgHeight <=? SLICE_THRESHOLD)%Z
  then
    let lb := prepareTile imgWidth imgHeight MODEL_INPUT_SIZE in
    dets ← runTile (infer (mkTile 0 0 imgWidth imgHeight));
    Some ([(0, 1); (1, 1)]%Z,
          mapDetectionsToOriginal dets (Letterbox.scale lb)
            (Letterbox.padX lb) (Letterbox.padY lb) 0 0)
  else
    let tileSize := MODEL_INPUT_SIZE in
    let totalTiles :=
      (tileCount tileSize imgWidth * tileCount tileSize imgHeight)%Z in
    '(progress, allDetections, _) ←
      foldl (runInference_tile infer totalTiles) (Some ([], [], 0%Z))
            (planTiles tileSize imgWidth imgHeight);
    Some (progress, nmsOBB allDetections (45 # 100)).

(** ** [App.tsx]: the detections on display

    [rawDetections.filter((d) => d.confidence >= confidenceThreshold)] *)
Definition displayedDetections (rawDetections : list Detection)
    (confidenceThreshold : Q) : list Detection :=
  List.filter (fun d => negb (gtb confidenceThreshold (confidence d)))
              rawDetections.

(** [d] is the detection that row [i] of [data] describes. *)
Definition isRow (data : list Q) (i : nat) (d : Detection) : Prop :=
  data !! (i * 7)%nat = Some (cx d)
  /\ data !! (i * 7 + 1)%nat = Some (cy d)
  /\ data !! (i * 7 + 2)%nat = Some (width d)
  /\ data !! (i * 7 + 3)%nat = Some (height d)
  /\ data !! (i * 7 + 4)%nat = Some (angle d)
  /\ data !! (i * 7 + 5)%nat = Some (confidence d)
  /\ data !! (i * 7 + 6)%nat = Some (inject_Z (Z.of_nat (classId d)))
  /\ className d = classNameOf (classId d).

(** ** [exportResults.ts]: the exported documents *)

(** [Math.round(x * k) / k] *)
Definition roundTo (k : Z) (x : Q) : Q :=
  inject_Z (Math_round (x * inject_Z k)) / inject_Z k.

Module PixelJSON.

(** The object that [buildPixelResultJSON] returns. *)
Record Bbox := mkBbox { cx : Q; cy : Q; width : Q; height : Q; angle : Q }.

Record Entry := mkEntry {
  class : string;
  classId : nat;
  confidence : Q;
  bbox : Bbox;
  corners : list Corner
}.

Record t := mk {
  imageWidth : Z;
  imageHeight : Z;
  detections : list Entry
}.

End PixelJSON.


Module GeoJSON.

(** A feature: its [properties] and the [coordinates] of its polygon
    geometry, a list of rings of positions [[x, y]]; the [type] tags
    are constants. *)
Record Feature := mkFeature {
  class : string;
  classId : nat;
  confidence : Q;
  coordinates : list (list Corner)
}.

(** A feature collection: [crs] is the name in [crs.properties.name],
    when the member [crs] is present. *)
Record t := mk {
  crs : option string;
  features : list Feature
}.

End GeoJSON.

(** The closed ring [[...coords, coords[0]]]; [geoCorners] has four
    elements, so [geoCorners[0]] is there. *)
Definition closeRing (coords : list Corner) : list Corner :=
  coords ++ option_list (head coords).

Definition buildGeoJSONForClass `{MathTrig} (detections : list Detection)
    (className' : string) (meta : GeoTIFFMeta) : GeoJSON.t :=
  let features :=
    map (fun d =>
           let corners := getOBBCorners d in
           let geoCorners :=
             map (fun '(px, py) => pixelToGeo px py meta) corners in
           let ring :=
             closeRing (map (fun c => (XY.x c, XY.y c)) geoCorners) in
           {| GeoJSON.class := className d;
              GeoJSON.classId := classId d;
              GeoJSON.confidence := roundTo 1000 (confidence d);
              GeoJSON.coordinates := [ring] |})
        (List.filter (fun d => String.eqb (className d) className')
                     detections) in
  {| GeoJSON.crs :=
       (fun epsg => "urn:ogc:def:crs:EPSG::" +:+ pretty epsg) <$> epsg meta;
     GeoJSON.features := features |}.

(** [[...new Set(names)]]: the distinct names, in the order of their
    first occurrence. *)
Definition distinctInOrder (names : list string) : list string :=
  foldl (fun seen name =>
           if bool_decide (name ∈ seen) then seen else seen ++ [name])
        [] names.

(** White space of the regular expression [\s], among the characters
    of the ASCII range. *)
Definition isWhiteSpace (c : Ascii.ascii) : bool :=
  let n := Ascii.nat_of_ascii c in
  ((9 <=? n) && (n <=? 13))%nat || (n =? 32)%nat.

(** [s.replace(/\s+/g, "_")]: every maximal run of white space becomes
    one underscore; [inRun] tells that the previous character was
    white space. *)
Fixpoint replaceWhiteSpace (inRun : bool) (s : string) : string :=
  match s with
  | EmptyString => EmptyString
  | String c s' =>
    if isWhiteSpace c
    then if inRun then replaceWhiteSpace true s'
         else "_" +:+ replaceWhiteSpace true s'
    else String c (replaceWhiteSpace false s')
  end.

(** [downloadGeoJSON]: the downloads it triggers, each the file name
    and the document (before [JSON.stringify]). *)
Definition downloadGeoJSON `{MathTrig} (detections : list Detection)
    (meta : GeoTIFFMeta) : list (string * GeoJSON.t) :=
  let classNames := distinctInOrder (map className detections) in
  map (fun className' =>
         let geojson := buildGeoJSONForClass detections className' meta in
         let safeName := replaceWhiteSpace false className' in
         (safeName +:+ ".geojson", geojson))
      classNames.

(** ** [ResultPanel.tsx]: the count of detections per class name

    [classCounts.set(d.className, (classCounts.get(d.className) ?? 0) + 1)] *)
Definition classCounts (detections : list Detection) : gmap string nat :=
  foldl (fun counts d =>
           <[ className d := (default 0 (counts !! className d) + 1)%nat ]>
             counts)
        ∅ detections.


(** ** [imageUtils.ts]: [canvasToFloat32CHW]

    [data] is the RGBA byte array of the canvas's image data.  The
    assignments of the loop all fall inside the array, which has
    [3 * width * height] elements; each stores the binary64 quotient
    rounded to binary32.  A read past the end of [data] gives
    [undefined] and stores a NaN: the result is [None], outside the
    numbers of the model. *)
Definition canvasToFloat32CHW_pixel `{Rounding} (data : list Z)
    (planeSize : nat) (acc : option (list Q)) (i : nat) : option (list Q) :=
  chw ← acc;
  r ← data !! (i * 4)%nat;
  g ← data !! (i * 4 + 1)%nat;
  b ← data !! (i * 4 + 2)%nat;
  Some (<[ (2 * planeSize + i)%nat := fround (fl (inject_Z b / 255)) ]>
          (<[ (planeSize + i)%nat := fround (fl (inject_Z g / 255)) ]>
             (<[ i := fround (fl (inject_Z r / 255)) ]> chw))).

Definition canvasToFloat32CHW `{Rounding} (width height : nat)
    (data : list Z) : option (list Q) :=
  let chw := replicate (3 * width * height) 0 in
  let planeSize := (width * height)%nat in
  foldl (canvasToFloat32CHW_pixel data planeSize) (Some chw) (seq 0 planeSize).

(** ** [geotiff.ts]: the RGBA bytes of [parseGeoTIFF] *)

(** The conversion applied by a store into a [Uint8ClampedArray]
    (ToUint8Clamp of ECMAScript): [undefined] converts to NaN and
    gives 0; a number is clamped to 0..255 and rounded to the nearest
    integer, a tie to the even one. *)
Definition ToUint8Clamp (number : option Q) : Z :=
  match number with
  | None => 0%Z
  | Some number =>
    let clamped := Qmin (Qmax number 0%Q) 255%Q in
    let f := Qfloor clamped in
    match (clamped ?= inject_Z f + (1 # 2))%Q with
    | Lt => f
    | Gt => (f + 1)%Z
    | Eq => if Z.even f then f else (f + 1)%Z
    end
  end.

(** One turn of the loop.  [rasters[0]] is read in every turn:
    without a first band the read throws, which is [None]. *)
Definition parseGeoTIFF_pixel (rasters : list (list Q)) (numBands : nat)
    (acc : option (list Z)) (i : nat) : option (list Z) :=
  rgba ← acc;
  band0 ← rasters !! 0%nat;
  bandG ← (if (3 <=? numBands)%nat then rasters !! 1%nat else Some band0);
  bandB ← (if (3 <=? numBands)%nat then rasters !! 2%nat else Some band0);
  Some (<[ (i * 4 + 3)%nat := 255%Z ]>
          (<[ (i * 4 + 2)%nat := ToUint8Clamp (bandB !! i) ]>
             (<[ (i * 4 + 1)%nat := ToUint8Clamp (bandG !! i) ]>
                (<[ (i * 4)%nat := ToUint8Clamp (band0 !! i) ]> rgba)))).

Definition parseGeoTIFF_rgba (width height : nat) (rasters : list (list Q))
    : option (list Z) :=
  let numBands := length rasters in
  let rgba := replicate (width * height * 4) 0%Z in
  foldl (parseGeoTIFF_pixel rasters numBands) (Some rgba)
        (seq 0 (width * height)).

(** ** [DetectionCanvas.tsx]: zoom and pan

    Every operation on numbers is rounded to binary64. *)

Module DetectionCanvas.

(** The state of the component that the drawing depends on. *)
Record State := mkState {
  scale : Q;
  offset : XY.t;
  isPanning : bool;
  startPan : XY.t
}.

Definition initial : State :=
  {| scale := 1; offset := XY.mk 0 0;
     isPanning := false; startPan := XY.mk 0 0 |}.

(** The fit of the image in the canvas, computed alike by
    [handleWheel] and by the drawing effect. *)
Record Fit := mkFit {
  fitScale : Q;
  displayWidth : Q;
  displayHeight : Q;
  baseOffsetX : Q;
  baseOffsetY : Q
}.

Definition fit `{Rounding} (canvasWidth canvasHeight imageWidth
    imageHeight : Q) : Fit :=
  let scaleX := fl (canvasWidth / imageWidth) in
  let scaleY := fl (canvasHeight / imageHeight) in
  let fitScale := Qmin scaleX scaleY in
  let displayWidth := fl (imageWidth * fitScale) in
  let displayHeight := fl (imageHeight * fitScale) in
  {| fitScale := fitScale;
     displayWidth := displayWidth;
     displayHeight := displayHeight;
     baseOffsetX := fl (fl (canvasWidth - displayWidth) / 2);
     baseOffsetY := fl (fl (canvasHeight - displayHeight) / 2) |}.

Definition handleWheel `{Rounding} (canvasWidth canvasHeight imageWidth
    imageHeight : Q) (mouseX mouseY deltaY : Q) (st : State) : State :=
  let f := fit canvasWidth canvasHeight imageWidth imageHeight in
  let delta := if gtb deltaY 0 then fl (9 # 10) else fl (11 # 10) in
  let newScale := Qmin (Qmax 1 (fl (scale st * delta))) 10 in
  let worldX :=
    fl (fl (fl (mouseX - baseOffsetX f) - XY.x (offset st)) / scale st) in
  let worldY :=
    fl (fl (fl (mouseY - baseOffsetY f) - XY.y (offset st)) / scale st) in
  {| scale := newScale;
     offset := XY.mk (fl (fl (mouseX - baseOffsetX f) - fl (worldX * newScale)))
                     (fl (fl (mouseY - baseOffsetY f) - fl (worldY * newScale)));
     isPanning := isPanning st;
     startPan := startPan st |}.

Definition handleMouseDown `{Rounding} (button : Z) (clientX clientY : Q)
    (st : State) : State :=
  if (button =? 0)%Z
  then {| scale := scale st; offset := offset st;
          isPanning := true;
          startPan := XY.mk (fl (clientX - XY.x (offset st)))
                            (fl (clientY - XY.y (offset st))) |}
  else st.

Definition handleMouseMove `{Rounding} (clientX clientY : Q) (st : State)
    : State :=
  if isPanning st
  then {| scale := scale st;
          offset := XY.mk (fl (clientX - XY.x (startPan st)))
                          (fl (clientY - XY.y (startPan st)));
          isPanning := isPanning st; startPan := startPan st |}
  else st.

(** [handleMouseUp] and [handleMouseLeave]. *)
Definition handleMouseUp (st : State) : State :=
  {| scale := scale st; offset := offset st;
     isPanning := false; startPan := startPan st |}.

(** The effect that runs when the image changes. *)
Definition resetView (st : State) : State :=
  {| scale := 1; offset := XY.mk 0 0;
     isPanning := isPanning st; startPan := startPan st |}.

Inductive Event :=
| Wheel (mouseX mouseY deltaY : Q)
| MouseDown (button : Z) (clientX clientY : Q)
| MouseMove (clientX clientY : Q)
| MouseUp
| MouseLeave
| ImageChanged.

Definition step `{Rounding} (canvasWidth canvasHeight imageWidth
    imageHeight : Q) (st : State) (e : Event) : State :=
  match e with
  | Wheel mouseX mouseY deltaY =>
    handleWheel canvasWidth canvasHeight imageWidth imageHeight
                mouseX mouseY deltaY st
  | MouseDown button clientX clientY =>
    handleMouseDown button clientX clientY st
  | MouseMove clientX clientY => handleMouseMove clientX clientY st
  | MouseUp | MouseLeave => handleMouseUp st
  | ImageChanged => resetView st
  end.

End DetectionCanvas.

(** ** [App.tsx]: the two image slots and what is displayed *)

Module App.

(** The interface [ImageData] of [App.tsx]; [source] stands for the
    canvas or image element. *)
Record ImageData := mkImageData {
  source : nat;
  width : Z;
  height : Z;
  isGeoTIFF : bool;
  geoMeta : option GeoTIFFMeta;
  detections : list Detection
}.

Record State := mkState {
  firstImage : option ImageData;
  secondImage : option ImageData;
  confidenceThreshold : Q;
  isMerged : bool
}.

Definition initial : State :=
  {| firstImage := None; secondImage := None;
     confidenceThreshold := CONFIDENCE_THRESHOLD; isMerged := false |}.

(** The value of the [useMemo]. *)
Record View := mkView {
  viewDetections : list Detection;
  imageSource : option nat;
  imageWidth : Z;
  imageHeight : Z;
  viewIsGeoTIFF : bool;
  viewGeoMeta : option GeoTIFFMeta
}.

Definition emptyView : View :=
  {| viewDetections := []; imageSource := None;
     imageWidth := 0; imageHeight := 0;
     viewIsGeoTIFF := false; viewGeoMeta := None |}.

(** [d.confidence >= confidenceThreshold] *)
Definition atLeast (threshold : Q) (d : Detection) : bool :=
  negb (gtb threshold (confidence d)).

(** [first.isGeoTIFF && second.isGeoTIFF && first.geoMeta &&
    second.geoMeta], with the two metadata when it holds. *)
Definition bothGeoTIFF (first second : ImageData)
    : option (GeoTIFFMeta * GeoTIFFMeta) :=
  if isGeoTIFF first && isGeoTIFF second
  then meta1 ← geoMeta first; meta2 ← geoMeta second; Some (meta1, meta2)
  else None.

Definition imageView (threshold : Q) (image : ImageData) : View :=
  {| viewDetections := List.filter (atLeast threshold) (detections image);
     imageSource := Some (source image);
     imageWidth := width image;
     imageHeight := height image;
     viewIsGeoTIFF := isGeoTIFF image;
     viewGeoMeta := geoMeta image |}.

Definition currentView `{MathTrig} (st : State) : View :=
  match firstImage st, secondImage st with
  | None, None => emptyView
  | first, second =>
    match (f ← first; s ← second; metas ← bothGeoTIFF f s;
           Some (f, metas.1, s, metas.2)) with
    | Some (f, meta1, s, meta2) =>
      {| viewDetections :=
           List.filter (atLeast (confidenceThreshold st))
             (mergeGeoTIFFDetections (detections f) meta1
                                     (detections s) meta2 (1 # 2));
         imageSource := Some (source f);
         imageWidth := width f;
         imageHeight := height f;
         viewIsGeoTIFF := true;
         viewGeoMeta := geoMeta f |}
    | None =>
      match second, first with
      | Some s, _ => imageView (confidenceThreshold st) s
      | None, Some f => imageView (confidenceThreshold st) f
      | None, None => emptyView
      end
    end
  end.

(** [handleFileSelect] once the file is read and [runInference] has
    returned: [newImageData] takes the first slot when that is free
    and the second one otherwise. *)
Definition handleFileSelect (newImageData : ImageData) (st : State) : State :=
  match firstImage st with
  | None =>
    {| firstImage := Some newImageData; secondImage := None;
       confidenceThreshold := confidenceThreshold st; isMerged := false |}
  | Some first =>
    {| firstImage := firstImage st; secondImage := Some newImageData;
       confidenceThreshold := confidenceThreshold st;
       isMerged := match bothGeoTIFF first newImageData with
                   | Some _ => true
                   | None => false
                   end |}
  end.

(** The button that asks for another image. *)
Definition resetImages (st : State) : State :=
  {| firstImage := None; secondImage := None;
     confidenceThreshold := confidenceThreshold st; isMerged := false |}.

Definition setConfidenceThreshold (value : Q) (st : State) : State :=
  {| firstImage := firstImage st; secondImage := secondImage st;
     confidenceThreshold := value; isMerged := isMerged st |}.

Inductive Event :=
| FileSelected (newImageData : ImageData)
| ResetClicked
| ThresholdChanged (value : Q).

Definition step (st : State) (e : Event) : State :=
  match e with
  | FileSelected newImageData => handleFileSelect newImageData st
  | ResetClicked => resetImages st
  | ThresholdChanged value => setConfidenceThreshold value st
  end.

End App.

(** * Properties *)

(** ** Numbers *)

Lemma gtb_true (a b : Q) : gtb a b = true <-> b < a.
Proof.
  unfold gtb. rewrite Qgt_alt. destruct (a ?= b); split; congruence.
Qed.

Lemma gtb_false (a b : Q) : gtb a b = false <-> a <= b.
Proof.
  rewrite <- not_true_iff_false, gtb_true. split.
  - apply Qnot_lt_le.
  - apply Qle_not_lt.
Qed.

Lemma gtb_proper : Proper (Qeq ==> Qeq ==> eq) gtb.
Proof.
  intros a a' Ha b b' Hb. unfold gtb. now rewrite Ha, Hb.
Qed.

Lemma seriesTrig_at_zero : @TrigAtZero seriesTrig.
Proof.
  intros a Ha. simpl. unfold series_cos, series_sin.
  rewrite Ha. split; reflexivity.
Qed.

(** ** Binary floating point: the laws of [ieee754] *)

Lemma roundTiesToEven_bounds (q : Q) :
  (Qfloor q <= roundTiesToEven q <= Qfloor q + 1)%Z.
Proof.
  unfold roundTiesToEven.
  destruct (q ?= inject_Z (Qfloor q) + (1 # 2)); [|lia|lia].
  destruct (Z.even (Qfloor q)); lia.
Qed.

Lemma roundTiesToEven_mono (a b : Q) :
  a <= b -> (roundTiesToEven a <= roundTiesToEven b)%Z.
Proof.
  intros Hab.
  pose proof (Qfloor_resp_le a b Hab) as Hf.
  pose proof (roundTiesToEven_bounds a) as Ha.
  pose proof (roundTiesToEven_bounds b) as Hb.
  destruct (decide (Qfloor a = Qfloor b)) as [Heq|Hne]; [|lia].
  unfold roundTiesToEven in *. rewrite <- Heq in *.
  set (f := Qfloor a) in *.
  destruct (a ?= inject_Z f + (1 # 2)) eqn:Hca;
    destruct (b ?= inject_Z f + (1 # 2)) eqn:Hcb;
    try (destruct (Z.even f); lia);
    exfalso;
    first [apply Qeq_alt in Hca | apply Qlt_alt in Hca | apply Qgt_alt in Hca];
    first [apply Qeq_alt in Hcb | apply Qlt_alt in Hcb | apply Qgt_alt in Hcb];
    lra.
Qed.

Lemma roundTiesToEven_Z (n : Z) : roundTiesToEven (inject_Z n) = n.
Proof.
  unfold roundTiesToEven. rewrite Qfloor_Z.
  assert (H : (inject_Z n ?= inject_Z n + (1 # 2)) = Lt).
  { apply (proj1 (Qlt_alt _ _)). generalize (inject_Z n). intros q. lra. }
  by rewrite H.
Qed.

Lemma Qpower2_pos (e : Z) : 0 < 2 ^ e.
Proof. by apply Qpower_0_lt. Qed.

Lemma Qpower2_le (a b : Z) : (a <= b)%Z -> 2 ^ a <= 2 ^ b.
Proof. intros Hab. apply Qpower_le_compat_l; [done|]. discriminate. Qed.

Lemma Qpower2_succ (a : Z) : 2 ^ (a + 1) == 2 * 2 ^ a.
Proof. rewrite Qpower_plus by discriminate. change (2 ^ 1) with 2. ring. Qed.

Lemma Qpower2_inject (n : Z) : (0 <= n)%Z -> inject_Z (2 ^ n) == 2 ^ n.
Proof. intros Hn. by rewrite Zpower_Qpower. Qed.

Lemma Qlog2_spec (q : Q) :
  0 < q -> 2 ^ Qlog2 q <= q /\ q < 2 ^ (Qlog2 q + 1).
Proof.
  intros Hq. unfold Qlog2.
  destruct q as [n d]. cbn [Qnum Qden].
  assert (Hn : (0 < n)%Z).
  { unfold Qlt in Hq. simpl in Hq. lia. }
  set (a := Z.log2 n). set (b := Z.log2 (Z.pos d)).
  destruct (Z.log2_spec n Hn) as [Ha1 Ha2]. fold a in Ha1, Ha2.
  destruct (Z.log2_spec (Z.pos d) eq_refl) as [Hb1 Hb2]. fold b in Hb1, Hb2.
  assert (Ha0 : (0 <= a)%Z) by apply Z.log2_nonneg.
  assert (Hb0 : (0 <= b)%Z) by apply Z.log2_nonneg.
  assert (Hq' : n # d == inject_Z n / inject_Z (Z.pos d)) by apply Qmake_Qdiv.
  assert (Hd : 0 < inject_Z (Z.pos d)) by done.
  rewrite Zle_Qle, Qpower2_inject in Ha1, Hb1 by done.
  rewrite Zlt_Qlt in Ha2, Hb2.
  rewrite (Qpower2_inject (Z.succ a)) in Ha2 by lia.
  rewrite (Qpower2_inject (Z.succ b)) in Hb2 by lia.
  replace (Z.succ a) with (a + 1)%Z in Ha2 by lia.
  replace (Z.succ b) with (b + 1)%Z in Hb2 by lia.
  rewrite Qpower2_succ in Ha2, Hb2.
  pose proof (Qpower2_pos a) as Hpa. pose proof (Qpower2_pos b) as Hpb.
  assert (Hk : 2 ^ (a - b) == 2 ^ a / 2 ^ b).
  { rewrite Qpower_minus by discriminate. reflexivity. }
  assert (Hlow : 2 ^ (a - b - 1) < n # d).
  { assert (H1 : 2 ^ (a - b - 1) == 2 ^ a / (2 * 2 ^ b)).
    { replace (a - b - 1)%Z with (a - (b + 1))%Z by lia.
      rewrite Qpower_minus by discriminate. by rewrite Qpower2_succ. }
    rewrite H1, Hq'.
    apply Qlt_shift_div_l; [lra|].
    assert (H2 : 2 ^ a / (2 * 2 ^ b) * inject_Z (Z.pos d)
                 == 2 ^ a * (inject_Z (Z.pos d) / (2 * 2 ^ b)))
      by (field; lra).
    rewrite H2.
    assert (H3 : inject_Z (Z.pos d) / (2 * 2 ^ b) < 1)
      by (apply Qlt_shift_div_r; lra).
    nra. }
  assert (Hhigh : n # d < 2 ^ (a - b + 1)).
  { rewrite Qpower2_succ, Hk, Hq'.
    apply Qlt_shift_div_r; [lra|].
    assert (H2 : 2 * (2 ^ a / 2 ^ b) * inject_Z (Z.pos d)
                 == 2 * 2 ^ a * (inject_Z (Z.pos d) / 2 ^ b))
      by (field; lra).
    rewrite H2.
    assert (H3 : 1 <= inject_Z (Z.pos d) / 2 ^ b)
      by (apply Qle_shift_div_l; lra).
    nra. }
  destruct (Qle_bool (2 ^ (a - b)) (n # d)) eqn:Hle.
  - apply Qle_bool_iff in Hle. by split.
  - assert (Hlt : n # d < 2 ^ (a - b)).
    { apply Qnot_le_lt. intros H. apply Qle_bool_iff in H. congruence. }
    split; [by apply Qlt_le_weak|].
    by replace (a - b - 1 + 1)%Z with (a - b)%Z by lia.
Qed.

Lemma Qpower2_lt_inv (a b : Z) : 2 ^ a < 2 ^ b -> (a < b)%Z.
Proof.
  intros H. destruct (Z.lt_ge_cases a b) as [|Hge]; [done|].
  apply Qpower2_le in Hge. lra.
Qed.

Lemma Qlog2_mono (a b : Q) : 0 < a -> a <= b -> (Qlog2 a <= Qlog2 b)%Z.
Proof.
  intros Ha Hab.
  destruct (Qlog2_spec a Ha) as [Ha1 _].
  destruct (Qlog2_spec b) as [_ Hb2]; [lra|].
  assert (H : 2 ^ Qlog2 a < 2 ^ (Qlog2 b + 1)) by lra.
  apply Qpower2_lt_inv in H. lia.
Qed.

Lemma roundPositive_nonneg (prec emin : Z) (q : Q) :
  0 < q -> 0 <= roundPositive prec emin q.
Proof.
  intros Hq. unfold roundPositive.
  set (e := Z.max emin (Qlog2 q - (prec - 1))).
  pose proof (Qpower2_pos e) as He.
  assert (H0 : (0 <= roundTiesToEven (q / 2 ^ e))%Z).
  { rewrite <- (roundTiesToEven_Z 0). apply roundTiesToEven_mono.
    apply Qle_shift_div_l; [done|]. change (inject_Z 0) with 0. lra. }
  rewrite Zle_Qle in H0. change (inject_Z 0) with 0 in H0. nra.
Qed.

Lemma roundPositive_mono (prec emin : Z) (a b : Q) :
  (0 < prec)%Z -> 0 < a -> a <= b ->
  roundPositive prec emin a <= roundPositive prec emin b.
Proof.
  intros Hprec Ha Hab. assert (Hb : 0 < b) by lra.
  pose proof (Qlog2_mono a b Ha Hab) as Hlog.
  unfold roundPositive.
  set (ea := Z.max emin (Qlog2 a - (prec - 1))).
  set (eb := Z.max emin (Qlog2 b - (prec - 1))).
  pose proof (Qpower2_pos ea) as Hea. pose proof (Qpower2_pos eb) as Heb.
  destruct (decide (ea = eb)) as [Heq|Hne].
  - rewrite Heq. apply Qmult_le_compat_r; [|lra].
    rewrite <- Zle_Qle. apply roundTiesToEven_mono.
    apply Qle_shift_div_l; [done|].
    assert (H : a / 2 ^ eb * 2 ^ eb == a) by (field; lra).
    by rewrite H.
  - assert (Hlt : (ea < eb)%Z) by lia.
    assert (Heb' : eb = (Qlog2 b - (prec - 1))%Z) by lia.
    destruct (Qlog2_spec a Ha) as [_ Ha2].
    destruct (Qlog2_spec b Hb) as [Hb1 _].
    (* rounded b is at least 2^(prec-1+eb) *)
    assert (HB : inject_Z (2 ^ (prec - 1)) * 2 ^ eb
                 <= inject_Z (roundTiesToEven (b / 2 ^ eb)) * 2 ^ eb).
    { apply Qmult_le_compat_r; [|lra]. rewrite <- Zle_Qle.
      rewrite <- (roundTiesToEven_Z (2 ^ (prec - 1))).
      apply roundTiesToEven_mono. rewrite Qpower2_inject by lia.
      apply Qle_shift_div_l; [done|].
      rewrite <- Qpower_plus by discriminate.
      by replace (prec - 1 + eb)%Z with (Qlog2 b) by lia. }
    (* rounded a is at most 2^(prec+ea) *)
    assert (HA : inject_Z (roundTiesToEven (a / 2 ^ ea)) * 2 ^ ea
                 <= inject_Z (2 ^ prec) * 2 ^ ea).
    { apply Qmult_le_compat_r; [|lra]. rewrite <- Zle_Qle.
      rewrite <- (roundTiesToEven_Z (2 ^ prec)).
      apply roundTiesToEven_mono. rewrite Qpower2_inject by lia.
      apply Qle_shift_div_r; [done|].
      rewrite <- Qpower_plus by discriminate.
      apply Qlt_le_weak. eapply Qlt_le_trans; [exact Ha2|].
      apply Qpower2_le. lia. }
    rewrite Qpower2_inject in HA, HB by lia.
    rewrite <- Qpower_plus in HA, HB by discriminate.
    assert (H : 2 ^ (prec + ea) <= 2 ^ (prec - 1 + eb))
      by (apply Qpower2_le; lia).
    lra.
Qed.

Lemma roundBinary_mono (prec emin : Z) (a b : Q) :
  (0 < prec)%Z -> a <= b -> roundBinary prec emin a <= roundBinary prec emin b.
Proof.
  intros Hprec Hab. unfold roundBinary.
  destruct (Qcompare_spec a 0) as [Ha|Ha|Ha];
    destruct (Qcompare_spec b 0) as [Hb|Hb|Hb]; try lra.
  - by apply roundPositive_nonneg.
  - pose proof (roundPositive_nonneg prec emin (- a) ltac:(lra)). lra.
  - assert (H : roundPositive prec emin (- b) <= roundPositive prec emin (- a))
      by (apply roundPositive_mono; [done|lra|lra]).
    lra.
  - pose proof (roundPositive_nonneg prec emin (- a) ltac:(lra)).
    pose proof (roundPositive_nonneg prec emin b Hb). lra.
  - by apply roundPositive_mono.
Qed.

Lemma ieee754_laws : @RoundingLaws ieee754.
Proof.
  unfold RoundingLaws. cbn [fl fround ieee754].
  split; [intros a b Hab; by apply roundBinary_mono|].
  split; [intros a b Hab; by apply roundBinary_mono|].
  repeat split; by vm_compute.
Qed.

Lemma fl_proper `{Rounding} (a b : Q) :
  RoundingLaws -> a == b -> fl a == fl b.
Proof.
  intros (Hfl & _) Hab. apply Qle_antisym; apply Hfl; lra.
Qed.

(** ** GeoReferencer *)

(** Where no operation of [pixelToGeo] rounds, the binary64 result is
    the exact one. *)
Lemma pixelToGeo_exact `{Rounding} (ref : GeoTIFFMeta) (px py : Q) :
  RoundingLaws ->
  fl (px * XY.x (pixelScale ref)) == px * XY.x (pixelScale ref) ->
  fl (py * XY.y (pixelScale ref)) == py * XY.y (pixelScale ref) ->
  fl (XY.x (tiePoint ref) + px * XY.x (pixelScale ref))
  == XY.x (tiePoint ref) + px * XY.x (pixelScale ref) ->
  fl (XY.y (tiePoint ref) - py * XY.y (pixelScale ref))
  == XY.y (tiePoint ref) - py * XY.y (pixelScale ref) ->
  XY.eq (Binary64.pixelToGeo px py ref) (pixelToGeo px py ref).
Proof.
  intros Hlaws Hx Hy Hsx Hsy.
  unfold XY.eq, Binary64.pixelToGeo, pixelToGeo. cbn [XY.x XY.y]. split.
  - apply (Qeq_trans _ (fl (XY.x (tiePoint ref)
                                + px * XY.x (pixelScale ref)))); [|exact Hsx].
    apply fl_proper; [done|]. by rewrite Hx.
  - apply (Qeq_trans _ (fl (XY.y (tiePoint ref)
                                - py * XY.y (pixelScale ref)))); [|exact Hsy].
    apply fl_proper; [done|]. by rewrite Hy.
Qed.




(** ** CoordinateMapper *)

(** C6.  Each detection is remapped by the stated formulas; the list
    keeps its length and order, and the class, the confidence and the
    angle of every detection are carried over. *)
Theorem mapDetectionsToOriginal_spec (detections : list Detection)
    (scale padX padY tileOffsetX tileOffsetY : Q) :
  0 < scale ->
  length (mapDetectionsToOriginal detections scale padX padY
            tileOffsetX tileOffsetY) = length detections
  /\ forall (i : nat) (d : Detection),
      detections !! i = Some d ->
      exists d' : Detection,
        mapDetectionsToOriginal detections scale padX padY
          tileOffsetX tileOffsetY !! i = Some d'
        /\ cx d' = (cx d - padX) / scale + tileOffsetX
        /\ cy d' = (cy d - padY) / scale + tileOffsetY
        /\ width d' = width d / scale
        /\ height d' = height d / scale
        /\ angle d' = angle d
        /\ classId d' = classId d
        /\ className d' = className d
        /\ confidence d' = confidence d.
Proof.
  intros _. unfold mapDetectionsToOriginal. split.
  - apply length_map.
  - intros i d Hd. eexists. split.
    + rewrite list_lookup_fmap, Hd. reflexivity.
    + simpl. repeat split.
Qed.

Lemma mapDetectionsToOriginal_spec_witness :
  0 < 2
  /\ exists d' : Detection,
      mapDetectionsToOriginal
        [mkDetection 3 "harbor" (9 # 10) 512 256 64 32 (1 # 2)]
        2 0 128 768 0 !! 0%nat = Some d'
      /\ cx d' == 1024 /\ cy d' == 64 /\ width d' == 32 /\ height d' == 16.
Proof.
  split; [reflexivity|].
  destruct (mapDetectionsToOriginal_spec
              [mkDetection 3 "harbor" (9 # 10) 512 256 64 32 (1 # 2)]
              2 0 128 768 0) as [_ Hi]; [reflexivity|].
  destruct (Hi 0%nat _ eq_refl) as (d' & Hd' & Hx & Hy & Hw & Hh & _).
  exists d'. rewrite Hx, Hy, Hw, Hh. simpl.
  split; [exact Hd'|]. repeat split; reflexivity.
Defined.

(** ** GeometryKit *)

Lemma getOBBCorners_axis_aligned `{MathTrig} (d : Detection) :
  TrigAtZero ->
  angle d == 0 ->
  Forall2 corner_eq (getOBBCorners d)
    [(cx d - width d / 2, cy d - height d / 2);
     (cx d + width d / 2, cy d - height d / 2);
     (cx d + width d / 2, cy d + height d / 2);
     (cx d - width d / 2, cy d + height d / 2)].
Proof.
  intros Hz Ha. destruct (Hz _ Ha) as [Hc Hs].
  unfold getOBBCorners. simpl.
  repeat constructor; simpl; rewrite Hc, Hs; ring.
Qed.

(** C7.  At angle [0] the corners are those of the axis-aligned
    rectangle, in the order top-left, top-right, bottom-right,
    bottom-left. *)
Theorem getOBBCorners_angle_zero `{MathTrig} (d : Detection) :
  TrigAtZero ->
  angle d == 0 ->
  exists p0 p1 p2 p3 : Corner,
    getOBBCorners d = [p0; p1; p2; p3]
    /\ corner_eq p0 (cx d - width d / 2, cy d - height d / 2)
    /\ corner_eq p1 (cx d + width d / 2, cy d - height d / 2)
    /\ corner_eq p2 (cx d + width d / 2, cy d + height d / 2)
    /\ corner_eq p3 (cx d - width d / 2, cy d + height d / 2).
Proof.
  intros Hz Ha.
  pose proof (getOBBCorners_axis_aligned d Hz Ha) as Hall.
  unfold getOBBCorners in *. simpl in *.
  do 4 eexists. split; [reflexivity|].
  repeat match goal with
         | Hf : Forall2 _ (_ :: _) (_ :: _) |- _ =>
           apply Forall2_cons_1 in Hf as [? Hf]
         end.
  auto.
Qed.

Lemma getOBBCorners_angle_zero_witness :
  exists p0 p1 p2 p3 : Corner,
    @getOBBCorners seriesTrig (mkDetection 0 "plane" (9 # 10) 50 50 20 10 0)
    = [p0; p1; p2; p3]
    /\ corner_eq p0 (40, 45) /\ corner_eq p1 (60, 45)
    /\ corner_eq p2 (60, 55) /\ corner_eq p3 (40, 55).
Proof.
  destruct (@getOBBCorners_angle_zero seriesTrig
              (mkDetection 0 "plane" (9 # 10) 50 50 20 10 0)
              seriesTrig_at_zero ltac:(reflexivity))
    as (p0 & p1 & p2 & p3 & Heq & H0 & H1 & H2 & H3).
  exists p0, p1, p2, p3. split; [exact Heq|].
  unfold corner_eq in *. simpl in *.
  destruct H0 as [-> ->], H1 as [-> ->], H2 as [-> ->], H3 as [-> ->].
  repeat split; reflexivity.
Defined.

(** ** OBBSuppressor: the loops of [nmsOBB] *)

Section NmsLoop.

Variables (sorted : list Detection) (iouThreshold : Q).

Lemma nms_inner_body_spec (i j k : nat) (suppressed : gset nat) :
  k ∈ nms_inner_body sorted iouThreshold i suppressed j
  <-> k ∈ suppressed \/ (k = j /\ suppresses sorted iouThreshold i j).
Proof.
  unfold nms_inner_body, suppresses.
  case_bool_decide as Hj.
  { split; [auto|]. intros [?|[-> _]]; auto. }
  destruct (sorted !! i) as [di|] eqn:Hi.
  2:{ split; [auto|]. intros [?|[_ (? & ? & ? & _)]]; [auto|congruence]. }
  destruct (sorted !! j) as [dj|] eqn:Hdj.
  2:{ split; [auto|]. intros [?|[_ (? & ? & ? & ? & _)]]; [auto|congruence]. }
  destruct (Nat.eqb_spec (classId di) (classId dj)) as [Hc|Hc]; simpl.
  2:{ split; [auto|].
      intros [?|[_ (? & ? & ? & ? & ? & _)]]; [auto|]. congruence. }
  destruct (gtb (computeAABBIoU di dj) iouThreshold) eqn:Hg.
  - apply gtb_true in Hg. rewrite elem_of_union, elem_of_singleton.
    split.
    + intros [->|?]; [right|auto]. split; [done|]. by exists di, dj.
    + intros [?|[-> _]]; auto.
  - apply gtb_false in Hg. split; [auto|].
    intros [?|[_ (? & ? & ? & ? & _ & Hlt)]]; [auto|]. simplify_eq.
    exfalso. eapply Qlt_irrefl, Qlt_le_trans; eauto.
Qed.

Lemma nms_inner_spec (i : nat) (js : list nat) (k : nat)
    (suppressed : gset nat) :
  k ∈ foldl (nms_inner_body sorted iouThreshold i) suppressed js
  <-> k ∈ suppressed \/ (k ∈ js /\ suppresses sorted iouThreshold i k).
Proof.
  revert suppressed. induction js as [|j js IH]; intros suppressed; simpl.
  - split; [auto|]. intros [?|[Hk _]]; [auto|]. by apply elem_of_nil in Hk.
  - rewrite IH, nms_inner_body_spec, elem_of_cons. split.
    + intros [[?|[-> ?]]|[? ?]]; auto.
    + intros [?|[[->|?] ?]]; auto.
Qed.

Lemma nms_inv_init : nms_inv sorted iouThreshold 0 ([], ∅).
Proof.
  split; simpl.
  - exists []. split; [constructor|]. split.
    + intros p q kp kq _ Hp. by rewrite lookup_nil in Hp.
    + intros k. rewrite elem_of_nil. split; [done|]. lia.
  - intros j Hj. by apply elem_of_empty in Hj.
  - intros k j Hk. lia.
Qed.

Lemma nms_inv_step (i : nat) (st : list Detection * gset nat) :
  (i < length sorted)%nat ->
  nms_inv sorted iouThreshold i st ->
  nms_inv sorted iouThreshold (S i) (nms_outer_body sorted iouThreshold st i).
Proof.
  intros Hi [(ks & Hks & Hinc & Hmem) Hcause Hclosed].
  unfold nms_outer_body. case_bool_decide as HiS.
  { split.
    - exists ks. split; [done|]. split; [done|].
      intros k. rewrite Hmem. split; [intros [? ?]; split; [lia|done]|].
      intros [Hk HkS]. split; [|done].
      destruct (decide (k = i)) as [->|]; [done|lia].
    - intros j Hj. destruct (Hcause j Hj) as (k & ? & ? & ? & ?).
      exists k. repeat split; auto with lia.
    - intros k j Hk HkS. apply Hclosed; [|done].
      destruct (decide (k = i)) as [->|]; [done|lia]. }
  destruct (lookup_lt_is_Some_2 sorted i Hi) as [di Hdi]. rewrite Hdi.
  set (S' := foldl _ _ _).
  assert (HS' : forall k, k ∈ S' <->
                  k ∈ st.2 \/ ((i < k)%nat /\ suppresses sorted iouThreshold i k)).
  { intros k. unfold S'. rewrite nms_inner_spec, elem_of_seq.
    split; [intros [?|[? ?]]; [auto|right; split; [lia|done]]|].
    intros [?|[Hlt Hs]]; [auto|right]. split; [|done].
    destruct Hs as (? & dk & _ & Hk & _).
    apply lookup_lt_Some in Hk. lia. }
  split; simpl.
  - exists (ks ++ [i]). split; [|split].
    + apply Forall2_app; [done|]. by repeat constructor.
    + intros p q kp kq Hpq Hp Hq.
      apply lookup_app_Some in Hp as [Hp|[Hpl Hp]];
        apply lookup_app_Some in Hq as [Hq|[Hql Hq]].
      * eauto.
      * apply list_lookup_singleton_Some in Hq as [_ <-].
        apply list_elem_of_lookup_2, Hmem in Hp. lia.
      * apply list_lookup_singleton_Some in Hp as [Hp' _].
        apply lookup_lt_Some in Hq. lia.
      * apply list_lookup_singleton_Some in Hp as [Hp' _].
        apply list_lookup_singleton_Some in Hq as [Hq' _]. lia.
    + intros k. rewrite elem_of_app, list_elem_of_singleton, Hmem, HS'.
      split.
      * intros [[Hk HkS]| ->]; (split; [lia|]); intros [?|[? _]];
          done || lia.
      * intros [Hk HkS]. destruct (decide (k = i)) as [->|]; [auto|].
        left. split; [lia|]. intros ?. apply HkS. auto.
  - intros j Hj. apply HS' in Hj as [Hj|[Hij Hs]].
    + destruct (Hcause j Hj) as (k & ? & ? & HkS & ?).
      exists k. repeat split; auto with lia.
      rewrite HS'. intros [?|[? _]]; done || lia.
    + exists i. repeat split; auto with lia.
      rewrite HS'. intros [?|[? _]]; done || lia.
  - intros k j Hk HkS Hkj Hs. apply HS'.
    destruct (decide (k = i)) as [->|]; [auto|].
    left. apply (Hclosed k j); auto with lia.
    intros ?. apply HkS, HS'. auto.
Qed.

Lemma nms_inv_foldl (n i : nat) (st : list Detection * gset nat) :
  (i + n <= length sorted)%nat ->
  nms_inv sorted iouThreshold i st ->
  nms_inv sorted iouThreshold (i + n)
    (foldl (nms_outer_body sorted iouThreshold) st (seq i n)).
Proof.
  revert i st. induction n as [|n IH]; intros i st Hn Hinv; simpl.
  - by rewrite Nat.add_0_r.
  - replace (i + S n)%nat with (S i + n)%nat by lia.
    apply IH; [lia|]. apply nms_inv_step; [lia|done].
Qed.

Lemma nms_loop_inv :
  nms_inv sorted iouThreshold (length sorted) (nms_loop sorted iouThreshold).
Proof.
  apply (nms_inv_foldl (length sorted) 0); [lia|]. apply nms_inv_init.
Qed.

Lemma nms_loop_subset (d : Detection) :
  d ∈ (nms_loop sorted iouThreshold).1 -> d ∈ sorted.
Proof.
  destruct nms_loop_inv as [(ks & Hks & _) _ _].
  intros Hd. apply list_elem_of_lookup in Hd as [p Hp].
  destruct (Forall2_lookup_r _ _ _ _ _ Hks Hp) as (k & _ & Hk).
  by apply list_elem_of_lookup_2 in Hk.
Qed.

Lemma nms_loop_pairs (p q : nat) (a b : Detection) :
  (p < q)%nat ->
  (nms_loop sorted iouThreshold).1 !! p = Some a ->
  (nms_loop sorted iouThreshold).1 !! q = Some b ->
  classId a = classId b ->
  computeAABBIoU a b <= iouThreshold.
Proof.
  destruct nms_loop_inv as [(ks & Hks & Hinc & Hmem) _ Hclosed].
  intros Hpq Hp Hq Hc.
  destruct (Forall2_lookup_r _ _ _ _ _ Hks Hp) as (kp & Hkp & Ha).
  destruct (Forall2_lookup_r _ _ _ _ _ Hks Hq) as (kq & Hkq & Hb).
  pose proof (Hinc p q kp kq Hpq Hkp Hkq) as Hlt.
  apply list_elem_of_lookup_2, Hmem in Hkp as [Hkp HpS].
  apply list_elem_of_lookup_2, Hmem in Hkq as [Hkq HqS].
  apply Qnot_lt_le. intros Hiou. apply HqS.
  apply (Hclosed kp kq); auto. by exists a, b.
Qed.

Lemma nms_loop_cause (d : Detection) :
  d ∈ sorted ->
  d ∈ (nms_loop sorted iouThreshold).1
  \/ exists e : Detection,
       e ∈ (nms_loop sorted iouThreshold).1
       /\ classId e = classId d
       /\ iouThreshold < computeAABBIoU e d.
Proof.
  destruct nms_loop_inv as [(ks & Hks & _ & Hmem) Hcause _].
  assert (Hkept : forall k e, (k < length sorted)%nat ->
            k ∉ (nms_loop sorted iouThreshold).2 ->
            sorted !! k = Some e ->
            e ∈ (nms_loop sorted iouThreshold).1).
  { intros k e Hk HkS He.
    assert (Hin : k ∈ ks) by (apply Hmem; auto).
    apply list_elem_of_lookup in Hin as [p Hp].
    destruct (Forall2_lookup_l _ _ _ _ _ Hks Hp) as (e' & He' & Hke).
    rewrite He in Hke. injection Hke as <-.
    by apply list_elem_of_lookup_2 in He'. }
  intros Hd. apply list_elem_of_lookup in Hd as [j Hj].
  destruct (decide (j ∈ (nms_loop sorted iouThreshold).2)) as [HjS|HjS].
  - right. destruct (Hcause j HjS) as (k & _ & Hk & HkS & Hs).
    destruct Hs as (dk & dj & Hdk & Hdj & Hc & Hiou).
    rewrite Hj in Hdj. injection Hdj as <-.
    exists dk. split; [|done]. by apply (Hkept k).
  - left. apply (Hkept j); [|done..]. by apply lookup_lt_Some in Hj.
Qed.
End NmsLoop.

Lemma sort_insert_perm {A} (cmp : A -> A -> Q) (a : A) (l : list A) :
  sort_insert cmp a l ≡ₚ a :: l.
Proof.
  induction l as [|b l IH]; simpl; [done|].
  destruct (gtb (cmp a b) 0); [|done].
  rewrite IH. apply Permutation_swap.
Qed.

Lemma Array_sort_perm {A} (cmp : A -> A -> Q) (l : list A) :
  Array_sort cmp l ≡ₚ l.
Proof.
  induction l as [|a l IH]; simpl; [done|].
  unfold Array_sort in *. simpl. by rewrite sort_insert_perm, IH.
Qed.

Lemma ratio_or_zero_proper (u u' i i' : Q) :
  u == u' -> i == i' ->
  (if gtb u 0 then i / u else 0) == (if gtb u' 0 then i' / u' else 0).
Proof.
  intros Hu Hi. rewrite (gtb_proper u u' Hu 0 0 (Qeq_refl 0)).
  destruct (gtb u' 0); [|reflexivity]. by rewrite Hu, Hi.
Qed.

Lemma computeAABBIoU_sym (a b : Detection) :
  computeAABBIoU a b == computeAABBIoU b a.
Proof.
  unfold computeAABBIoU.
  set (ha := Qmax (width a) (height a) / 2).
  set (hb := Qmax (width b) (height b) / 2).
  assert (Hi : Qmax 0 (Qmin (cx a + ha) (cx b + hb)
                       - Qmax (cx a - ha) (cx b - hb))
               * Qmax 0 (Qmin (cy a + ha) (cy b + hb)
                         - Qmax (cy a - ha) (cy b - hb))
               == Qmax 0 (Qmin (cx b + hb) (cx a + ha)
                          - Qmax (cx b - hb) (cx a - ha))
                  * Qmax 0 (Qmin (cy b + hb) (cy a + ha)
                            - Qmax (cy b - hb) (cy a - ha))).
  { rewrite (Q.max_comm (cx b - hb) (cx a - ha)).
    rewrite (Q.max_comm (cy b - hb) (cy a - ha)).
    rewrite (Q.min_comm (cx b + hb) (cx a + ha)).
    rewrite (Q.min_comm (cy b + hb) (cy a + ha)). reflexivity. }
  apply ratio_or_zero_proper; [|exact Hi].
  rewrite Hi. ring.
Qed.

Lemma nmsOBB_subset (detections : list Detection) (iouThreshold : Q)
    (d : Detection) :
  d ∈ nmsOBB detections iouThreshold -> d ∈ detections.
Proof.
  unfold nmsOBB. destruct (length detections =? 0)%nat.
  - intros Hd. by apply elem_of_nil in Hd.
  - intros Hd. apply nms_loop_subset in Hd.
    by rewrite Array_sort_perm in Hd.
Qed.

Lemma nms_loop_pair (x y : Detection) (iouThreshold : Q) :
  (nms_loop [x; y] iouThreshold).1
  = if (classId x =? classId y)%nat && gtb (computeAABBIoU x y) iouThreshold
    then [x] else [x; y].
Proof.
  unfold nms_loop. simpl. unfold nms_outer_body at 2. simpl.
  rewrite bool_decide_eq_false_2 by set_solver. 
  unfold nms_inner_body. simpl.
  rewrite bool_decide_eq_false_2 by set_solver.
  unfold nms_outer_body. simpl.
  destruct (classId x =? classId y)%nat; simpl.
  - destruct (gtb (computeAABBIoU x y) iouThreshold); simpl.
    + rewrite bool_decide_eq_true_2 by set_solver. done.
    + rewrite bool_decide_eq_false_2 by set_solver. done.
  - rewrite bool_decide_eq_false_2 by set_solver. done.
Qed.

Lemma Array_sort_pair (a b : Detection) :
  Array_sort byConfidenceDesc [a; b]
  = if gtb (confidence b) (confidence a) then [b; a] else [a; b].
Proof.
  unfold Array_sort. simpl. unfold byConfidenceDesc.
  destruct (gtb (confidence b) (confidence a)) eqn:Hg.
  - apply gtb_true in Hg. 
    assert (H : gtb (confidence b - confidence a) 0 = true)
      by (apply gtb_true; lra).
    by rewrite H.
  - apply gtb_false in Hg.
    assert (H : gtb (confidence b - confidence a) 0 = false)
      by (apply gtb_false; lra).
    by rewrite H.
Qed.

Lemma nmsOBB_pair (a b : Detection) (iouThreshold : Q) :
  nmsOBB [a; b] iouThreshold
  = let '(x, y) := if gtb (confidence b) (confidence a)
                   then (b, a) else (a, b) in
    if (classId x =? classId y)%nat && gtb (computeAABBIoU x y) iouThreshold
    then [x] else [x; y].
Proof.
  unfold nmsOBB. change (length [a; b] =? 0)%nat with false.
  cbv beta iota zeta. rewrite Array_sort_pair.
  destruct (gtb (confidence b) (confidence a)); apply nms_loop_pair.
Qed.

(** C3.  Two detections of one class whose approximate IoU exceeds the
    threshold yield exactly one detection, the one of higher confidence
    (the first of the two when the confidences are equal); so it is
    for the boxes A and B of the example at threshold 0.45. *)
Theorem nmsOBB_two_same_class (a b : Detection) (iouThreshold : Q) :
  classId a = classId b ->
  iouThreshold < computeAABBIoU a b ->
  (exists d : Detection,
      nmsOBB [a; b] iouThreshold = [d]
      /\ d = (if gtb (confidence b) (confidence a) then b else a)
      /\ confidence a <= confidence d
      /\ confidence b <= confidence d)
  /\ nmsOBB [mkDetection 0 "plane" (8 # 10) 100 100 40 20 0;
             mkDetection 0 "plane" (95 # 100) 105 100 40 20 0] (45 # 100)
     = [mkDetection 0 "plane" (95 # 100) 105 100 40 20 0].
Proof.
  intros Hc Hiou. split; [|by vm_compute].
  eexists. split; [|split; [reflexivity|]].
  - rewrite nmsOBB_pair.
    destruct (gtb (confidence b) (confidence a));
      rewrite Hc, Nat.eqb_refl; simpl.
    + rewrite computeAABBIoU_sym in Hiou. apply gtb_true in Hiou.
      by rewrite Hiou.
    + apply gtb_true in Hiou. by rewrite Hiou.
  - destruct (gtb (confidence b) (confidence a)) eqn:Hg.
    + apply gtb_true in Hg. split; lra.
    + apply gtb_false in Hg. split; lra.
Qed.

Lemma nmsOBB_two_same_class_witness :
  exists d : Detection,
    nmsOBB [mkDetection 0 "plane" (8 # 10) 100 100 40 20 0;
            mkDetection 0 "plane" (95 # 100) 105 100 40 20 0] (45 # 100)
    = [d]
    /\ confidence d == 95 # 100.
Proof.
  destruct (nmsOBB_two_same_class
              (mkDetection 0 "plane" (8 # 10) 100 100 40 20 0)
              (mkDetection 0 "plane" (95 # 100) 105 100 40 20 0)
              (45 # 100)) as [(d & Hout & Hd & _) _].
  - reflexivity.
  - by vm_compute.
  - exists d. split; [exact Hout|]. rewrite Hd. reflexivity.
Defined.

(** C4.  A detection is missing from the output only if a detection of
    its own class that overlaps it above the threshold was kept; in
    particular two detections of different classes are both kept,
    whatever their geometry. *)
Theorem nmsOBB_class_gate (detections : list Detection) (iouThreshold : Q) :
  (forall d : Detection,
      d ∈ detections ->
      d ∈ nmsOBB detections iouThreshold
      \/ exists e : Detection,
           e ∈ nmsOBB detections iouThreshold
           /\ classId e = classId d
           /\ iouThreshold < computeAABBIoU e d)
  /\ (forall a b : Detection,
        classId a <> classId b ->
        nmsOBB [a; b] iouThreshold
        = if gtb (confidence b) (confidence a) then [b; a] else [a; b]).
Proof.
  split.
  - intros d Hd. unfold nmsOBB.
    destruct (length detections =? 0)%nat eqn:Hlen.
    + apply Nat.eqb_eq, nil_length_inv in Hlen. subst.
      by apply elem_of_nil in Hd.
    + apply nms_loop_cause. by rewrite Array_sort_perm.
  - intros a b Hc. rewrite nmsOBB_pair.
    destruct (gtb (confidence b) (confidence a)).
    + destruct (Nat.eqb_spec (classId b) (classId a)); [congruence|done].
    + destruct (Nat.eqb_spec (classId a) (classId b)); [congruence|done].
Qed.

(** C10.  No two detections of the output that share a class overlap
    above the threshold. *)
Theorem nmsOBB_output_separated (detections : list Detection)
    (iouThreshold : Q) (p q : nat) (a b : Detection) :
  p <> q ->
  nmsOBB detections iouThreshold !! p = Some a ->
  nmsOBB detections iouThreshold !! q = Some b ->
  classId a = classId b ->
  computeAABBIoU a b <= iouThreshold.
Proof.
  unfold nmsOBB. destruct (length detections =? 0)%nat.
  { intros _ Hp. by rewrite lookup_nil in Hp. }
  intros Hpq Hp Hq Hc.
  destruct (Nat.lt_total p q) as [Hlt|[->|Hlt]]; [|done|].
  - eapply nms_loop_pairs; eauto.
  - rewrite computeAABBIoU_sym. eapply nms_loop_pairs; eauto.
Qed.

Lemma nmsOBB_output_separated_witness :
  computeAABBIoU (mkDetection 1 "ship" (9 # 10) 100 100 40 20 0)
                 (mkDetection 1 "ship" (7 # 10) 130 100 40 20 0)
  <= 45 # 100.
Proof.
  apply (nmsOBB_output_separated
           [mkDetection 1 "ship" (7 # 10) 130 100 40 20 0;
            mkDetection 1 "ship" (8 # 10) 104 100 40 20 0;
            mkDetection 1 "ship" (9 # 10) 100 100 40 20 0]
           (45 # 100) 0 1).
  - discriminate.
  - by vm_compute.
  - by vm_compute.
  - reflexivity.
Defined.

(** ** GeoDedupMerger *)

Lemma findDuplicate_Some (iouThreshold : Q) (g2 : GeoDetection)
    (geoDetections1 : list GeoDetection) (j0 j : nat) (g1 : GeoDetection) :
  findDuplicate iouThreshold g2 geoDetections1 j0 = Some (j, g1) ->
  (j0 <= j)%nat
  /\ geoDetections1 !! (j - j0)%nat = Some g1
  /\ classId (detection g2) = classId (detection g1)
  /\ iouThreshold < computePolygonIoU (geoCorners g2) (geoCorners g1)
  /\ forall (k : nat) (g : GeoDetection),
       (k < j - j0)%nat -> geoDetections1 !! k = Some g ->
       classId (detection g2) <> classId (detection g)
       \/ computePolygonIoU (geoCorners g2) (geoCorners g) <= iouThreshold.
Proof.
  revert j0. induction geoDetections1 as [|g rest IH]; intros j0; simpl.
  { discriminate. }
  assert (Hrec :
    (classId (detection g2) <> classId (detection g)
     \/ computePolygonIoU (geoCorners g2) (geoCorners g) <= iouThreshold) ->
    findDuplicate iouThreshold g2 rest (S j0) = Some (j, g1) ->
    (j0 <= j)%nat
    /\ (g :: rest) !! (j - j0)%nat = Some g1
    /\ classId (detection g2) = classId (detection g1)
    /\ iouThreshold < computePolygonIoU (geoCorners g2) (geoCorners g1)
    /\ forall (k : nat) (g' : GeoDetection),
         (k < j - j0)%nat -> (g :: rest) !! k = Some g' ->
         classId (detection g2) <> classId (detection g')
         \/ computePolygonIoU (geoCorners g2) (geoCorners g')
            <= iouThreshold).
  { intros Hg Hf. destruct (IH _ Hf) as (Hle & Hl & Hc & Hi & Hfirst).
    replace (j - j0)%nat with (S (j - S j0)) by lia.
    repeat split; [lia|done..|].
    intros [|k] g' Hk Hg'; simpl in Hg'.
    - by injection Hg' as <-.
    - apply (Hfirst k); [lia|done]. }
  destruct (Nat.eqb_spec (classId (detection g2)) (classId (detection g)))
    as [Hc|Hc]; simpl.
  2:{ apply Hrec. by left. }
  destruct (gtb (computePolygonIoU (geoCorners g2) (geoCorners g))
                iouThreshold) eqn:Hg.
  - intros [= <- <-]. apply gtb_true in Hg.
    rewrite Nat.sub_diag. repeat split; [lia|done..|]. intros k g' Hk. lia.
  - apply Hrec. right. by apply gtb_false.
Qed.

Lemma mergeStep_elem_of (iouThreshold : Q)
    (geoDetections1 : list GeoDetection) (merged : list Detection)
    (g2 : GeoDetection) (d : Detection) :
  d ∈ mergeStep iouThreshold geoDetections1 merged g2 ->
  d ∈ merged \/ d = detection g2.
Proof.
  unfold mergeStep.
  destruct (findDuplicate _ _ _ _) as [[j g1]|].
  - destruct (gtb _ _); [|auto]. intros Hd.
    apply list_elem_of_lookup in Hd as [k Hk].
    apply list_lookup_insert_Some in Hk as [(_ & <- & _)|[_ Hk]]; [auto|].
    left. by apply list_elem_of_lookup_2 in Hk.
  - rewrite elem_of_app, list_elem_of_singleton. auto.
Qed.

Lemma mergeStep_foldl_elem_of (iouThreshold : Q)
    (geoDetections1 geoDetections2 : list GeoDetection)
    (merged : list Detection) (d : Detection) :
  d ∈ foldl (mergeStep iouThreshold geoDetections1) merged geoDetections2 ->
  d ∈ merged \/ d ∈ map detection geoDetections2.
Proof.
  revert merged.
  induction geoDetections2 as [|g2 rest IH]; intros merged; simpl; [auto|].
  intros Hd. rewrite elem_of_cons.
  destruct (IH _ Hd) as [Hm|?]; [|auto].
  apply mergeStep_elem_of in Hm as [?|?]; auto.
Qed.

Lemma map_detection_toGeoDetection `{MathTrig} (meta : GeoTIFFMeta)
    (detections : list Detection) :
  map detection (map (toGeoDetection meta) detections) = detections.
Proof.
  induction detections as [|d l IH]; simpl; [done|]. by rewrite IH.
Qed.

Lemma mergeGeoTIFFDetections_elem_of `{MathTrig}
    (detections1 detections2 : list Detection) (meta1 meta2 : GeoTIFFMeta)
    (iouThreshold : Q) (d : Detection) :
  d ∈ mergeGeoTIFFDetections detections1 meta1 detections2 meta2 iouThreshold
  -> d ∈ detections1 \/ d ∈ detections2.
Proof.
  unfold mergeGeoTIFFDetections. intros Hd.
  apply mergeStep_foldl_elem_of in Hd.
  by rewrite map_detection_toGeoDetection in Hd.
Qed.

Lemma mergeStep_no_first_set (iouThreshold : Q)
    (geoDetections2 : list GeoDetection) (merged : list Detection) :
  foldl (mergeStep iouThreshold []) merged geoDetections2
  = merged ++ map detection geoDetections2.
Proof.
  revert merged.
  induction geoDetections2 as [|g2 rest IH]; intros merged; simpl.
  - by rewrite app_nil_r.
  - rewrite IH. unfold mergeStep. simpl. by rewrite <- app_assoc.
Qed.

(** C8.  Two empty sets merge to the empty set, and a set merged with
    an empty one, on either side, comes back unchanged. *)
Theorem mergeGeoTIFFDetections_empty `{MathTrig}
    (D : list Detection) (meta1 meta2 : GeoTIFFMeta) (iouThreshold : Q) :
  mergeGeoTIFFDetections [] meta1 [] meta2 iouThreshold = []
  /\ mergeGeoTIFFDetections D meta1 [] meta2 iouThreshold = D
  /\ mergeGeoTIFFDetections [] meta1 D meta2 iouThreshold = D.
Proof.
  split; [reflexivity|]. split; [reflexivity|].
  unfold mergeGeoTIFFDetections. simpl.
  by rewrite mergeStep_no_first_set, map_detection_toGeoDetection.
Qed.

(** ** The arrays the two functions write *)

Lemma alloc_spec (contents : list Detection) (h : heap) :
  h !! (alloc contents h).1 = None
  /\ (alloc contents h).2 = <[ (alloc contents h).1 := contents ]> h.
Proof.
  unfold alloc. simpl. split; [|done].
  apply not_elem_of_dom, is_fresh.
Qed.

Lemma nms_outer_heap_foldl (sorted keep : loc) (s : list Detection)
    (iouThreshold : Q) (indices : list nat) :
  sorted <> keep ->
  forall (suppressed : gset nat) (k : list Detection) (h : heap),
    h !! sorted = Some s ->
    h !! keep = Some k ->
    foldl (nms_outer_body_heap sorted keep iouThreshold) (suppressed, h)
          indices
    = ((foldl (nms_outer_body s iouThreshold) (k, suppressed) indices).2,
       <[ keep := (foldl (nms_outer_body s iouThreshold) (k, suppressed)
                         indices).1 ]> h).
Proof.
  intros Hne. induction indices as [|i rest IH];
    intros suppressed k h Hs Hk; simpl.
  { by rewrite insert_id. }
  unfold nms_outer_body_heap at 2, nms_outer_body at 2 4. simpl.
  case_bool_decide; [by apply IH|].
  rewrite Hs. destruct (s !! i) as [di|]; [|by apply IH].
  rewrite (IH _ (k ++ [di])).
  - by rewrite insert_alter_eq.
  - by rewrite lookup_alter_ne.
  - by rewrite lookup_alter_eq, Hk.
Qed.

Lemma nmsOBB_heap_spec (h : heap) (detections : loc)
    (ds : list Detection) (iouThreshold : Q) :
  h !! detections = Some ds ->
  exists (keep : loc) (h' : heap),
    nmsOBB_heap detections iouThreshold h = Some (keep, h')
    /\ h !! keep = None
    /\ h' !! keep = Some (nmsOBB ds iouThreshold)
    /\ forall (l : loc) (v : list Detection),
         h !! l = Some v -> h' !! l = Some v.
Proof.
  intros Hds. unfold nmsOBB_heap, nmsOBB. rewrite Hds. simpl.
  destruct (length ds =? 0)%nat.
  { destruct (alloc_spec [] h) as [Hfresh Hh].
    exists (alloc [] h).1, (alloc [] h).2.
    split; [by destruct (alloc [] h)|]. rewrite Hh.
    split; [done|]. split; [by rewrite lookup_insert_eq|].
    intros l v Hl. rewrite lookup_insert_ne; [done|congruence]. }
  set (sorted := fresh (dom h)).
  assert (Hsorted : h !! sorted = None) by apply not_elem_of_dom, is_fresh.
  rewrite alter_insert_eq.
  set (h2 := <[ sorted := Array_sort byConfidenceDesc ds ]> h).
  set (keep := fresh (dom h2)).
  assert (Hkeep : h2 !! keep = None) by apply not_elem_of_dom, is_fresh.
  assert (Hne : sorted <> keep).
  { intros Heq. rewrite <- Heq in Hkeep. unfold h2 in Hkeep.
    by rewrite lookup_insert_eq in Hkeep. }
  assert (Hs3 : <[ keep := [] ]> h2 !! sorted
                = Some (Array_sort byConfidenceDesc ds)).
  { rewrite lookup_insert_ne by congruence. apply lookup_insert_eq. }
  rewrite Hs3. simpl.
  rewrite (nms_outer_heap_foldl sorted keep
             (Array_sort byConfidenceDesc ds) iouThreshold _ Hne _ [])
    by (done || apply lookup_insert_eq).
  eexists _, _. split; [reflexivity|]. simpl.
  assert (Hk : h !! keep = None).
  { unfold h2 in Hkeep. by rewrite lookup_insert_ne in Hkeep. }
  split; [done|]. split.
  - rewrite lookup_insert_eq. reflexivity.
  - intros l v Hl. rewrite !lookup_insert_ne by congruence.
    unfold h2. rewrite lookup_insert_ne by congruence. done.
Qed.

Lemma merge_heap_foldl (iouThreshold : Q)
    (geoDetections1 geoDetections2 : list GeoDetection) (merged : loc) :
  forall (m : list Detection) (h : heap),
    h !! merged = Some m ->
    foldl (fun h' g2 =>
             alter (fun m' => mergeStep iouThreshold geoDetections1 m' g2)
                   merged h')
          h geoDetections2
    = <[ merged := foldl (mergeStep iouThreshold geoDetections1) m
                         geoDetections2 ]> h.
Proof.
  induction geoDetections2 as [|g2 rest IH]; intros m h Hm; simpl.
  - by rewrite insert_id.
  - rewrite (IH (mergeStep iouThreshold geoDetections1 m g2)).
    + by rewrite insert_alter_eq.
    + by rewrite lookup_alter_eq, Hm.
Qed.

Lemma mergeGeoTIFFDetections_heap_spec `{MathTrig} (h : heap)
    (detections1 detections2 : loc) (ds1 ds2 : list Detection)
    (meta1 meta2 : GeoTIFFMeta) (iouThreshold : Q) :
  h !! detections1 = Some ds1 ->
  h !! detections2 = Some ds2 ->
  exists (merged : loc) (h' : heap),
    mergeGeoTIFFDetections_heap detections1 meta1 detections2 meta2
      iouThreshold h = Some (merged, h')
    /\ h !! merged = None
    /\ h' !! merged
       = Some (mergeGeoTIFFDetections ds1 meta1 ds2 meta2 iouThreshold)
    /\ forall (l : loc) (v : list Detection),
         h !! l = Some v -> h' !! l = Some v.
Proof.
  intros H1 H2. unfold mergeGeoTIFFDetections_heap. rewrite H1, H2. simpl.
  set (merged := fresh (dom h)).
  assert (Hm : h !! merged = None) by apply not_elem_of_dom, is_fresh.
  eexists _, _. split; [reflexivity|].
  rewrite (merge_heap_foldl _ _ _ merged ds1) by apply lookup_insert_eq.
  rewrite insert_insert_eq.
  split; [done|]. split; [by rewrite lookup_insert_eq|].
  intros l v Hl. rewrite lookup_insert_ne; [done|congruence].
Qed.

(** C9.  Suppression and merge hand detections on as wholes: every
    detection of either output is one of the input detections, with
    all its fields; and both functions write only arrays they have
    created, so every array that existed before the call, the inputs
    included, holds the same sequence afterwards. *)
Theorem suppression_and_merge_frame `{MathTrig} :
  (forall (detections : list Detection) (iouThreshold : Q) (d : Detection),
      d ∈ nmsOBB detections iouThreshold -> d ∈ detections)
  /\ (forall (detections1 detections2 : list Detection)
            (meta1 meta2 : GeoTIFFMeta) (iouThreshold : Q) (d : Detection),
        d ∈ mergeGeoTIFFDetections detections1 meta1 detections2 meta2
              iouThreshold ->
        d ∈ detections1 \/ d ∈ detections2)
  /\ (forall (h : heap) (detections : loc) (ds : list Detection)
            (iouThreshold : Q),
        h !! detections = Some ds ->
        exists (keep : loc) (h' : heap),
          nmsOBB_heap detections iouThreshold h = Some (keep, h')
          /\ h' !! keep = Some (nmsOBB ds iouThreshold)
          /\ forall (l : loc) (v : list Detection),
               h !! l = Some v -> h' !! l = Some v)
  /\ (forall (h : heap) (detections1 detections2 : loc)
            (ds1 ds2 : list Detection) (meta1 meta2 : GeoTIFFMeta)
            (iouThreshold : Q),
        h !! detections1 = Some ds1 ->
        h !! detections2 = Some ds2 ->
        exists (merged : loc) (h' : heap),
          mergeGeoTIFFDetections_heap detections1 meta1 detections2 meta2
            iouThreshold h = Some (merged, h')
          /\ h' !! merged
             = Some (mergeGeoTIFFDetections ds1 meta1 ds2 meta2 iouThreshold)
          /\ forall (l : loc) (v : list Detection),
               h !! l = Some v -> h' !! l = Some v).
Proof.
  split; [exact nmsOBB_subset|].
  split; [intros *; apply mergeGeoTIFFDetections_elem_of|].
  split.
  - intros h detections ds iouThreshold Hds.
    destruct (nmsOBB_heap_spec h detections ds iouThreshold Hds)
      as (keep & h' & ? & _ & ? & ?).
    by exists keep, h'.
  - intros h detections1 detections2 ds1 ds2 meta1 meta2 iouThreshold H1 H2.
    destruct (mergeGeoTIFFDetections_heap_spec h detections1 detections2
                ds1 ds2 meta1 meta2 iouThreshold H1 H2)
      as (merged & h' & ? & _ & ? & ?).
    by exists merged, h'.
Qed.

(** *** The geographic IoU respects [==] on the corners *)

Lemma getAABB_fold_proper (c c' : list XY.t) (b b' : AABB) :
  Forall2 XY.eq c c' -> AABB_eq b b' ->
  AABB_eq
    (foldl (fun b corner =>
              {| minX := Qmin (minX b) (XY.x corner);
                 minY := Qmin (minY b) (XY.y corner);
                 maxX := Qmax (maxX b) (XY.x corner);
                 maxY := Qmax (maxY b) (XY.y corner) |}) b c)
    (foldl (fun b corner =>
              {| minX := Qmin (minX b) (XY.x corner);
                 minY := Qmin (minY b) (XY.y corner);
                 maxX := Qmax (maxX b) (XY.x corner);
                 maxY := Qmax (maxY b) (XY.y corner) |}) b' c').
Proof.
  intros Hc. revert b b'.
  induction Hc as [|p p' c c' [Hx Hy] _ IH]; intros b b' Hb; simpl; [done|].
  apply IH. destruct Hb as (H1 & H2 & H3 & H4).
  unfold AABB_eq; simpl. by rewrite H1, H2, H3, H4, Hx, Hy.
Qed.

Lemma getAABB_proper (c c' : list XY.t) :
  Forall2 XY.eq c c' ->
  option_Forall2 AABB_eq (getAABB c) (getAABB c').
Proof.
  intros Hc. destruct Hc as [|p p' c c' [Hx Hy] Hc]; simpl; constructor.
  apply getAABB_fold_proper; [done|]. by unfold AABB_eq; simpl.
Qed.

Lemma computePolygonIoU_proper (c1 c1' c2 c2' : list XY.t) :
  Forall2 XY.eq c1 c1' -> Forall2 XY.eq c2 c2' ->
  computePolygonIoU c1 c2 == computePolygonIoU c1' c2'.
Proof.
  intros H1 H2. unfold computePolygonIoU.
  destruct (getAABB_proper _ _ H1) as [b1 b1' (Ha & Hb & Hc & Hd)|];
    [|reflexivity].
  destruct (getAABB_proper _ _ H2) as [b2 b2' (He & Hf & Hg & Hh)|];
    [|reflexivity].
  apply ratio_or_zero_proper;
    by rewrite Ha, Hb, Hc, Hd, He, Hf, Hg, Hh.
Qed.

Lemma geoCorners_angle_zero `{MathTrig} (meta : GeoTIFFMeta)
    (d : Detection) :
  TrigAtZero -> angle d == 0 ->
  Forall2 XY.eq
    (geoCorners (toGeoDetection meta d))
    (geoCorners (@toGeoDetection seriesTrig meta d)).
Proof.
  intros Hz Ha. destruct (Hz _ Ha) as [Hc Hs].
  destruct (seriesTrig_at_zero _ Ha) as [Hc' Hs']. simpl in Hc', Hs'.
  unfold toGeoDetection, getOBBCorners; simpl.
  repeat constructor; simpl; rewrite Hc, Hs, Hc', Hs'; reflexivity.
Qed.

Lemma geoIoU_angle_zero `{MathTrig} (meta meta' : GeoTIFFMeta)
    (d d' : Detection) :
  TrigAtZero -> angle d == 0 -> angle d' == 0 ->
  computePolygonIoU (geoCorners (toGeoDetection meta d))
                    (geoCorners (toGeoDetection meta' d'))
  == computePolygonIoU (geoCorners (@toGeoDetection seriesTrig meta d))
                       (geoCorners (@toGeoDetection seriesTrig meta' d')).
Proof.
  intros Hz Ha Ha'.
  apply computePolygonIoU_proper; by apply geoCorners_angle_zero.
Qed.

Lemma mergeStep_head (iouThreshold : Q) (g1 : GeoDetection)
    (rest : list GeoDetection) (merged : list Detection)
    (g2 : GeoDetection) :
  classId (detection g2) = classId (detection g1) ->
  iouThreshold < computePolygonIoU (geoCorners g2) (geoCorners g1) ->
  mergeStep iouThreshold (g1 :: rest) merged g2
  = if gtb (confidence (detection g2)) (confidence (detection g1))
    then <[ 0%nat := detection g2 ]> merged
    else merged.
Proof.
  intros Hc Hiou. unfold mergeStep. simpl.
  rewrite Hc, Nat.eqb_refl. simpl.
  apply gtb_true in Hiou. by rewrite Hiou.
Qed.

(** C2, on the code.  When two detections of the second set match the
    same detection of the first set, each is compared with the
    first-set detection and not with the entry as it stands: the
    second one (0.85) overwrites the first replacement (0.9), and the
    merged entry keeps the lower of the two confidences. *)
Theorem mergeGeoTIFFDetections_overwrites_higher `{MathTrig} :
  TrigAtZero ->
  mergeGeoTIFFDetections
    [makeDetection 100 100 40 20 (8 # 10)] test_meta1
    [makeDetection 50 100 40 20 (9 # 10);
     makeDetection 50 100 40 20 (85 # 100)] test_meta2 (1 # 2)
  = [makeDetection 50 100 40 20 (85 # 100)].
Proof.
  intros Hz. unfold mergeGeoTIFFDetections. cbn [map foldl].
  rewrite !mergeStep_head; try reflexivity.
  - rewrite geoIoU_angle_zero by (done || reflexivity). by vm_compute.
  - rewrite geoIoU_angle_zero by (done || reflexivity). by vm_compute.
Qed.

Lemma mergeGeoTIFFDetections_overwrites_higher_witness :
  map confidence
    (@mergeGeoTIFFDetections seriesTrig
       [makeDetection 100 100 40 20 (8 # 10)] test_meta1
       [makeDetection 50 100 40 20 (9 # 10);
        makeDetection 50 100 40 20 (85 # 100)] test_meta2 (1 # 2))
  = [85 # 100].
Proof.
  rewrite (@mergeGeoTIFFDetections_overwrites_higher seriesTrig
             seriesTrig_at_zero).
  reflexivity.
Defined.

(** ** TilePlanner *)

Lemma tileStride_div (tileSize : Z) :
  tileStride tileSize = ((3 * tileSize + 2) / 4)%Z.
Proof.
  unfold tileStride, Math_round, TILE_OVERLAP.
  rewrite (Qfloor_comp _ (inject_Z (3 * tileSize + 2) / inject_Z 4)).
  - symmetry. apply Zdiv_Qdiv.
  - rewrite !inject_Z_plus, !inject_Z_mult. field.
Qed.

Lemma Math_ceil_div (a s : Z) :
  Math_ceil (inject_Z a / inject_Z s) = (- ((- a) / s))%Z.
Proof.
  unfold Math_ceil, Qceiling. f_equal.
  rewrite Zdiv_Qdiv. apply Qfloor_comp.
  rewrite inject_Z_opp. unfold Qdiv. ring.
Qed.

Lemma tileStride_bounds (tileSize : Z) :
  (0 < tileSize)%Z ->
  (0 < tileStride tileSize <= tileSize)%Z.
Proof.
  intros Ht. rewrite tileStride_div.
  pose proof (Z.div_mod (3 * tileSize + 2) 4 ltac:(lia)).
  pose proof (Z.mod_pos_bound (3 * tileSize + 2) 4 ltac:(lia)). lia.
Qed.

Lemma tileCount_spec (tileSize dim : Z) :
  (0 < tileSize)%Z ->
  (1 <= tileCount tileSize dim)%Z
  /\ ((dim <= tileSize)%Z -> tileCount tileSize dim = 1%Z)
  /\ ((tileSize < dim)%Z ->
      (dim - tileSize <= (tileCount tileSize dim - 1) * tileStride tileSize)%Z
      /\ ((tileCount tileSize dim - 2) * tileStride tileSize
          < dim - tileSize)%Z).
Proof.
  intros Ht. destruct (tileStride_bounds tileSize Ht) as [Hs _].
  unfold tileCount. rewrite Math_ceil_div.
  set (s := tileStride tileSize) in *.
  pose proof (Z.div_mod (- (dim - tileSize)) s ltac:(lia)) as Hdm.
  pose proof (Z.mod_pos_bound (- (dim - tileSize)) s Hs) as Hr.
  set (q := (- (dim - tileSize) / s)%Z) in *.
  set (r := (- (dim - tileSize) mod s)%Z) in *.
  split; [lia|]. split.
  - intros Hd. assert (0 <= q)%Z by nia. lia.
  - intros Hd. assert (q < 0)%Z by nia. split; nia.
Qed.

Lemma tileExtent_full (tileSize dim t : Z) :
  tileExtent tileSize dim t = tileSize.
Proof. unfold tileExtent, tileOrigin. lia. Qed.

Lemma tile_axis_within (tileSize dim t : Z) :
  (0 < tileSize <= dim)%Z -> (0 <= t)%Z ->
  (0 <= tileOrigin tileSize dim t)%Z
  /\ (tileOrigin tileSize dim t + tileExtent tileSize dim t <= dim)%Z.
Proof.
  intros Hd Ht. rewrite tileExtent_full.
  destruct (tileStride_bounds tileSize ltac:(lia)) as [Hs _].
  unfold tileOrigin. split; [|lia].
  apply Z.min_glb; [nia|lia].
Qed.

Lemma tile_axis_cover (tileSize dim p : Z) :
  (0 < tileSize)%Z -> (0 <= p < dim)%Z ->
  exists t : Z,
    (0 <= t < tileCount tileSize dim)%Z
    /\ (tileOrigin tileSize dim t <= p
        < tileOrigin tileSize dim t + tileExtent tileSize dim t)%Z.
Proof.
  intros Ht Hp.
  destruct (tileStride_bounds tileSize Ht) as [Hs Hst].
  destruct (tileCount_spec tileSize dim Ht) as (Hn & Hsmall & Hlarge).
  destruct (Z_le_gt_dec dim tileSize) as [Hd|Hd].
  - exists 0%Z. rewrite tileExtent_full, (Hsmall Hd).
    unfold tileOrigin. lia.
  - destruct (Hlarge ltac:(lia)) as [Hup Hlow].
    pose proof (Z.div_mod p (tileStride tileSize) ltac:(lia)) as Hdm.
    pose proof (Z.mod_pos_bound p (tileStride tileSize) Hs) as Hr.
    set (s := tileStride tileSize) in *.
    set (n := tileCount tileSize dim) in *.
    set (q := (p / s)%Z) in *. set (r := (p mod s)%Z) in *.
    assert (Hq : (0 <= q)%Z) by nia.
    exists (Z.min q (n - 1)). rewrite tileExtent_full.
    unfold tileOrigin. fold s.
    destruct (Z_lt_ge_dec q (n - 1)) as [Hlt|Hge].
    + rewrite (Z.min_l q) by lia. split; [lia|].
      assert ((q * s <= (n - 2) * s)%Z) by nia.
      rewrite Z.min_l by lia. lia.
    + rewrite (Z.min_r q) by lia. split; [lia|].
      assert (((n - 1) * s <= q * s)%Z) by nia.
      rewrite Z.min_r by lia. lia.
Qed.

Lemma elem_of_planTiles_grid (tileSize imgWidth imgHeight : Z) (tile : Tile) :
  (imgWidth <=? SLICE_THRESHOLD)%Z && (imgHeight <=? SLICE_THRESHOLD)%Z
  = false ->
  tile ∈ planTiles tileSize imgWidth imgHeight
  <-> exists tx ty : Z,
        (0 <= tx < tileCount tileSize imgWidth)%Z
        /\ (0 <= ty < tileCount tileSize imgHeight)%Z
        /\ tile = mkTile (tileOrigin tileSize imgWidth tx)
                         (tileOrigin tileSize imgHeight ty)
                         (tileExtent tileSize imgWidth tx)
                         (tileExtent tileSize imgHeight ty).
Proof.
  intros Hbig. unfold planTiles. rewrite Hbig.
  rewrite list_elem_of_bind. split.
  - intros (ty & Htile & Hty). apply list_elem_of_bind in Htile.
    destruct Htile as (tx & Htile & Htx).
    apply list_elem_of_singleton in Htile.
    apply elem_of_seqZ in Htx, Hty. exists tx, ty. split; [lia|].
    split; [lia|done].
  - intros (tx & ty & Htx & Hty & ->). exists ty. split.
    + apply list_elem_of_bind. exists tx. split.
      * by apply list_elem_of_singleton.
      * apply elem_of_seqZ. lia.
    + apply elem_of_seqZ. lia.
Qed.

(** The tile plan of an oversized image that is at least one tile
    wide and high: every tile lies within the image, and every pixel
    lies in some tile. *)
Theorem planTiles_covers (tileSize imgWidth imgHeight : Z) :
  (0 < tileSize)%Z ->
  (tileSize <= imgWidth)%Z -> (tileSize <= imgHeight)%Z ->
  (SLICE_THRESHOLD < imgWidth)%Z \/ (SLICE_THRESHOLD < imgHeight)%Z ->
  (forall tile : Tile,
      tile ∈ planTiles tileSize imgWidth imgHeight ->
      (0 <= sx tile)%Z /\ (sx tile + sw tile <= imgWidth)%Z
      /\ (0 <= sy tile)%Z /\ (sy tile + sh tile <= imgHeight)%Z)
  /\ (forall px py : Z,
        (0 <= px < imgWidth)%Z -> (0 <= py < imgHeight)%Z ->
        exists tile : Tile,
          tile ∈ planTiles tileSize imgWidth imgHeight
          /\ (sx tile <= px < sx tile + sw tile)%Z
          /\ (sy tile <= py < sy tile + sh tile)%Z).
Proof.
  intros Ht Hw Hh Hbig.
  assert (Hgrid : (imgWidth <=? SLICE_THRESHOLD)%Z
                  && (imgHeight <=? SLICE_THRESHOLD)%Z = false).
  { apply andb_false_iff. rewrite !Z.leb_gt. tauto. }
  split.
  - intros tile Htile.
    apply (elem_of_planTiles_grid _ _ _ _ Hgrid) in Htile
      as (tx & ty & Htx & Hty & ->). simpl.
    destruct (tile_axis_within tileSize imgWidth tx) as [? ?]; [lia..|].
    destruct (tile_axis_within tileSize imgHeight ty) as [? ?]; [lia..|].
    auto.
  - intros px py Hpx Hpy.
    destruct (tile_axis_cover tileSize imgWidth px Ht Hpx) as (tx & Htx & ?).
    destruct (tile_axis_cover tileSize imgHeight py Ht Hpy) as (ty & Hty & ?).
    eexists. split.
    + apply (elem_of_planTiles_grid _ _ _ _ Hgrid). by exists tx, ty.
    + simpl. auto.
Qed.

Lemma planTiles_covers_witness :
  exists tile : Tile,
    tile ∈ planTiles MODEL_INPUT_SIZE 2000 1500
    /\ (sx tile <= 1999 < sx tile + sw tile)%Z
    /\ (sy tile <= 0 < sy tile + sh tile)%Z.
Proof.
  destruct (planTiles_covers MODEL_INPUT_SIZE 2000 1500) as [_ Hcover].
  - reflexivity.
  - by vm_compute.
  - by vm_compute.
  - left. reflexivity.
  - apply (Hcover 1999 0)%Z; by vm_compute.
Defined.

(** C1, on the code.  For an image of 2000 by 100 pixels, wider than
    the slice threshold and lower than one tile, every planned tile
    starts above the image, at row [100 - 1024]; the same happens
    with the tile size 512. *)
Theorem planTiles_low_image :
  planTiles MODEL_INPUT_SIZE 2000 100
  = [mkTile 0 (-924) 1024 1024;
     mkTile 768 (-924) 1024 1024;
     mkTile 976 (-924) 1024 1024]
  /\ map sy (planTiles 512 2000 100)
     = [(-412)%Z; (-412)%Z; (-412)%Z; (-412)%Z; (-412)%Z].
Proof. split; by vm_compute. Qed.

(** ** GeoDedupMerger: one detection of the second set *)

Lemma findDuplicate_first (iouThreshold : Q) (g2 g1 : GeoDetection)
    (geoDetections1 : list GeoDetection) (j0 j : nat) :
  geoDetections1 !! j = Some g1 ->
  classId (detection g2) = classId (detection g1) ->
  iouThreshold < computePolygonIoU (geoCorners g2) (geoCorners g1) ->
  (forall (k : nat) (g : GeoDetection),
      (k < j)%nat -> geoDetections1 !! k = Some g ->
      classId (detection g2) <> classId (detection g)
      \/ computePolygonIoU (geoCorners g2) (geoCorners g) <= iouThreshold) ->
  findDuplicate iouThreshold g2 geoDetections1 j0 = Some ((j0 + j)%nat, g1).
Proof.
  revert j0 j.
  induction geoDetections1 as [|g rest IH]; intros j0 j Hj Hc Hiou Hfirst.
  { by rewrite lookup_nil in Hj. }
  destruct j as [|j]; simpl in *.
  - injection Hj as ->. rewrite Hc, Nat.eqb_refl. simpl.
    apply gtb_true in Hiou. rewrite Hiou. by rewrite Nat.add_0_r.
  - replace (j0 + S j)%nat with (S j0 + j)%nat by lia.
    assert (Hrec : findDuplicate iouThreshold g2 rest (S j0)
                   = Some ((S j0 + j)%nat, g1)).
    { apply IH; [done..|]. intros k g' Hk Hg'.
      apply (Hfirst (S k)); [lia|done]. }
    destruct (Hfirst 0%nat g ltac:(lia) eq_refl) as [Hne|Hle].
    + destruct (Nat.eqb_spec (classId (detection g2))
                             (classId (detection g))); [done|].
      exact Hrec.
    + apply gtb_false in Hle. rewrite Hle.
      by destruct (negb _).
Qed.

(** With a single detection [d2] in the second set that matches the
    first set first at index [j]: the merged set has the length of the
    first set; [d2] takes the place of entry [j] exactly when its
    confidence is strictly greater, and otherwise, also on equal
    confidence, the first set comes back unchanged. *)
Theorem mergeGeoTIFFDetections_one_duplicate `{MathTrig}
    (detections1 : list Detection) (meta1 meta2 : GeoTIFFMeta)
    (d2 d1 : Detection) (iouThreshold : Q) (j : nat) :
  detections1 !! j = Some d1 ->
  classId d2 = classId d1 ->
  iouThreshold
  < computePolygonIoU (geoCorners (toGeoDetection meta2 d2))
                      (geoCorners (toGeoDetection meta1 d1)) ->
  (forall (k : nat) (d : Detection),
      (k < j)%nat -> detections1 !! k = Some d ->
      classId d2 <> classId d
      \/ computePolygonIoU (geoCorners (toGeoDetection meta2 d2))
                           (geoCorners (toGeoDetection meta1 d))
         <= iouThreshold) ->
  mergeGeoTIFFDetections detections1 meta1 [d2] meta2 iouThreshold
  = (if gtb (confidence d2) (confidence d1)
     then <[ j := d2 ]> detections1
     else detections1)
  /\ length (mergeGeoTIFFDetections detections1 meta1 [d2] meta2
               iouThreshold)
     = length detections1.
Proof.
  intros Hj Hc Hiou Hfirst.
  assert (Hm : mergeGeoTIFFDetections detections1 meta1 [d2] meta2
                 iouThreshold
               = if gtb (confidence d2) (confidence d1)
                 then <[ j := d2 ]> detections1 else detections1).
  { unfold mergeGeoTIFFDetections. cbn [map foldl]. unfold mergeStep.
    rewrite (findDuplicate_first iouThreshold (toGeoDetection meta2 d2)
               (toGeoDetection meta1 d1) _ 0 j).
    - reflexivity.
    - by rewrite list_lookup_fmap, Hj.
    - exact Hc.
    - exact Hiou.
    - intros k g Hk Hg. rewrite list_lookup_fmap in Hg.
      destruct (detections1 !! k) as [d|] eqn:Hd; [|done].
      injection Hg as <-. by apply (Hfirst k). }
  split; [exact Hm|]. rewrite Hm.
  destruct (gtb _ _); [apply length_insert|done].
Qed.

Lemma mergeGeoTIFFDetections_one_duplicate_witness :
  @mergeGeoTIFFDetections seriesTrig
    [makeDetection 100 100 40 20 (8 # 10)] test_meta1
    [makeDetection 50 100 40 20 (95 # 100)] test_meta2 (1 # 2)
  = [makeDetection 50 100 40 20 (95 # 100)]
  /\ @mergeGeoTIFFDetections seriesTrig
       [makeDetection 100 100 40 20 (9 # 10)] test_meta1
       [makeDetection 50 100 40 20 (9 # 10)] test_meta2 (1 # 2)
     = [makeDetection 100 100 40 20 (9 # 10)].
Proof.
  split.
  - refine (proj1 (@mergeGeoTIFFDetections_one_duplicate seriesTrig
             [makeDetection 100 100 40 20 (8 # 10)] test_meta1 test_meta2
             (makeDetection 50 100 40 20 (95 # 100))
             (makeDetection 100 100 40 20 (8 # 10)) (1 # 2) 0
             eq_refl eq_refl _ _)).
    + by vm_compute.
    + intros k d Hk. lia.
  - refine (proj1 (@mergeGeoTIFFDetections_one_duplicate seriesTrig
             [makeDetection 100 100 40 20 (9 # 10)] test_meta1 test_meta2
             (makeDetection 50 100 40 20 (9 # 10))
             (makeDetection 100 100 40 20 (9 # 10)) (1 # 2) 0
             eq_refl eq_refl _ _)).
    + by vm_compute.
    + intros k d Hk. lia.
Defined.

(** ** GeometryKit: the range of the IoU *)

Lemma ratio_or_zero_range (u i : Q) :
  0 <= i -> i <= u ->
  0 <= (if gtb u 0 then i / u else 0)
  /\ (if gtb u 0 then i / u else 0) <= 1.
Proof.
  intros Hi Hu. destruct (gtb u 0) eqn:Hg; [|split; lra].
  apply gtb_true in Hg. split.
  - apply Qle_shift_div_l; [done|]. lra.
  - apply Qle_shift_div_r; [done|]. lra.
Qed.

(** The overlap of the intervals from [a1] to [a2] and from [b1] to
    [b2], as the code computes it. *)
Lemma overlap_bounds (a1 a2 b1 b2 : Q) :
  0 <= Qmax 0 (Qmin a2 b2 - Qmax a1 b1)
  /\ Qmax 0 (Qmin a2 b2 - Qmax a1 b1) <= Qmax 0 (a2 - a1)
  /\ Qmax 0 (Qmin a2 b2 - Qmax a1 b1) <= Qmax 0 (b2 - b1).
Proof.
  pose proof (Q.le_max_l 0 (Qmin a2 b2 - Qmax a1 b1)).
  pose proof (Q.le_min_l a2 b2). pose proof (Q.le_min_r a2 b2).
  pose proof (Q.le_max_l a1 b1). pose proof (Q.le_max_r a1 b1).
  pose proof (Q.le_max_l 0 (a2 - a1)). pose proof (Q.le_max_r 0 (a2 - a1)).
  pose proof (Q.le_max_l 0 (b2 - b1)). pose proof (Q.le_max_r 0 (b2 - b1)).
  split; [done|]. split; apply Q.max_lub; lra.
Qed.

Lemma overlap_area_le (ox oy wx wy : Q) :
  0 <= ox -> 0 <= oy -> ox <= Qmax 0 wx -> oy <= Qmax 0 wy ->
  0 <= wx * wy ->
  (wx < 0 -> wy < 0) -> (wy < 0 -> wx < 0) ->
  ox * oy <= wx * wy.
Proof.
  intros Hox Hoy Hx Hy Hw Hxy Hyx.
  destruct (Qlt_le_dec wx 0) as [Hn|Hp].
  - rewrite Q.max_l in Hx by lra. rewrite Q.max_l in Hy by (specialize (Hxy Hn); lra).
    assert (ox == 0) as -> by lra. lra.
  - destruct (Qlt_le_dec wy 0) as [Hn'|Hp']; [specialize (Hyx Hn'); lra|].
    rewrite Q.max_r in Hx by lra. rewrite Q.max_r in Hy by lra. nra.
Qed.

Lemma iou_core_range (ax1 ax2 ay1 ay2 bx1 bx2 by1 by2 : Q) :
  0 <= (ax2 - ax1) * (ay2 - ay1) ->
  (ax2 - ax1 < 0 -> ay2 - ay1 < 0) -> (ay2 - ay1 < 0 -> ax2 - ax1 < 0) ->
  0 <= (bx2 - bx1) * (by2 - by1) ->
  (bx2 - bx1 < 0 -> by2 - by1 < 0) -> (by2 - by1 < 0 -> bx2 - bx1 < 0) ->
  let intersection :=
    Qmax 0 (Qmin ax2 bx2 - Qmax ax1 bx1)
    * Qmax 0 (Qmin ay2 by2 - Qmax ay1 by1) in
  let union :=
    (ax2 - ax1) * (ay2 - ay1) + (bx2 - bx1) * (by2 - by1) - intersection in
  0 <= (if gtb union 0 then intersection / union else 0)
  /\ (if gtb union 0 then intersection / union else 0) <= 1.
Proof.
  intros Ha Ha1 Ha2 Hb Hb1 Hb2 intersection union.
  destruct (overlap_bounds ax1 ax2 bx1 bx2) as (Hx0 & Hxa & Hxb).
  destruct (overlap_bounds ay1 ay2 by1 by2) as (Hy0 & Hya & Hyb).
  assert (Hia : intersection <= (ax2 - ax1) * (ay2 - ay1))
    by (by apply overlap_area_le).
  assert (Hib : intersection <= (bx2 - bx1) * (by2 - by1))
    by (by apply overlap_area_le).
  assert (Hi0 : 0 <= intersection) by (by apply Qmult_le_0_compat).
  apply ratio_or_zero_range; [done|]. unfold union. lra.
Qed.

Lemma computeAABBIoU_bounds (a b : Detection) :
  0 <= computeAABBIoU a b /\ computeAABBIoU a b <= 1.
Proof.
  unfold computeAABBIoU.
  set (ha := Qmax (width a) (height a) / 2).
  set (hb := Qmax (width b) (height b) / 2).
  apply iou_core_range; try lra.
  - assert (Heq : (cx a + ha - (cx a - ha)) * (cy a + ha - (cy a - ha))
                  == (2 * ha) * (2 * ha)) by ring.
    rewrite Heq. nra.
  - assert (Heq : (cx b + hb - (cx b - hb)) * (cy b + hb - (cy b - hb))
                  == (2 * hb) * (2 * hb)) by ring.
    rewrite Heq. nra.
Qed.

Lemma getAABB_fold_ordered (rest : list XY.t) (b : AABB) :
  minX b <= maxX b -> minY b <= maxY b ->
  let b' :=
    foldl (fun b corner =>
             {| minX := Qmin (minX b) (XY.x corner);
                minY := Qmin (minY b) (XY.y corner);
                maxX := Qmax (maxX b) (XY.x corner);
                maxY := Qmax (maxY b) (XY.y corner) |}) b rest in
  minX b' <= maxX b' /\ minY b' <= maxY b'.
Proof.
  revert b. induction rest as [|c rest IH]; intros b Hx Hy; simpl; [done|].
  apply IH; simpl.
  - pose proof (Q.le_min_l (minX b) (XY.x c)).
    pose proof (Q.le_max_l (maxX b) (XY.x c)). lra.
  - pose proof (Q.le_min_l (minY b) (XY.y c)).
    pose proof (Q.le_max_l (maxY b) (XY.y c)). lra.
Qed.

Lemma getAABB_ordered (corners : list XY.t) (box : AABB) :
  getAABB corners = Some box ->
  minX box <= maxX box /\ minY box <= maxY box.
Proof.
  destruct corners as [|c rest]; simpl; [done|].
  intros [= <-]. apply getAABB_fold_ordered; simpl; lra.
Qed.

Lemma computePolygonIoU_bounds (corners1 corners2 : list XY.t) :
  0 <= computePolygonIoU corners1 corners2
  /\ computePolygonIoU corners1 corners2 <= 1.
Proof.
  unfold computePolygonIoU.
  destruct (getAABB corners1) as [box1|] eqn:H1; [|split; lra].
  destruct (getAABB corners2) as [box2|] eqn:H2; [|split; lra].
  destruct (getAABB_ordered _ _ H1) as [? ?].
  destruct (getAABB_ordered _ _ H2) as [? ?].
  apply iou_core_range; try lra; nra.
Qed.

Lemma computeAABBIoU_self_eq (a : Detection) :
  let s := 2 * (Qmax (width a) (height a) / 2) in
  computeAABBIoU a a
  == (if gtb (s * s + s * s - Qmax 0 s * Qmax 0 s) 0
      then Qmax 0 s * Qmax 0 s / (s * s + s * s - Qmax 0 s * Qmax 0 s)
      else 0).
Proof.
  intros s. unfold computeAABBIoU.
  set (h := Qmax (width a) (height a) / 2) in *.
  assert (Hw : cx a + h - (cx a - h) == s) by (unfold s; ring).
  assert (Hh : cy a + h - (cy a - h) == s) by (unfold s; ring).
  assert (Hi : Qmax 0 (Qmin (cx a + h) (cx a + h) - Qmax (cx a - h) (cx a - h))
               * Qmax 0 (Qmin (cy a + h) (cy a + h)
                         - Qmax (cy a - h) (cy a - h))
               == Qmax 0 s * Qmax 0 s).
  { by rewrite !Q.max_id, !Q.min_id, Hw, Hh. }
  apply ratio_or_zero_proper; [|exact Hi]. by rewrite Hi, Hw, Hh.
Qed.

Lemma computeAABBIoU_self_empty (a : Detection) :
  Qmax (width a) (height a) <= 0 -> computeAABBIoU a a == 0.
Proof.
  rewrite computeAABBIoU_self_eq.
  set (s := 2 * (Qmax (width a) (height a) / 2)).
  assert (Hs : s == Qmax (width a) (height a)) by (unfold s; field).
  intros Hm.
  assert (Hneg : s <= 0) by lra.
  assert (Hmax : Qmax 0 s == 0) by (apply Q.max_l; lra).
  rewrite (ratio_or_zero_proper _ (s * s + s * s) _ 0)
    by (rewrite Hmax; ring).
  destruct (gtb _ 0); [|reflexivity]. unfold Qdiv. ring.
Qed.

(** The approximate IoU of [nmsOBB] is symmetric and lies between 0
    and 1 for all boxes, also with zero or negative sizes; a box
    whose larger side is zero or negative has IoU 0 with itself. *)
Theorem computeAABBIoU_range (a b : Detection) :
  0 <= computeAABBIoU a b /\ computeAABBIoU a b <= 1
  /\ computeAABBIoU a b == computeAABBIoU b a
  /\ (Qmax (width a) (height a) <= 0 -> computeAABBIoU a a == 0).
Proof.
  destruct (computeAABBIoU_bounds a b) as [H0 H1].
  repeat split; auto.
  - apply computeAABBIoU_sym.
  - apply computeAABBIoU_self_empty.
Qed.

(** The geographic IoU of the merge lies between 0 and 1 for all
    corner lists, and is 0 when one of them is empty. *)
Theorem computePolygonIoU_range (corners1 corners2 : list XY.t) :
  0 <= computePolygonIoU corners1 corners2
  /\ computePolygonIoU corners1 corners2 <= 1
  /\ computePolygonIoU [] corners2 = 0
  /\ computePolygonIoU corners1 [] = 0.
Proof.
  destruct (computePolygonIoU_bounds corners1 corners2) as [H0 H1].
  repeat split; auto.
  unfold computePolygonIoU. by destruct (getAABB corners1).
Qed.

(** ** OBBSuppressor: order, size and fixed points *)

Lemma nms_inner_no_suppression (sorted : list Detection) (iouThreshold : Q)
    (i : nat) (js : list nat) (suppressed : gset nat) :
  (forall j : nat, j ∈ js -> ~ suppresses sorted iouThreshold i j) ->
  foldl (nms_inner_body sorted iouThreshold i) suppressed js = suppressed.
Proof.
  intros Hno. apply set_eq. intros k.
  rewrite nms_inner_spec. split; [|auto].
  intros [?|[Hk Hs]]; [done|]. by destruct (Hno k Hk).
Qed.

Lemma nms_outer_no_suppression (sorted : list Detection) (iouThreshold : Q)
    (n i : nat) (keep : list Detection) :
  (forall i j : nat, (i < j)%nat -> ~ suppresses sorted iouThreshold i j) ->
  foldl (nms_outer_body sorted iouThreshold) (keep, ∅) (seq i n)
  = (keep ++ take n (drop i sorted), ∅).
Proof.
  intros Hno. revert i keep. induction n as [|n IH]; intros i keep; simpl.
  { by rewrite app_nil_r. }
  unfold nms_outer_body at 2. simpl.
  rewrite bool_decide_eq_false_2 by set_solver.
  destruct (sorted !! i) as [di|] eqn:Hi.
  - rewrite nms_inner_no_suppression.
    2:{ intros j Hj. apply elem_of_seq in Hj. apply Hno. lia. }
    rewrite IH, (drop_S _ _ _ Hi). simpl. by rewrite <- app_assoc.
  - rewrite IH. apply lookup_ge_None in Hi.
    by rewrite !drop_ge, !take_nil by lia.
Qed.

Lemma nms_loop_no_suppression (sorted : list Detection) (iouThreshold : Q) :
  (forall i j : nat, (i < j)%nat -> ~ suppresses sorted iouThreshold i j) ->
  nms_loop sorted iouThreshold = (sorted, ∅).
Proof.
  intros Hno. unfold nms_loop.
  rewrite nms_outer_no_suppression by done.
  by rewrite drop_0, firstn_all.
Qed.

Lemma nms_outer_sublist (sorted : list Detection) (iouThreshold : Q)
    (n i : nat) (st : list Detection * gset nat) :
  exists kept : list Detection,
    (foldl (nms_outer_body sorted iouThreshold) st (seq i n)).1
    = st.1 ++ kept
    /\ kept `sublist_of` take n (drop i sorted).
Proof.
  revert i st. induction n as [|n IH]; intros i st; simpl.
  { exists []. by rewrite app_nil_r. }
  unfold nms_outer_body at 2.
  destruct (sorted !! i) as [di|] eqn:Hi.
  - rewrite (drop_S _ _ _ Hi). simpl. case_bool_decide.
    + destruct (IH (S i) st) as (kept & -> & Hsub).
      exists kept. split; [done|]. by apply sublist_cons.
    + destruct (IH (S i) (st.1 ++ [di],
                   foldl (nms_inner_body sorted iouThreshold i) st.2
                     (seq (S i) (length sorted - S i))))
        as (kept & -> & Hsub).
      exists (di :: kept). simpl. split; [by rewrite <- app_assoc|].
      by apply sublist_skip.
  - assert (Hst : (if bool_decide (i ∈ st.2) then st else st) = st)
      by (by destruct (bool_decide _)).
    rewrite Hst. destruct (IH (S i) st) as (kept & -> & Hsub).
    exists kept. split; [done|]. apply lookup_ge_None in Hi.
    rewrite drop_ge in * by lia. by rewrite take_nil in *.
Qed.

Lemma nms_loop_sublist (sorted : list Detection) (iouThreshold : Q) :
  (nms_loop sorted iouThreshold).1 `sublist_of` sorted.
Proof.
  unfold nms_loop.
  destruct (nms_outer_sublist sorted iouThreshold (length sorted) 0 ([], ∅))
    as (kept & -> & Hsub).
  by rewrite drop_0, firstn_all in Hsub.
Qed.

(** Non-increasing confidence, as a relation between an element and a
    later one. *)
Lemma sort_insert_sorted (a : Detection) (l : list Detection) :
  StronglySorted (fun x y => confidence y <= confidence x) l ->
  StronglySorted (fun x y => confidence y <= confidence x)
                 (sort_insert byConfidenceDesc a l).
Proof.
  induction 1 as [|b l Hl IH Hb]; simpl.
  { repeat constructor. }
  unfold byConfidenceDesc at 1.
  destruct (gtb (confidence b - confidence a) 0) eqn:Hg.
  - apply gtb_true in Hg. constructor; [done|].
    rewrite sort_insert_perm. constructor; [lra|done].
  - apply gtb_false in Hg. constructor; [by constructor|].
    constructor; [lra|]. eapply Forall_impl; [exact Hb|].
    intros c Hc. simpl in Hc. lra.
Qed.

Lemma Array_sort_sorted (l : list Detection) :
  StronglySorted (fun x y => confidence y <= confidence x)
                 (Array_sort byConfidenceDesc l).
Proof.
  induction l as [|a l IH]; simpl; [constructor|].
  by apply sort_insert_sorted.
Qed.

Lemma Array_sort_fixed (l : list Detection) :
  StronglySorted (fun x y => confidence y <= confidence x) l ->
  Array_sort byConfidenceDesc l = l.
Proof.
  induction 1 as [|a l Hl IH Ha]; [done|].
  change (Array_sort byConfidenceDesc (a :: l))
    with (sort_insert byConfidenceDesc a (Array_sort byConfidenceDesc l)).
  rewrite IH. destruct l as [|b l]; [done|]. simpl.
  apply Forall_cons in Ha as [Hb _]. unfold byConfidenceDesc.
  assert (Hg : gtb (confidence b - confidence a) 0 = false)
    by (apply gtb_false; lra).
  by rewrite Hg.
Qed.

Lemma StronglySorted_sublist {A} (R : A -> A -> Prop) (l1 l2 : list A) :
  l1 `sublist_of` l2 -> StronglySorted R l2 -> StronglySorted R l1.
Proof.
  induction 1 as [|x l1 l2 Hsub IH|x l1 l2 Hsub IH]; intros Hs.
  - constructor.
  - apply StronglySorted_inv in Hs as [Hs Hx]. constructor; [auto|].
    apply Forall_forall. intros y Hy.
    eapply (proj1 (Forall_forall _ _) Hx), elem_of_sublist; eauto.
  - apply StronglySorted_inv in Hs as [Hs _]. auto.
Qed.

Lemma nmsOBB_sublist (detections : list Detection) (iouThreshold : Q) :
  nmsOBB detections iouThreshold
  `sublist_of` Array_sort byConfidenceDesc detections.
Proof.
  unfold nmsOBB. destruct (length detections =? 0)%nat.
  - apply sublist_nil_l.
  - apply nms_loop_sublist.
Qed.

Lemma nmsOBB_sorted (detections : list Detection) (iouThreshold : Q) :
  StronglySorted (fun x y => confidence y <= confidence x)
                 (nmsOBB detections iouThreshold).
Proof.
  eapply StronglySorted_sublist;
    [apply nmsOBB_sublist|apply Array_sort_sorted].
Qed.

(** The output of [nmsOBB] is a subsequence of the input sorted by
    confidence: it is ordered by non-increasing confidence, and it is
    no longer than the input. *)
Theorem nmsOBB_ordered (detections : list Detection) (iouThreshold : Q) :
  nmsOBB detections iouThreshold
  `sublist_of` Array_sort byConfidenceDesc detections
  /\ (forall (p q : nat) (a b : Detection),
        (p < q)%nat ->
        nmsOBB detections iouThreshold !! p = Some a ->
        nmsOBB detections iouThreshold !! q = Some b ->
        confidence b <= confidence a)
  /\ (length (nmsOBB detections iouThreshold) <= length detections)%nat.
Proof.
  split; [apply nmsOBB_sublist|]. split.
  - intros p q a b Hpq Hp Hq.
    pose proof (nmsOBB_sorted detections iouThreshold) as Hs.
    revert p q Hpq Hp Hq.
    induction Hs as [|x l Hl IH Hx]; intros p q Hpq Hp Hq.
    { by rewrite lookup_nil in Hp. }
    destruct q as [|q]; [lia|]. simpl in Hq.
    destruct p as [|p]; simpl in Hp.
    + injection Hp as <-.
      apply (proj1 (Forall_forall _ _) Hx).
      by apply list_elem_of_lookup_2 in Hq.
    + apply (IH p q); [lia|done..].
  - rewrite <- (Permutation_length (Array_sort_perm byConfidenceDesc
                                      detections)).
    apply sublist_length, nmsOBB_sublist.
Qed.

Lemma nms_loop_head (sorted : list Detection) (iouThreshold : Q)
    (top : Detection) :
  sorted !! 0%nat = Some top ->
  (nms_loop sorted iouThreshold).1 !! 0%nat = Some top.
Proof.
  intros Htop.
  destruct (nms_loop_inv sorted iouThreshold)
    as [(ks & Hks & Hinc & Hmem) Hcause _].
  assert (H0 : 0%nat ∈ ks).
  { apply Hmem. split; [by apply lookup_lt_Some in Htop|].
    intros Hin. destruct (Hcause _ Hin) as (k & Hk & _). lia. }
  apply list_elem_of_lookup in H0 as [p Hp].
  assert (p = 0%nat) as ->.
  { destruct p as [|p]; [done|].
    destruct (lookup_lt_is_Some_2 ks 0) as [k0 Hk0].
    { apply lookup_lt_Some in Hp. lia. }
    pose proof (Hinc 0%nat (S p) k0 0%nat ltac:(lia) Hk0 Hp). lia. }
  destruct (Forall2_lookup_l _ _ _ _ _ Hks Hp) as (d & Hd & Hsd).
  rewrite Htop in Hsd. by injection Hsd as <-.
Qed.

(** The most confident detection is never suppressed: for a non-empty
    input the output starts with an input detection whose confidence
    no other input detection exceeds. *)
Theorem nmsOBB_keeps_top (detections : list Detection) (iouThreshold : Q) :
  detections <> [] ->
  exists top : Detection,
    nmsOBB detections iouThreshold !! 0%nat = Some top
    /\ top ∈ detections
    /\ forall d : Detection,
         d ∈ detections -> confidence d <= confidence top.
Proof.
  intros Hne. unfold nmsOBB.
  destruct detections as [|d0 rest] eqn:Hd; [done|].
  change (length (d0 :: rest) =? 0)%nat with false. cbv iota. rewrite <- Hd.
  pose proof (Array_sort_perm byConfidenceDesc detections) as Hperm.
  pose proof (Array_sort_sorted detections) as Hsorted.
  destruct (Array_sort byConfidenceDesc detections) as [|top sorted] eqn:Hs.
  { apply Permutation_nil_l in Hperm. congruence. }
  exists top. split; [by apply nms_loop_head|]. split.
  - rewrite <- Hperm. apply list_elem_of_here.
  - intros d Hin. rewrite <- Hperm in Hin.
    apply StronglySorted_inv in Hsorted as [_ Hall].
    apply elem_of_cons in Hin as [->|Hin]; [lra|].
    by apply (proj1 (Forall_forall _ _) Hall).
Qed.

Lemma nmsOBB_keeps_top_witness :
  exists top : Detection,
    nmsOBB [makeDetection 10 10 4 4 (3 # 10);
            makeDetection 11 10 4 4 (9 # 10);
            makeDetection 50 50 4 4 (6 # 10)] (45 # 100) !! 0%nat
    = Some top
    /\ confidence top == 9 # 10.
Proof.
  destruct (nmsOBB_keeps_top
              [makeDetection 10 10 4 4 (3 # 10);
               makeDetection 11 10 4 4 (9 # 10);
               makeDetection 50 50 4 4 (6 # 10)] (45 # 100))
    as (top & Htop & _ & _); [discriminate|].
  exists top. split; [exact Htop|].
  vm_compute in Htop. injection Htop as <-. reflexivity.
Defined.

Lemma nmsOBB_no_suppression (detections : list Detection)
    (iouThreshold : Q) :
  (forall i j : nat,
      (i < j)%nat ->
      ~ suppresses (Array_sort byConfidenceDesc detections) iouThreshold i j)
  -> nmsOBB detections iouThreshold
     = Array_sort byConfidenceDesc detections.
Proof.
  intros Hno. unfold nmsOBB.
  destruct detections as [|d rest]; [done|].
  change (length (d :: rest) =? 0)%nat with false. cbv iota zeta.
  by rewrite nms_loop_no_suppression.
Qed.

(** Suppressing twice changes nothing: [nmsOBB] returns its own output
    unchanged. *)
Theorem nmsOBB_idempotent (detections : list Detection) (iouThreshold : Q) :
  nmsOBB (nmsOBB detections iouThreshold) iouThreshold
  = nmsOBB detections iouThreshold.
Proof.
  rewrite nmsOBB_no_suppression;
    rewrite (Array_sort_fixed _ (nmsOBB_sorted detections iouThreshold));
    [done|].
  intros i j Hij (di & dj & Hi & Hj & Hc & Hiou).
  unfold nmsOBB in Hi, Hj.
  destruct (length detections =? 0)%nat; [by rewrite lookup_nil in Hi|].
  pose proof (nms_loop_pairs _ _ i j di dj Hij Hi Hj Hc). lra.
Qed.

(** With a threshold of 1 or more nothing is suppressed: the output is
    the whole input, sorted by confidence. *)
Theorem nmsOBB_threshold_one (detections : list Detection)
    (iouThreshold : Q) :
  1 <= iouThreshold ->
  nmsOBB detections iouThreshold = Array_sort byConfidenceDesc detections
  /\ nmsOBB detections iouThreshold ≡ₚ detections.
Proof.
  intros Ht.
  assert (Heq : nmsOBB detections iouThreshold
                = Array_sort byConfidenceDesc detections).
  { apply nmsOBB_no_suppression.
    intros i j _ (di & dj & _ & _ & _ & Hiou).
    destruct (computeAABBIoU_bounds di dj) as [_ Hle]. lra. }
  split; [exact Heq|]. rewrite Heq. apply Array_sort_perm.
Qed.

Lemma nmsOBB_threshold_one_witness :
  nmsOBB [makeDetection 10 10 4 4 (3 # 10);
          makeDetection 10 10 4 4 (9 # 10)] 1
  = [makeDetection 10 10 4 4 (9 # 10);
     makeDetection 10 10 4 4 (3 # 10)].
Proof.
  refine (proj1 (nmsOBB_threshold_one
                   [makeDetection 10 10 4 4 (3 # 10);
                    makeDetection 10 10 4 4 (9 # 10)] 1 _)).
  by vm_compute.
Defined.

(** ** GeoDedupMerger: the shape of the merged set *)

Lemma findDuplicate_None (iouThreshold : Q) (g2 : GeoDetection)
    (geoDetections1 : list GeoDetection) (j0 : nat) :
  findDuplicate iouThreshold g2 geoDetections1 j0 = None
  <-> forall g1 : GeoDetection,
        g1 ∈ geoDetections1 ->
        classId (detection g2) <> classId (detection g1)
        \/ computePolygonIoU (geoCorners g2) (geoCorners g1) <= iouThreshold.
Proof.
  revert j0. induction geoDetections1 as [|g rest IH]; intros j0; simpl.
  { split; [|done]. intros _ g1 Hg1. by apply elem_of_nil in Hg1. }
  destruct (Nat.eqb_spec (classId (detection g2)) (classId (detection g)))
    as [Hc|Hc]; simpl.
  - destruct (gtb (computePolygonIoU (geoCorners g2) (geoCorners g))
                  iouThreshold) eqn:Hg.
    + apply gtb_true in Hg. split; [done|]. intros Hall.
      destruct (Hall g (list_elem_of_here _ _)) as [?|?]; [done|lra].
    + apply gtb_false in Hg. rewrite IH. split.
      * intros Hall g1 Hg1. apply elem_of_cons in Hg1 as [->|?]; auto.
      * intros Hall g1 Hg1. apply Hall. by apply list_elem_of_further.
  - rewrite IH. split.
    + intros Hall g1 Hg1. apply elem_of_cons in Hg1 as [->|?]; auto.
    + intros Hall g1 Hg1. apply Hall. by apply list_elem_of_further.
Qed.

Lemma mergeStep_cases `{MathTrig} (detections1 : list Detection)
    (meta1 meta2 : GeoTIFFMeta) (iouThreshold : Q)
    (merged : list Detection) (d2 : Detection) :
  (isDuplicate detections1 meta1 meta2 iouThreshold d2 = false
   /\ mergeStep iouThreshold (map (toGeoDetection meta1) detections1)
        merged (toGeoDetection meta2 d2) = merged ++ [d2])
  \/ (exists (j : nat) (d1 : Detection),
        isDuplicate detections1 meta1 meta2 iouThreshold d2 = true
        /\ detections1 !! j = Some d1
        /\ classId d2 = classId d1
        /\ mergeStep iouThreshold (map (toGeoDetection meta1) detections1)
             merged (toGeoDetection meta2 d2)
           = if gtb (confidence d2) (confidence d1)
             then <[ j := d2 ]> merged else merged).
Proof.
  unfold isDuplicate, mergeStep.
  destruct (findDuplicate _ _ _ _) as [[j g1]|] eqn:Hf; [right|by left].
  apply findDuplicate_Some in Hf as (_ & Hj & Hc & _).
  rewrite Nat.sub_0_r, list_lookup_fmap in Hj.
  destruct (detections1 !! j) as [d1|] eqn:Hd1; [|done].
  injection Hj as <-. by exists j, d1.
Qed.

Lemma merge_foldl_shape `{MathTrig} (detections1 : list Detection)
    (meta1 meta2 : GeoTIFFMeta) (iouThreshold : Q)
    (detections2 : list Detection) (merged : list Detection) :
  (length detections1 <= length merged)%nat ->
  let result :=
    foldl (mergeStep iouThreshold (map (toGeoDetection meta1) detections1))
          merged (map (toGeoDetection meta2) detections2) in
  drop (length detections1) result
  = drop (length detections1) merged
    ++ List.filter
         (fun d2 => negb (isDuplicate detections1 meta1 meta2 iouThreshold d2))
         detections2
  /\ forall (j : nat) (a x : Detection),
       detections1 !! j = Some a -> merged !! j = Some x ->
       exists b : Detection,
         result !! j = Some b
         /\ (b = x
             \/ (b ∈ detections2 /\ classId b = classId a
                 /\ confidence a < confidence b)).
Proof.
  revert merged.
  induction detections2 as [|d2 rest IH]; intros merged Hlen; simpl.
  { split; [by rewrite app_nil_r|]. intros j a x _ Hx. exists x. auto. }
  set (step := mergeStep _ _ merged _).
  destruct (mergeStep_cases detections1 meta1 meta2 iouThreshold merged d2)
    as [[Hdup Hstep]|(j' & d1 & Hdup & Hd1 & Hc & Hstep)];
    fold step in Hstep; rewrite Hdup; simpl.
  - destruct (IH step) as [Htail Hfront].
    { rewrite Hstep, length_app. lia. }
    split.
    + rewrite Htail, Hstep, drop_app_le by done. by rewrite <- app_assoc.
    + intros j a x Ha Hx.
      destruct (Hfront j a x Ha) as (b & Hb & Hcase).
      { rewrite Hstep. by apply lookup_app_l_Some. }
      exists b. split; [done|].
      destruct Hcase as [?|(? & ? & ?)]; [auto|right].
      split; [by apply list_elem_of_further|done].
  - assert (Hj' : (j' < length detections1)%nat)
      by (by apply lookup_lt_Some in Hd1).
    destruct (IH step) as [Htail Hfront].
    { rewrite Hstep. destruct (gtb _ _); [by rewrite length_insert|done]. }
    split.
    + rewrite Htail, Hstep.
      destruct (gtb _ _); [by rewrite drop_insert_lt|done].
    + intros j a x Ha Hx.
      destruct (gtb (confidence d2) (confidence d1)) eqn:Hg.
      * apply gtb_true in Hg. destruct (decide (j = j')) as [->|Hne].
        -- destruct (Hfront j' a d2 Ha) as (b & Hb & Hcase).
           { rewrite Hstep. apply list_lookup_insert_eq. lia. }
           exists b. split; [done|]. right.
           rewrite Hd1 in Ha. injection Ha as <-.
           destruct Hcase as [->|(? & ? & ?)].
           ++ split; [apply list_elem_of_here|done].
           ++ split; [by apply list_elem_of_further|done].
        -- destruct (Hfront j a x Ha) as (b & Hb & Hcase).
           { rewrite Hstep. by rewrite list_lookup_insert_ne. }
           exists b. split; [done|].
           destruct Hcase as [?|(? & ? & ?)]; [auto|right].
           split; [by apply list_elem_of_further|done].
      * destruct (Hfront j a x Ha) as (b & Hb & Hcase).
        { by rewrite Hstep. }
        exists b. split; [done|].
        destruct Hcase as [?|(? & ? & ?)]; [auto|right].
        split; [by apply list_elem_of_further|done].
Qed.

Lemma isDuplicate_true `{MathTrig} (detections1 : list Detection)
    (meta1 meta2 : GeoTIFFMeta) (iouThreshold : Q) (d2 : Detection) :
  isDuplicate detections1 meta1 meta2 iouThreshold d2 = true
  <-> exists d1 : Detection,
        d1 ∈ detections1 /\ classId d2 = classId d1
        /\ iouThreshold
           < computePolygonIoU (geoCorners (toGeoDetection meta2 d2))
                               (geoCorners (toGeoDetection meta1 d1)).
Proof.
  unfold isDuplicate.
  destruct (findDuplicate _ _ _ _) as [[j g1]|] eqn:Hf.
  - split; [intros _|done].
    apply findDuplicate_Some in Hf as (_ & Hj & Hc & Hiou & _).
    rewrite Nat.sub_0_r, list_lookup_fmap in Hj.
    destruct (detections1 !! j) as [d1|] eqn:Hd1; [|done].
    injection Hj as <-. exists d1.
    split; [by apply list_elem_of_lookup_2 in Hd1|done].
  - split; [done|]. intros (d1 & Hin & Hc & Hiou).
    pose proof (proj1 (findDuplicate_None _ _ _ _) Hf
                  (toGeoDetection meta1 d1)) as Hnone.
    destruct Hnone as [Hne|Hle].
    + apply list_elem_of_fmap. by exists d1.
    + done.
    + lra.
Qed.

Lemma merge_foldl_length `{MathTrig} (geoDetections1 geoDetections2 :
    list GeoDetection) (iouThreshold : Q) (merged : list Detection) :
  (length merged
   <= length (foldl (mergeStep iouThreshold geoDetections1) merged
                geoDetections2))%nat.
Proof.
  revert merged.
  induction geoDetections2 as [|g2 rest IH]; intros merged; simpl; [done|].
  etransitivity; [|apply IH]. unfold mergeStep.
  destruct (findDuplicate _ _ _ _) as [[j g1]|].
  - destruct (gtb _ _); [by rewrite length_insert|done].
  - rewrite length_app. lia.
Qed.

(** Every entry of the first set keeps its place and its class in the
    merged set, and its confidence never drops: the entry is the
    first-set detection itself or a second-set detection of the same
    class and of strictly higher confidence. *)
Theorem mergeGeoTIFFDetections_first_set `{MathTrig}
    (detections1 detections2 : list Detection) (meta1 meta2 : GeoTIFFMeta)
    (iouThreshold : Q) (j : nat) (a : Detection) :
  detections1 !! j = Some a ->
  exists b : Detection,
    mergeGeoTIFFDetections detections1 meta1 detections2 meta2 iouThreshold
      !! j = Some b
    /\ classId b = classId a
    /\ confidence a <= confidence b
    /\ (b = a \/ (b ∈ detections2 /\ confidence a < confidence b)).
Proof.
  intros Ha. unfold mergeGeoTIFFDetections.
  destruct (merge_foldl_shape detections1 meta1 meta2 iouThreshold
              detections2 detections1 ltac:(done)) as [_ Hfront].
  destruct (Hfront j a a Ha Ha) as (b & Hb & Hcase).
  exists b. split; [exact Hb|].
  destruct Hcase as [->|(Hin & Hc & Hlt)].
  - repeat split; [lra|by left].
  - repeat split; [done|lra|by right].
Qed.

Lemma mergeGeoTIFFDetections_first_set_witness :
  exists b : Detection,
    @mergeGeoTIFFDetections seriesTrig
      [makeDetection 100 100 40 20 (8 # 10)] test_meta1
      [makeDetection 50 100 40 20 (9 # 10);
       makeDetection 50 100 40 20 (85 # 100)] test_meta2 (1 # 2) !! 0%nat
    = Some b
    /\ 8 # 10 <= confidence b.
Proof.
  destruct (@mergeGeoTIFFDetections_first_set seriesTrig
              [makeDetection 100 100 40 20 (8 # 10)]
              [makeDetection 50 100 40 20 (9 # 10);
               makeDetection 50 100 40 20 (85 # 100)]
              test_meta1 test_meta2 (1 # 2) 0
              (makeDetection 100 100 40 20 (8 # 10)) eq_refl)
    as (b & Hb & _ & Hle & _).
  exists b. split; [exact Hb|exact Hle].
Defined.

(** Behind the first set, the merged set holds exactly the second-set
    detections that are no duplicate, in their order; a second-set
    detection is a duplicate when some first-set detection of its
    class overlaps it above the threshold.  So the merged set is at
    least as long as the first set and at most as long as both. *)
Theorem mergeGeoTIFFDetections_appended `{MathTrig}
    (detections1 detections2 : list Detection) (meta1 meta2 : GeoTIFFMeta)
    (iouThreshold : Q) :
  let merged :=
    mergeGeoTIFFDetections detections1 meta1 detections2 meta2
      iouThreshold in
  drop (length detections1) merged
  = List.filter
      (fun d2 => negb (isDuplicate detections1 meta1 meta2 iouThreshold d2))
      detections2
  /\ (length detections1 <= length merged
      <= length detections1 + length detections2)%nat
  /\ forall d2 : Detection,
       isDuplicate detections1 meta1 meta2 iouThreshold d2 = true
       <-> exists d1 : Detection,
             d1 ∈ detections1 /\ classId d2 = classId d1
             /\ iouThreshold
                < computePolygonIoU
                    (geoCorners (toGeoDetection meta2 d2))
                    (geoCorners (toGeoDetection meta1 d1)).
Proof.
  intros merged.
  destruct (merge_foldl_shape detections1 meta1 meta2 iouThreshold
              detections2 detections1 ltac:(done)) as [Htail _].
  fold (mergeGeoTIFFDetections detections1 meta1 detections2 meta2
          iouThreshold) in Htail. fold merged in Htail.
  rewrite drop_all in Htail. simpl in Htail.
  assert (Hge : (length detections1 <= length merged)%nat)
    by apply merge_foldl_length.
  split; [exact Htail|]. split; [|intros d2; apply isDuplicate_true].
  split; [exact Hge|].
  rewrite <- (take_drop (length detections1) merged), length_app, Htail.
  rewrite length_take.
  pose proof (List.filter_length_le
                (fun d2 => negb (isDuplicate detections1 meta1 meta2
                                   iouThreshold d2)) detections2).
  lia.
Qed.

Lemma merge_foldl_no_duplicate `{MathTrig} (detections1 : list Detection)
    (meta1 meta2 : GeoTIFFMeta) (iouThreshold : Q)
    (detections2 merged : list Detection) :
  (forall d2 : Detection,
      d2 ∈ detections2 ->
      isDuplicate detections1 meta1 meta2 iouThreshold d2 = false) ->
  foldl (mergeStep iouThreshold (map (toGeoDetection meta1) detections1))
        merged (map (toGeoDetection meta2) detections2)
  = merged ++ detections2.
Proof.
  revert merged.
  induction detections2 as [|d2 rest IH]; intros merged Hno; simpl.
  { by rewrite app_nil_r. }
  destruct (mergeStep_cases detections1 meta1 meta2 iouThreshold merged d2)
    as [[_ ->]|(j & d1 & Hdup & _)].
  - rewrite IH, <- app_assoc; [done|].
    intros d Hd. apply Hno. by apply list_elem_of_further.
  - rewrite Hno in Hdup; [done|apply list_elem_of_here].
Qed.

(** Detections are only ever merged within a class and above the
    threshold: when the two sets share no class, or the threshold is 1
    or more, the merged set is the first set followed by the second. *)
Theorem mergeGeoTIFFDetections_concat `{MathTrig}
    (detections1 detections2 : list Detection) (meta1 meta2 : GeoTIFFMeta)
    (iouThreshold : Q) :
  (forall d1 d2 : Detection,
      d1 ∈ detections1 -> d2 ∈ detections2 -> classId d2 <> classId d1)
  \/ 1 <= iouThreshold ->
  mergeGeoTIFFDetections detections1 meta1 detections2 meta2 iouThreshold
  = detections1 ++ detections2.
Proof.
  intros Hcond. unfold mergeGeoTIFFDetections.
  apply merge_foldl_no_duplicate. intros d2 Hd2.
  apply not_true_iff_false. rewrite isDuplicate_true.
  intros (d1 & Hd1 & Hc & Hiou). destruct Hcond as [Hclass|Hone].
  - by apply (Hclass d1 d2).
  - destruct (computePolygonIoU_bounds
                (geoCorners (toGeoDetection meta2 d2))
                (geoCorners (toGeoDetection meta1 d1))) as [_ Hle].
    lra.
Qed.

Lemma mergeGeoTIFFDetections_concat_witness :
  @mergeGeoTIFFDetections seriesTrig
    [mkDetection 0 "plane" (95 # 100) 100 100 40 20 0] test_meta1
    [mkDetection 1 "ship" (95 # 100) 50 100 40 20 0] test_meta2 (1 # 2)
  = [mkDetection 0 "plane" (95 # 100) 100 100 40 20 0;
     mkDetection 1 "ship" (95 # 100) 50 100 40 20 0].
Proof.
  apply (@mergeGeoTIFFDetections_concat seriesTrig).
  left. intros d1 d2 Hd1 Hd2.
  apply list_elem_of_singleton in Hd1, Hd2. subst. discriminate.
Defined.

(** ** TilePreprocessor: the letterbox *)

Lemma Math_round_inject_Z (z : Z) : Math_round (inject_Z z) = z.
Proof.
  unfold Math_round.
  pose proof (Qfloor_le (inject_Z z + (1 # 2))) as Hle.
  pose proof (Qlt_floor (inject_Z z + (1 # 2))) as Hlt.
  set (f := Qfloor (inject_Z z + (1 # 2))) in *.
  assert (H1 : inject_Z f < inject_Z (z + 1)).
  { rewrite inject_Z_plus. change (inject_Z 1) with 1. lra. }
  assert (H2 : inject_Z z < inject_Z (f + 1)) by lra.
  rewrite <- Zlt_Qlt in H1, H2. lia.
Qed.

Lemma Math_round_le (q : Q) (z : Z) :
  q <= inject_Z z -> (Math_round q <= z)%Z.
Proof.
  intros Hq. rewrite <- (Math_round_inject_Z z). unfold Math_round.
  apply Qfloor_resp_le. lra.
Qed.

Lemma Math_round_eq (q : Q) (z : Z) :
  q == inject_Z z -> Math_round q = z.
Proof.
  intros Hq. rewrite <- (Math_round_inject_Z z). unfold Math_round.
  apply Qfloor_comp. by rewrite Hq.
Qed.

Lemma prepareTile_scale (sw sh modelSize : Z) :
  (0 < sw)%Z -> (0 < sh)%Z -> (0 < modelSize)%Z ->
  let scale := Letterbox.scale (prepareTile sw sh modelSize) in
  0 < scale
  /\ inject_Z sw * scale <= inject_Z modelSize
  /\ inject_Z sh * scale <= inject_Z modelSize
  /\ ((sh <= sw)%Z -> inject_Z sw * scale == inject_Z modelSize)
  /\ ((sw <= sh)%Z -> inject_Z sh * scale == inject_Z modelSize).
Proof.
  intros Hw Hh Hs. simpl.
  rewrite Zlt_Qlt in Hw, Hh, Hs. change (inject_Z 0) with 0 in *.
  set (w := inject_Z sw) in *. set (h := inject_Z sh) in *.
  set (S := inject_Z modelSize) in *.
  assert (Ha : w * (S / w) == S) by (field; lra).
  assert (Hb : h * (S / h) == S) by (field; lra).
  assert (Hpa : 0 < S / w) by (apply Qlt_shift_div_l; lra).
  assert (Hpb : 0 < S / h) by (apply Qlt_shift_div_l; lra).
  assert (Hcmp : h <= w -> S / w <= S / h).
  { intros Hle. apply Qle_shift_div_l; [lra|].
    assert (Heq : S / w * h == S * (h / w)) by (field; lra).
    rewrite Heq.
    assert (h / w <= 1) by (apply Qle_shift_div_r; lra). nra. }
  assert (Hcmp' : w <= h -> S / h <= S / w).
  { intros Hle. apply Qle_shift_div_l; [lra|].
    assert (Heq : S / h * w == S * (w / h)) by (field; lra).
    rewrite Heq.
    assert (w / h <= 1) by (apply Qle_shift_div_r; lra). nra. }
  pose proof (Q.le_min_l (S / w) (S / h)) as Hl.
  pose proof (Q.le_min_r (S / w) (S / h)) as Hr.
  assert (Hpos : 0 < Qmin (S / w) (S / h)).
  { destruct (Q.min_spec (S / w) (S / h)) as [[_ ->]|[_ ->]]; done. }
  split; [done|]. split; [nra|]. split; [nra|]. split.
  - intros Hle. rewrite Zle_Qle in Hle. fold w h in Hle.
    rewrite Q.min_l by auto. done.
  - intros Hle. rewrite Zle_Qle in Hle. fold w h in Hle.
    rewrite Q.min_r by auto. done.
Qed.

Lemma prepareTile_longer_side (sw sh modelSize : Z) :
  (0 < sw)%Z -> (0 < sh)%Z -> (0 < modelSize)%Z ->
  let lb := prepareTile sw sh modelSize in
  ((sh <= sw)%Z ->
   Letterbox.newW lb = modelSize /\ Letterbox.padX lb == 0)
  /\ ((sw <= sh)%Z ->
      Letterbox.newH lb = modelSize /\ Letterbox.padY lb == 0).
Proof.
  intros Hw Hh Hs lb.
  destruct (prepareTile_scale sw sh modelSize Hw Hh Hs)
    as (Hpos & Hlw & Hlh & Hew & Heh).
  assert (Hzero : forall n : Z, n = modelSize ->
            (inject_Z modelSize - inject_Z n) / 2 == 0).
  { intros n ->. field. }
  split.
  - intros Hle.
    assert (Letterbox.newW lb = modelSize) by (by apply Math_round_eq, Hew).
    split; [done|]. by apply Hzero.
  - intros Hle.
    assert (Letterbox.newH lb = modelSize) by (by apply Math_round_eq, Heh).
    split; [done|]. by apply Hzero.
Qed.

(** The letterbox of a region of positive size fits the model square
    and touches it along the longer side of the region: neither drawn
    side exceeds [modelSize], the one of the longer side equals it,
    and the paddings are non-negative, with none on that side. *)
Theorem prepareTile_fits (sw sh modelSize : Z) :
  (0 < sw)%Z -> (0 < sh)%Z -> (0 < modelSize)%Z ->
  let lb := prepareTile sw sh modelSize in
  0 < Letterbox.scale lb
  /\ (Letterbox.newW lb <= modelSize)%Z
  /\ (Letterbox.newH lb <= modelSize)%Z
  /\ 0 <= Letterbox.padX lb /\ 0 <= Letterbox.padY lb
  /\ ((sh <= sw)%Z ->
      Letterbox.newW lb = modelSize /\ Letterbox.padX lb == 0)
  /\ ((sw <= sh)%Z ->
      Letterbox.newH lb = modelSize /\ Letterbox.padY lb == 0).
Proof.
  intros Hw Hh Hs lb.
  destruct (prepareTile_scale sw sh modelSize Hw Hh Hs)
    as (Hpos & Hlw & Hlh & Hew & Heh).
  assert (HW : (Letterbox.newW lb <= modelSize)%Z)
    by (by apply Math_round_le).
  assert (HH : (Letterbox.newH lb <= modelSize)%Z)
    by (by apply Math_round_le).
  assert (Hpad : forall n : Z, (n <= modelSize)%Z ->
            0 <= (inject_Z modelSize - inject_Z n) / 2).
  { intros n Hn. rewrite Zle_Qle in Hn.
    apply Qle_shift_div_l; [reflexivity|]. lra. }
  split; [done|]. split; [done|]. split; [done|].
  split; [by apply Hpad|]. split; [by apply Hpad|].
  exact (prepareTile_longer_side sw sh modelSize Hw Hh Hs).
Qed.

Lemma prepareTile_fits_witness :
  let lb := prepareTile 1000 500 1024 in
  Letterbox.newW lb = 1024%Z /\ Letterbox.newH lb = 512%Z
  /\ Letterbox.padX lb == 0 /\ Letterbox.padY lb == 256.
Proof.
  pose proof (prepareTile_fits 1000 500 1024 eq_refl eq_refl eq_refl) as Hfit.
  cbv zeta in Hfit. destruct Hfit as (_ & _ & _ & _ & _ & Hwide & _).
  destruct (Hwide ltac:(discriminate)) as [HW HX].
  split; [exact HW|]. split; [by vm_compute|].
  split; [exact HX|by vm_compute].
Defined.

Lemma prepareTile_square (tileSize : Z) :
  (0 < tileSize)%Z ->
  let lb := prepareTile tileSize tileSize tileSize in
  Letterbox.scale lb == 1
  /\ Letterbox.padX lb == 0 /\ Letterbox.padY lb == 0.
Proof.
  intros Ht lb.
  destruct (prepareTile_scale tileSize tileSize tileSize Ht Ht Ht)
    as (_ & _ & _ & Hew & _).
  pose proof (prepareTile_longer_side tileSize tileSize tileSize Ht Ht Ht)
    as Hfit.
  cbv zeta in Hfit. destruct Hfit as (Hwide & Hhigh).
  destruct (Hwide ltac:(lia)) as [_ HX].
  destruct (Hhigh ltac:(lia)) as [_ HY].
  split; [|done]. specialize (Hew ltac:(lia)).
  rewrite Zlt_Qlt in Ht. change (inject_Z 0) with 0 in Ht.
  fold lb in Hew. nra.
Qed.

(** In slice inference every tile has the size of the model input, so
    its letterbox has scale 1 and no padding, and the detections of a
    tile are moved by the tile origin and otherwise left as they
    are. *)
Theorem planTiles_grid_translation (tileSize imgWidth imgHeight : Z)
    (tile : Tile) (detections : list Detection) :
  (0 < tileSize)%Z ->
  (SLICE_THRESHOLD < imgWidth)%Z \/ (SLICE_THRESHOLD < imgHeight)%Z ->
  tile ∈ planTiles tileSize imgWidth imgHeight ->
  let lb := prepareTile (sw tile) (sh tile) tileSize in
  sw tile = tileSize /\ sh tile = tileSize
  /\ Letterbox.scale lb == 1
  /\ Letterbox.padX lb == 0 /\ Letterbox.padY lb == 0
  /\ forall (i : nat) (d : Detection),
       detections !! i = Some d ->
       exists d' : Detection,
         mapDetectionsToOriginal detections (Letterbox.scale lb)
           (Letterbox.padX lb) (Letterbox.padY lb)
           (inject_Z (sx tile)) (inject_Z (sy tile)) !! i = Some d'
         /\ cx d' == cx d + inject_Z (sx tile)
         /\ cy d' == cy d + inject_Z (sy tile)
         /\ width d' == width d /\ height d' == height d
         /\ angle d' = angle d /\ confidence d' = confidence d
         /\ classId d' = classId d.
Proof.
  intros Ht Hbig Htile lb.
  assert (Hgrid : (imgWidth <=? SLICE_THRESHOLD)%Z
                  && (imgHeight <=? SLICE_THRESHOLD)%Z = false).
  { apply andb_false_iff. rewrite !Z.leb_gt. tauto. }
  apply (elem_of_planTiles_grid _ _ _ _ Hgrid) in Htile
    as (tx & ty & _ & _ & ->).
  subst lb. simpl sw. simpl sh. simpl sx. simpl sy.
  rewrite !tileExtent_full.
  destruct (prepareTile_square tileSize Ht) as (Hs & Hx & Hy).
  split; [done|]. split; [done|]. split; [done|].
  split; [done|]. split; [done|].
  set (lb := prepareTile tileSize tileSize tileSize) in *.
  intros i d Hd. unfold mapDetectionsToOriginal.
  rewrite list_lookup_fmap, Hd. eexists. split; [reflexivity|].
  cbn [cx cy width height angle confidence classId].
  rewrite Hs, Hx, Hy.
  split; [field|]. split; [field|]. split; [field|]. split; [field|].
  done.
Qed.

Lemma planTiles_grid_translation_witness :
  exists d' : Detection,
    mapDetectionsToOriginal [makeDetection 100 200 40 20 (9 # 10)]
      (Letterbox.scale (prepareTile 1024 1024 1024))
      (Letterbox.padX (prepareTile 1024 1024 1024))
      (Letterbox.padY (prepareTile 1024 1024 1024))
      (inject_Z 976) (inject_Z 476) !! 0%nat = Some d'
    /\ cx d' == 1076 /\ cy d' == 676.
Proof.
  pose proof (planTiles_grid_translation MODEL_INPUT_SIZE 2000 1500
                (mkTile 976 476 1024 1024)
                [makeDetection 100 200 40 20 (9 # 10)]
                eq_refl (or_introl eq_refl)) as Ht.
  cbv zeta in Ht.
  destruct Ht as (_ & _ & _ & _ & _ & Hmap).
  { by vm_compute; repeat constructor. }
  destruct (Hmap 0%nat _ eq_refl) as (d' & Hd' & Hx & Hy & _).
  exists d'. split; [exact Hd'|]. simpl in Hx, Hy.
  split; [by rewrite Hx|by rewrite Hy].
Defined.

(** ** The decoding of the engine output in [runTile] *)

Lemma toClassId_nat (k : nat) : toClassId (inject_Z (Z.of_nat k)) = Some k.
Proof.
  unfold toClassId. rewrite Qfloor_Z.
  rewrite (proj2 (Qeq_bool_iff _ _) (Qeq_refl _)).
  rewrite (proj2 (Z.leb_le _ _) (Nat2Z.is_nonneg k)). simpl.
  by rewrite Nat2Z.id.
Qed.

(** The detections of row [i], when the row is within the model. *)
Lemma runTile_row_Some (data : list Q) (i : nat) :
  (i * 7 + 6 < length data)%nat ->
  (exists k : nat, data !! (i * 7 + 6)%nat = Some (inject_Z (Z.of_nat k))) ->
  exists (x y w h a c : Q) (k : nat),
    data !! (i * 7)%nat = Some x /\ data !! (i * 7 + 1)%nat = Some y
    /\ data !! (i * 7 + 2)%nat = Some w /\ data !! (i * 7 + 3)%nat = Some h
    /\ data !! (i * 7 + 4)%nat = Some a /\ data !! (i * 7 + 5)%nat = Some c
    /\ data !! (i * 7 + 6)%nat = Some (inject_Z (Z.of_nat k))
    /\ runTile_row data i
       = Some (if gtb CONFIDENCE_THRESHOLD c then []
               else [mkDetection k (classNameOf k) c x y w h a]).
Proof.
  intros Hlen [k Hk].
  destruct (lookup_lt_is_Some_2 data (i * 7)) as [x Hx]; [lia|].
  destruct (lookup_lt_is_Some_2 data (i * 7 + 1)) as [y Hy]; [lia|].
  destruct (lookup_lt_is_Some_2 data (i * 7 + 2)) as [w Hw]; [lia|].
  destruct (lookup_lt_is_Some_2 data (i * 7 + 3)) as [h Hh]; [lia|].
  destruct (lookup_lt_is_Some_2 data (i * 7 + 4)) as [a Ha]; [lia|].
  destruct (lookup_lt_is_Some_2 data (i * 7 + 5)) as [c Hc]; [lia|].
  exists x, y, w, h, a, c, k. repeat (split; [done|]).
  unfold runTile_row. rewrite Hc.
  destruct (gtb CONFIDENCE_THRESHOLD c); [done|].
  rewrite Hx, Hy, Hw, Hh, Ha, Hk. simpl. by rewrite toClassId_nat.
Qed.

Lemma runTile_foldl (data : list Q) (rows : list (list Detection))
    (indices : list nat) (acc : list Detection) :
  Forall2 (fun i row => runTile_row data i = Some row) indices rows ->
  foldl (fun acc i =>
           detections ← acc;
           row ← runTile_row data i;
           Some (detections ++ row)) (Some acc) indices
  = Some (acc ++ concat rows).
Proof.
  intros Hrows. revert acc.
  induction Hrows as [|i row indices rows Hrow _ IH]; intros acc; simpl.
  - by rewrite app_nil_r.
  - rewrite Hrow. simpl. by rewrite IH, <- app_assoc.
Qed.

Lemma runTile_rows (data : list Q) (numDetections : nat) :
  (numDetections * 7 <= length data)%nat ->
  (forall i : nat,
      (i < numDetections)%nat ->
      exists k : nat,
        data !! (i * 7 + 6)%nat = Some (inject_Z (Z.of_nat k))) ->
  forall indices : list nat,
    (forall i : nat, i ∈ indices -> (i < numDetections)%nat) ->
    exists rows : list (list Detection),
      Forall2 (fun i row => runTile_row data i = Some row) indices rows
      /\ Forall2 (fun i row =>
                    forall d : Detection,
                      d ∈ row
                      <-> isRow data i d
                          /\ CONFIDENCE_THRESHOLD <= confidence d)
                 indices rows
      /\ Forall (fun row => (length row <= 1)%nat) rows.
Proof.
  intros Hlen Hclass indices.
  induction indices as [|i indices IH]; intros Hin.
  { exists []. repeat constructor. }
  destruct IH as (rows & Hrun & Hspec & Hone).
  { intros j Hj. apply Hin. by apply list_elem_of_further. }
  assert (Hi : (i < numDetections)%nat) by apply Hin, list_elem_of_here.
  destruct (runTile_row_Some data i ltac:(lia) (Hclass i Hi))
    as (x & y & w & h & a & c & k & Hx & Hy & Hw & Hh & Ha & Hc & Hk & Hrow).
  eexists (_ :: rows). split; [constructor; [exact Hrow|exact Hrun]|].
  split; [constructor; [|exact Hspec]|constructor; [|exact Hone]].
  - intros d. unfold isRow.
    destruct (gtb CONFIDENCE_THRESHOLD c) eqn:Hg.
    + apply gtb_true in Hg. split; [intros Hd; by apply elem_of_nil in Hd|].
      intros [(_ & _ & _ & _ & _ & Hc' & _) Hle].
      rewrite Hc in Hc'. injection Hc' as ->. lra.
    + apply gtb_false in Hg. rewrite list_elem_of_singleton. split.
      * intros ->. simpl. by repeat split.
      * intros [(Hx' & Hy' & Hw' & Hh' & Ha' & Hc' & Hk' & Hn') _].
        destruct d as [k' n' c' x' y' w' h' a']. simpl in *.
        rewrite Hx in Hx'. rewrite Hy in Hy'. rewrite Hw in Hw'.
        rewrite Hh in Hh'. rewrite Ha in Ha'. rewrite Hc in Hc'.
        rewrite Hk in Hk'.
        injection Hx' as <-. injection Hy' as <-. injection Hw' as <-.
        injection Hh' as <-. injection Ha' as <-. injection Hc' as <-.
        injection Hk' as Hk'. apply Nat2Z.inj in Hk' as <-.
        by rewrite Hn'.
  - destruct (gtb CONFIDENCE_THRESHOLD c); simpl; lia.
Qed.

Lemma elem_of_concat {A} (x : A) (rows : list (list A)) :
  x ∈ concat rows <-> exists row : list A, x ∈ row /\ row ∈ rows.
Proof.
  induction rows as [|r rows IH]; simpl.
  - split; [intros Hx; by apply elem_of_nil in Hx|].
    intros (row & _ & Hrow). by apply elem_of_nil in Hrow.
  - rewrite elem_of_app, IH. split.
    + intros [Hx|(row & Hx & Hrow)].
      * exists r. split; [done|apply list_elem_of_here].
      * exists row. split; [done|by apply list_elem_of_further].
    + intros (row & Hx & Hrow).
      apply elem_of_cons in Hrow as [->|Hrow]; [by left|right].
      by exists row.
Qed.

Lemma concat_length_le_one {A} (rows : list (list A)) :
  Forall (fun row => (length row <= 1)%nat) rows ->
  (length (concat rows) <= length rows)%nat.
Proof.
  induction 1 as [|row rows Hrow _ IH]; simpl; [done|].
  rewrite length_app. lia.
Qed.

(** [runTile] keeps exactly the rows of the output whose confidence
    reaches the threshold: every detection it returns is one of the
    [numDetections] rows, with the name of its class, and has
    confidence 0.25 or more, and every such row is returned; without
    [output0] the result is empty. *)
Theorem runTile_decodes (data : list Q) (numDetections : nat) :
  (numDetections * 7 <= length data)%nat ->
  (forall i : nat,
      (i < numDetections)%nat ->
      exists k : nat,
        data !! (i * 7 + 6)%nat = Some (inject_Z (Z.of_nat k))) ->
  runTile None = Some []
  /\ exists detections : list Detection,
       runTile (Some (data, numDetections)) = Some detections
       /\ (length detections <= numDetections)%nat
       /\ forall d : Detection,
            d ∈ detections
            <-> (exists i : nat, (i < numDetections)%nat /\ isRow data i d)
                /\ CONFIDENCE_THRESHOLD <= confidence d.
Proof.
  intros Hlen Hclass. split; [done|].
  destruct (runTile_rows data numDetections Hlen Hclass
              (seq 0 numDetections)) as (rows & Hrun & Hspec & Hone).
  { intros i Hi. apply elem_of_seq in Hi. lia. }
  exists (concat rows). split; [exact (runTile_foldl data rows _ [] Hrun)|].
  split.
  - etransitivity; [by apply concat_length_le_one|].
    by rewrite <- (Forall2_length _ _ _ Hspec), length_seq.
  - intros d. rewrite elem_of_concat. split.
    + intros (row & Hd & Hrow).
      apply list_elem_of_lookup in Hrow as [p Hp].
      destruct (Forall2_lookup_r _ _ _ _ _ Hspec Hp) as (i & Hi & Hiff).
      apply Hiff in Hd as [Hd Hle]. split; [|done]. exists i. split; [|done].
      apply list_elem_of_lookup_2, elem_of_seq in Hi. lia.
    + intros [(i & Hi & Hd) Hle].
      assert (Hin : i ∈ seq 0 numDetections) by (apply elem_of_seq; lia).
      apply list_elem_of_lookup in Hin as [p Hp].
      destruct (Forall2_lookup_l _ _ _ _ _ Hspec Hp) as (row & Hrow & Hiff).
      exists row. split; [by apply Hiff|].
      by apply list_elem_of_lookup_2 in Hrow.
Qed.

Lemma runTile_decodes_witness :
  exists detections : list Detection,
    runTile (Some ([100; 200; 40; 20; 0; 9 # 10; 1;
                    300; 400; 10; 10; 0; 1 # 10; 3;
                    50; 60; 8; 8; 1 # 2; 1 # 4; 20], 3%nat))
    = Some detections
    /\ map className detections = ["ship"; "class_20"].
Proof.
  destruct (runTile_decodes
              [100; 200; 40; 20; 0; 9 # 10; 1;
               300; 400; 10; 10; 0; 1 # 10; 3;
               50; 60; 8; 8; 1 # 2; 1 # 4; 20] 3)
    as (_ & detections & Hrun & _).
  - simpl. lia.
  - intros [|[|[|i]]] Hi; [by exists 1%nat|by exists 3%nat
                           |by exists 20%nat|lia].
  - exists detections. split; [exact Hrun|].
    vm_compute in Hrun. by injection Hrun as <-.
Defined.

Lemma CLASS_NAMES_NoDup : NoDup CLASS_NAMES.
Proof. apply (bool_decide_unpack _). by vm_compute. Qed.

Lemma CLASS_NAMES_no_prefix :
  Forall (fun name => forall s : string, name <> "class_" +:+ s) CLASS_NAMES.
Proof. repeat constructor; intros s; discriminate. Qed.

Lemma classNameOf_lt (k : nat) :
  (k < length CLASS_NAMES)%nat -> CLASS_NAMES !! k = Some (classNameOf k).
Proof.
  intros Hk. unfold classNameOf.
  by destruct (lookup_lt_is_Some_2 CLASS_NAMES k Hk) as [name ->].
Qed.

Lemma classNameOf_ge (k : nat) :
  (length CLASS_NAMES <= k)%nat -> classNameOf k = "class_" +:+ pretty k.
Proof.
  intros Hk. unfold classNameOf. by rewrite (lookup_ge_None_2 _ _ Hk).
Qed.

(** The name given to a class is the entry of the label table for the
    indices 0 to 14 and [class_N] for any other index [N]; no two
    indices get the same name. *)
Theorem classNameOf_injective (k k' : nat) :
  ((k < 15)%nat -> CLASS_NAMES !! k = Some (classNameOf k))
  /\ ((15 <= k)%nat -> classNameOf k = "class_" +:+ pretty k)
  /\ (classNameOf k = classNameOf k' -> k = k').
Proof.
  split; [apply classNameOf_lt|]. split; [apply classNameOf_ge|].
  intros Heq.
  destruct (Nat.lt_ge_cases k (length CLASS_NAMES)) as [Hk|Hk];
    destruct (Nat.lt_ge_cases k' (length CLASS_NAMES)) as [Hk'|Hk'].
  - apply classNameOf_lt in Hk, Hk'. rewrite <- Heq in Hk'.
    exact (NoDup_lookup _ _ _ _ CLASS_NAMES_NoDup Hk Hk').
  - apply classNameOf_lt, list_elem_of_lookup_2 in Hk.
    rewrite Heq, (classNameOf_ge k' Hk') in Hk.
    by destruct (proj1 (Forall_forall _ _) CLASS_NAMES_no_prefix _ Hk
                   (pretty k')).
  - apply classNameOf_lt, list_elem_of_lookup_2 in Hk'.
    rewrite <- Heq, (classNameOf_ge k Hk) in Hk'.
    by destruct (proj1 (Forall_forall _ _) CLASS_NAMES_no_prefix _ Hk'
                   (pretty k)).
  - rewrite (classNameOf_ge k Hk), (classNameOf_ge k' Hk') in Heq.
    simpl in Heq. injection Heq as Heq. by apply pretty_nat_inj in Heq.
Qed.

(** ** [runInference] *)

Lemma runTile_foldl_None (data : list Q) (indices : list nat) :
  foldl (fun acc i =>
           detections ← acc;
           row ← runTile_row data i;
           Some (detections ++ row)) None indices = None.
Proof. by induction indices. Qed.

Lemma runTile_row_threshold (data : list Q) (i : nat)
    (row : list Detection) :
  runTile_row data i = Some row ->
  Forall (fun d => CONFIDENCE_THRESHOLD <= confidence d) row.
Proof.
  unfold runTile_row.
  destruct (data !! (i * 7 + 5)%nat) as [c|]; [|done].
  destruct (gtb CONFIDENCE_THRESHOLD c) eqn:Hg.
  { intros [= <-]. constructor. }
  apply gtb_false in Hg.
  destruct (data !! (i * 7)%nat); [|done].
  destruct (data !! (i * 7 + 1)%nat); [|done].
  destruct (data !! (i * 7 + 2)%nat); [|done].
  destruct (data !! (i * 7 + 3)%nat); [|done].
  destruct (data !! (i * 7 + 4)%nat); [|done].
  destruct (data !! (i * 7 + 6)%nat ≫= toClassId); [|done].
  simpl. intros [= <-]. by repeat constructor.
Qed.

Lemma runTile_threshold (output : option (list Q * nat))
    (detections : list Detection) :
  runTile output = Some detections ->
  Forall (fun d => CONFIDENCE_THRESHOLD <= confidence d) detections.
Proof.
  destruct output as [[data numDetections]|]; simpl.
  2:{ intros [= <-]. constructor. }
  assert (Hgen : forall (indices : list nat) (acc : list Detection),
            Forall (fun d => CONFIDENCE_THRESHOLD <= confidence d) acc ->
            foldl (fun acc i =>
                     detections ← acc;
                     row ← runTile_row data i;
                     Some (detections ++ row)) (Some acc) indices
            = Some detections ->
            Forall (fun d => CONFIDENCE_THRESHOLD <= confidence d)
                   detections).
  { induction indices as [|i indices IH]; intros acc Hacc; simpl.
    - by intros [= <-].
    - destruct (runTile_row data i) as [row|] eqn:Hrow; simpl.
      + apply IH, Forall_app. split; [done|].
        by apply (runTile_row_threshold data i).
      + by rewrite runTile_foldl_None. }
  apply Hgen. constructor.
Qed.

Lemma mapDetectionsToOriginal_confidence (detections : list Detection)
    (scale padX padY tileOffsetX tileOffsetY threshold : Q) :
  Forall (fun d => threshold <= confidence d) detections ->
  Forall (fun d => threshold <= confidence d)
    (mapDetectionsToOriginal detections scale padX padY
       tileOffsetX tileOffsetY).
Proof.
  unfold mapDetectionsToOriginal. intros Hall.
  apply Forall_fmap. eapply Forall_impl; [exact Hall|]. by intros d Hd.
Qed.

Lemma runInference_foldl (infer : Tile -> option (list Q * nat))
    (totalTiles : Z) (tiles : list Tile) :
  (forall tile : Tile, tile ∈ tiles -> is_Some (runTile (infer tile))) ->
  forall (progress : list (Z * Z)) (allDetections : list Detection)
         (done : Z),
    exists more : list Detection,
      foldl (runInference_tile infer totalTiles)
            (Some (progress, allDetections, done)) tiles
      = Some (progress
                ++ ((fun k : nat => ((done + Z.of_nat k + 1)%Z, totalTiles))
                      <$> seq 0 (length tiles)),
              allDetections ++ more,
              (done + Z.of_nat (length tiles))%Z)
      /\ Forall (fun d => CONFIDENCE_THRESHOLD <= confidence d) more.
Proof.
  induction tiles as [|tile tiles IH]; intros Hok progress allDetections done.
  { exists []. simpl. split; [|constructor].
    by rewrite !app_nil_r, Z.add_0_r. }
  destruct (Hok tile (list_elem_of_here _ _)) as [tileDets Htile].
  cbn [foldl]. unfold runInference_tile at 2. simpl. rewrite Htile. simpl.
  edestruct IH as (more & -> & Hmore).
  { intros t Ht. apply Hok. by apply list_elem_of_further. }
  eexists (_ ++ more). split.
  - f_equal. f_equal; [f_equal|lia].
    + rewrite <- app_assoc. f_equal. simpl. f_equal.
      * f_equal. lia.
      * rewrite <- fmap_S_seq, <- list_fmap_compose.
        apply list_fmap_ext. intros _ k _. simpl. f_equal. lia.
    + by rewrite <- app_assoc.
  - apply Forall_app. split; [|done].
    apply mapDetectionsToOriginal_confidence.
    by apply (runTile_threshold (infer tile)).
Qed.

Lemma length_bind_const {A B} (f : A -> list B) (l : list A) (m : nat) :
  (forall x : A, length (f x) = m) -> length (l ≫= f) = (length l * m)%nat.
Proof.
  intros Hf. induction l as [|x l IH]; [done|].
  simpl. rewrite length_app, Hf.
  change (list_bind A B f l) with (l ≫= f). rewrite IH. lia.
Qed.

Lemma planTiles_grid_length (tileSize imgWidth imgHeight : Z) :
  (0 < tileSize)%Z ->
  (imgWidth <=? SLICE_THRESHOLD)%Z && (imgHeight <=? SLICE_THRESHOLD)%Z
  = false ->
  Z.of_nat (length (planTiles tileSize imgWidth imgHeight))
  = (tileCount tileSize imgWidth * tileCount tileSize imgHeight)%Z.
Proof.
  intros Ht Hgrid. unfold planTiles. rewrite Hgrid.
  destruct (tileCount_spec tileSize imgWidth Ht) as [Hx _].
  destruct (tileCount_spec tileSize imgHeight Ht) as [Hy _].
  rewrite (length_bind_const _ _ (Z.to_nat (tileCount tileSize imgWidth))).
  - rewrite length_seqZ. lia.
  - intros ty. rewrite (length_bind_const _ _ 1%nat) by done.
    rewrite length_seqZ. lia.
Qed.

(** [onProgress] is called once per tile of the plan, with the number
    of tiles done so far and, every time, the total number of tiles
    [tilesX * tilesY]; the last call reports that total as done.  In a
    single pass the calls are (0, 1) and (1, 1). *)
Theorem runInference_progress (infer : Tile -> option (list Q * nat))
    (imgWidth imgHeight : Z) :
  (forall tile : Tile, is_Some (runTile (infer tile))) ->
  exists (progress : list (Z * Z)) (detections : list Detection),
    runInference infer imgWidth imgHeight = Some (progress, detections)
    /\ ((imgWidth <= SLICE_THRESHOLD)%Z /\ (imgHeight <= SLICE_THRESHOLD)%Z ->
        progress = [(0, 1); (1, 1)]%Z)
    /\ ((SLICE_THRESHOLD < imgWidth)%Z \/ (SLICE_THRESHOLD < imgHeight)%Z ->
        let totalTiles :=
          (tileCount MODEL_INPUT_SIZE imgWidth
           * tileCount MODEL_INPUT_SIZE imgHeight)%Z in
        progress
        = (fun k : nat => ((Z.of_nat k + 1)%Z, totalTiles))
            <$> seq 0 (length (planTiles MODEL_INPUT_SIZE imgWidth imgHeight))
        /\ Z.of_nat (length progress) = totalTiles
        /\ last progress = Some (totalTiles, totalTiles)).
Proof.
  intros Hok. unfold runInference.
  destruct ((imgWidth <=? SLICE_THRESHOLD)%Z
            && (imgHeight <=? SLICE_THRESHOLD)%Z) eqn:Hmode.
  - destruct (Hok (mkTile 0 0 imgWidth imgHeight)) as [dets ->]. simpl.
    eexists _, _. split; [reflexivity|]. split; [done|].
    apply andb_true_iff in Hmode as [H1 H2].
    apply Z.leb_le in H1, H2. lia.
  - destruct (runInference_foldl infer
                (tileCount MODEL_INPUT_SIZE imgWidth
                 * tileCount MODEL_INPUT_SIZE imgHeight)
                (planTiles MODEL_INPUT_SIZE imgWidth imgHeight)
                (fun tile _ => Hok tile) [] [] 0) as (more & Hfold & _).
    cbv zeta. rewrite Hfold. simpl.
    eexists _, _. split; [reflexivity|]. split.
    { apply andb_false_iff in Hmode. rewrite !Z.leb_gt in Hmode. lia. }
    intros _.
    pose proof (planTiles_grid_length MODEL_INPUT_SIZE imgWidth imgHeight
                  eq_refl Hmode) as Hlen.
    set (tiles := planTiles MODEL_INPUT_SIZE imgWidth imgHeight) in *.
    set (total := (tileCount MODEL_INPUT_SIZE imgWidth
                   * tileCount MODEL_INPUT_SIZE imgHeight)%Z) in *.
    split; [done|]. split; [by rewrite length_fmap, length_seq|].
    destruct (length tiles) as [|n] eqn:Hn.
    { destruct (tileCount_spec MODEL_INPUT_SIZE imgWidth eq_refl) as [? _].
      destruct (tileCount_spec MODEL_INPUT_SIZE imgHeight eq_refl) as [? _].
      nia. }
    rewrite seq_S, fmap_app. simpl. rewrite last_snoc. f_equal. f_equal. lia.
Qed.

Lemma runInference_progress_witness :
  exists (progress : list (Z * Z)) (detections : list Detection),
    runInference (fun _ => None) 2000 1500 = Some (progress, detections)
    /\ last progress = Some (6, 6)%Z.
Proof.
  destruct (runInference_progress (fun _ => None) 2000 1500)
    as (progress & detections & Hrun & _ & Hslice).
  - intros tile. by exists [].
  - exists progress, detections. split; [exact Hrun|].
    destruct (Hslice (or_introl eq_refl)) as (_ & _ & Hlast).
    exact Hlast.
Defined.

Lemma displayedDetections_all (rawDetections : list Detection)
    (confidenceThreshold : Q) :
  Forall (fun d => confidenceThreshold <= confidence d) rawDetections ->
  displayedDetections rawDetections confidenceThreshold = rawDetections.
Proof.
  unfold displayedDetections.
  induction 1 as [|d l Hd _ IH]; simpl; [done|].
  apply gtb_false in Hd. by rewrite Hd, IH.
Qed.

(** Every detection that [runInference] returns has confidence 0.25
    or more, in a single pass and in slice inference alike; so a
    display threshold of 0.25 or less shows all of them.  In slice
    inference no two returned detections of one class overlap above
    0.45; a single pass returns the remapped candidates as they are,
    without suppression. *)
Theorem runInference_detections (infer : Tile -> option (list Q * nat))
    (imgWidth imgHeight : Z) :
  (forall tile : Tile, is_Some (runTile (infer tile))) ->
  exists (progress : list (Z * Z)) (detections : list Detection),
    runInference infer imgWidth imgHeight = Some (progress, detections)
    /\ (forall d : Detection,
          d ∈ detections -> CONFIDENCE_THRESHOLD <= confidence d)
    /\ (forall confidenceThreshold : Q,
          confidenceThreshold <= CONFIDENCE_THRESHOLD ->
          displayedDetections detections confidenceThreshold = detections)
    /\ ((SLICE_THRESHOLD < imgWidth)%Z \/ (SLICE_THRESHOLD < imgHeight)%Z ->
        forall (p q : nat) (a b : Detection),
          (p < q)%nat ->
          detections !! p = Some a -> detections !! q = Some b ->
          classId a = classId b ->
          computeAABBIoU a b <= 45 # 100)
    /\ ((imgWidth <= SLICE_THRESHOLD)%Z /\ (imgHeight <= SLICE_THRESHOLD)%Z ->
        exists candidates : list Detection,
          runTile (infer (mkTile 0 0 imgWidth imgHeight)) = Some candidates
          /\ length detections = length candidates
          /\ map confidence detections = map confidence candidates
          /\ map classId detections = map classId candidates).
Proof.
  intros Hok.
  assert (Hgoal : exists (progress : list (Z * Z))
                         (detections : list Detection),
    runInference infer imgWidth imgHeight = Some (progress, detections)
    /\ Forall (fun d => CONFIDENCE_THRESHOLD <= confidence d) detections
    /\ ((SLICE_THRESHOLD < imgWidth)%Z \/ (SLICE_THRESHOLD < imgHeight)%Z ->
        forall (p q : nat) (a b : Detection),
          (p < q)%nat ->
          detections !! p = Some a -> detections !! q = Some b ->
          classId a = classId b ->
          computeAABBIoU a b <= 45 # 100)
    /\ ((imgWidth <= SLICE_THRESHOLD)%Z /\ (imgHeight <= SLICE_THRESHOLD)%Z ->
        exists candidates : list Detection,
          runTile (infer (mkTile 0 0 imgWidth imgHeight)) = Some candidates
          /\ length detections = length candidates
          /\ map confidence detections = map confidence candidates
          /\ map classId detections = map classId candidates)).
  { unfold runInference.
    destruct ((imgWidth <=? SLICE_THRESHOLD)%Z
              && (imgHeight <=? SLICE_THRESHOLD)%Z) eqn:Hmode.
    - destruct (Hok (mkTile 0 0 imgWidth imgHeight)) as [dets Hdets].
      rewrite Hdets. simpl. eexists _, _. split; [reflexivity|].
      split; [|split].
      + apply mapDetectionsToOriginal_confidence.
        by apply (runTile_threshold _ _ Hdets).
      + apply andb_true_iff in Hmode as [H1 H2].
        apply Z.leb_le in H1, H2. lia.
      + intros _. exists dets. split; [done|].
        unfold mapDetectionsToOriginal.
        rewrite length_map. split; [done|].
        rewrite !map_map. simpl. done.
    - destruct (runInference_foldl infer
                  (tileCount MODEL_INPUT_SIZE imgWidth
                   * tileCount MODEL_INPUT_SIZE imgHeight)
                  (planTiles MODEL_INPUT_SIZE imgWidth imgHeight)
                  (fun tile _ => Hok tile) [] [] 0)
        as (more & Hfold & Hmore).
      cbv zeta. rewrite Hfold. simpl.
      eexists _, _. split; [reflexivity|]. split; [|split].
      + apply Forall_forall. intros d Hd.
        apply nmsOBB_subset in Hd.
        by apply (proj1 (Forall_forall _ _) Hmore).
      + intros _ p q a b Hpq Hp Hq Hc. unfold nmsOBB in Hp, Hq.
        destruct (length more =? 0)%nat; [by rewrite lookup_nil in Hp|].
        eapply nms_loop_pairs; eauto.
      + intros [H1 H2]. apply andb_false_iff in Hmode.
        rewrite !Z.leb_gt in Hmode. lia. }
  destruct Hgoal as (progress & detections & Hrun & Hall & Hslice & Hsingle).
  exists progress, detections. split; [done|].
  split; [by apply Forall_forall|]. split; [|done].
  intros t Ht. apply displayedDetections_all.
  eapply Forall_impl; [exact Hall|]. intros d Hd. simpl in Hd. lra.
Qed.

Lemma runInference_detections_witness :
  exists (progress : list (Z * Z)) (detections : list Detection),
    runInference
      (fun _ => Some ([100; 200; 40; 20; 0; 9 # 10; 1;
                       300; 400; 10; 10; 0; 1 # 10; 3], 2%nat))
      800 600
    = Some (progress, detections)
    /\ forall d : Detection,
         d ∈ detections -> CONFIDENCE_THRESHOLD <= confidence d.
Proof.
  destruct (runInference_detections
              (fun _ => Some ([100; 200; 40; 20; 0; 9 # 10; 1;
                               300; 400; 10; 10; 0; 1 # 10; 3], 2%nat))
              800 600)
    as (progress & detections & Hrun & Hall & _).
  - intros tile. eexists. by vm_compute.
  - by exists progress, detections.
Defined.

(** ** Export: rounding *)






(** ** Export: GeoJSON *)

Lemma distinctInOrder_spec (names : list string) :
  NoDup (distinctInOrder names)
  /\ forall name : string, name ∈ distinctInOrder names <-> name ∈ names.
Proof.
  unfold distinctInOrder.
  assert (Hgen : forall seen : list string,
            NoDup seen ->
            NoDup (foldl (fun seen name =>
                            if bool_decide (name ∈ seen) then seen
                            else seen ++ [name]) seen names)
            /\ forall name : string,
                 name ∈ foldl (fun seen name =>
                                 if bool_decide (name ∈ seen) then seen
                                 else seen ++ [name]) seen names
                 <-> name ∈ seen \/ name ∈ names).
  { induction names as [|n names IH]; intros seen Hseen; simpl.
    - split; [done|]. intros name. rewrite elem_of_nil. tauto.
    - case_bool_decide as Hn.
      + destruct (IH seen Hseen) as [Hnd Hmem]. split; [done|].
        intros name. rewrite Hmem, elem_of_cons. split; [tauto|].
        intros [?|[->|?]]; auto.
      + destruct (IH (seen ++ [n])) as [Hnd Hmem].
        { apply NoDup_app. split; [done|]. split; [|apply NoDup_singleton].
          intros x Hx Hx'. apply list_elem_of_singleton in Hx'. by subst. }
        split; [done|]. intros name.
        rewrite Hmem, elem_of_app, list_elem_of_singleton, elem_of_cons.
        tauto. }
  destruct (Hgen [] (NoDup_nil_2)) as [Hnd Hmem]. split; [done|].
  intros name. rewrite Hmem, elem_of_nil. tauto.
Qed.





(** ** [downloadGeoJSON] *)












(** ** [ResultPanel]: the counts per class *)

Lemma classCounts_foldl_lookup (l : list Detection)
    (counts : gmap string nat) (name : string) :
  foldl (fun counts d =>
           <[ className d := (default 0 (counts !! className d) + 1)%nat ]>
             counts) counts l !! name
  = match List.filter (fun d => String.eqb (className d) name) l with
    | [] => counts !! name
    | matching => Some (default 0 (counts !! name) + length matching)%nat
    end.
Proof.
  revert counts. induction l as [|d l IH]; intros counts; [done|].
  cbn [foldl List.filter]. rewrite IH.
  destruct (String.eqb_spec (className d) name) as [<-|Hne].
  - rewrite lookup_insert_eq. cbn [default length].
    destruct (List.filter _ l); cbn [length]; apply (f_equal Some);
      unfold id; lia.
  - by rewrite lookup_insert_ne.
Qed.

Lemma classCounts_foldl_sum (l : list Detection) (counts : gmap string nat) :
  map_fold (fun _ n total => (n + total)%nat) 0%nat
    (foldl (fun counts d =>
              <[ className d := (default 0 (counts !! className d) + 1)%nat ]>
                counts) counts l)
  = (map_fold (fun _ n total => (n + total)%nat) 0%nat counts
     + length l)%nat.
Proof.
  revert counts. induction l as [|d l IH]; intros counts.
  { simpl. lia. }
  cbn [foldl length]. rewrite IH. clear IH.
  destruct (counts !! className d) as [n|] eqn:Hn; cbn [default].
  - rewrite <- (insert_delete_eq counts (className d)).
    rewrite (map_fold_insert_L _ _ _ _ (delete (className d) counts));
      [|intros; lia|apply lookup_delete_eq].
    rewrite <- (insert_delete_id counts (className d) n Hn) at 2.
    rewrite (map_fold_insert_L _ _ _ _ (delete (className d) counts));
      [|intros; lia|apply lookup_delete_eq].
    unfold id. lia.
  - rewrite (map_fold_insert_L _ _ _ _ counts); [|intros; lia|done].
    unfold id. lia.
Qed.

(** The panel's count of a class name is the number of detections
    with that name, and a name has an entry only when at least one
    detection carries it; the counts add up to the number of
    detections shown as the total; and the panel lists as many class
    names as [downloadGeoJSON] writes files. *)
Theorem classCounts_spec `{MathTrig} (detections : list Detection)
    (meta : GeoTIFFMeta) :
  (forall (name : string) (n : nat),
     classCounts detections !! name = Some n
     <-> (0 < n)%nat
         /\ n = length (List.filter (fun d => String.eqb (className d) name)
                                    detections))
  /\ map_fold (fun _ n total => (n + total)%nat) 0%nat
              (classCounts detections)
     = length detections
  /\ size (classCounts detections)
     = length (downloadGeoJSON detections meta).
Proof.
  assert (Hlook : forall (name : string) (n : nat),
     classCounts detections !! name = Some n
     <-> (0 < n)%nat
         /\ n = length (List.filter (fun d => String.eqb (className d) name)
                                    detections)).
  { intros name n. unfold classCounts. rewrite classCounts_foldl_lookup.
    rewrite lookup_empty. cbn [default].
    destruct (List.filter _ detections) as [|d l]; cbn [length].
    - split; [done|]. lia.
    - split; [intros [= <-]; lia|]. intros [_ ->]. f_equal. }
  split; [exact Hlook|]. split.
  - unfold classCounts. rewrite classCounts_foldl_sum.
    by rewrite map_fold_empty.
  - destruct (distinctInOrder_spec (map className detections))
      as [Hnd Hmem].
    unfold downloadGeoJSON. rewrite length_map.
    rewrite <- (size_dom (D := gset string)).
    rewrite <- (size_list_to_set (C := gset string) _ Hnd).
    f_equal. apply set_eq. intros name.
    rewrite elem_of_dom, elem_of_list_to_set, Hmem, list_elem_of_fmap.
    split.
    + intros [n Hn]. apply Hlook in Hn as [Hpos ->].
      destruct (List.filter _ detections) as [|d l] eqn:Hf;
        [simpl in Hpos; lia|].
      assert (Hd : List.In d (List.filter
                     (fun d => String.eqb (className d) name) detections))
        by (rewrite Hf; by left).
      apply List.filter_In in Hd as [Hd Hname].
      apply String.eqb_eq in Hname. exists d.
      split; [done|]. by apply list_elem_of_In.
    + intros (d & -> & Hd). eexists. apply Hlook. split; [|reflexivity].
      assert (Hin : List.In d (List.filter
                     (fun d' => String.eqb (className d') (className d))
                     detections)).
      { apply List.filter_In. split; [by apply list_elem_of_In|].
        apply String.eqb_refl. }
      destruct (List.filter _ detections); [done|]. simpl. lia.
Qed.

(** ** [canvasToFloat32CHW] *)

Lemma foldl_seq_S {A} (f : A -> nat -> A) (a : A) (n : nat) :
  foldl f a (seq 0 (S n)) = f (foldl f a (seq 0 n)) n.
Proof. by rewrite seq_S, foldl_app. Qed.

Lemma byte_unit_range `{Rounding} (v : Z) :
  RoundingLaws ->
  (0 <= v <= 255)%Z -> 0 <= fround (fl (inject_Z v / 255)) <= 1.
Proof.
  intros (Hfl & Hfround & Hfl0 & Hfl1 & Hfround0 & Hfround1) [H0 H255].
  rewrite Zle_Qle in H0, H255.
  change (inject_Z 0) with 0 in H0. change (inject_Z 255) with 255 in H255.
  assert (Hlo : 0 <= inject_Z v / 255) by (apply Qle_shift_div_l; lra).
  assert (Hhi : inject_Z v / 255 <= 1) by (apply Qle_shift_div_r; lra).
  apply Hfl in Hlo, Hhi. rewrite Hfl0 in Hlo. rewrite Hfl1 in Hhi.
  apply Hfround in Hlo, Hhi. rewrite Hfround0 in Hlo. rewrite Hfround1 in Hhi.
  by split.
Qed.

Lemma canvasToFloat32CHW_loop `{Rounding} (data : list Z)
    (planeSize k : nat) :
  RoundingLaws ->
  (4 * planeSize <= length data)%nat ->
  Forall (fun v => (0 <= v <= 255)%Z) data ->
  (k <= planeSize)%nat ->
  exists chw : list Q,
    foldl (canvasToFloat32CHW_pixel data planeSize)
          (Some (replicate (3 * planeSize) 0)) (seq 0 k) = Some chw
    /\ length chw = (3 * planeSize)%nat
    /\ Forall (fun q => 0 <= q <= 1) chw
    /\ forall i c : nat,
         (i < k)%nat -> (c < 3)%nat ->
         exists v : Z,
           data !! (i * 4 + c)%nat = Some v
           /\ chw !! (c * planeSize + i)%nat
              = Some (fround (fl (inject_Z v / 255))).
Proof.
  intros Hlaws Hlen Hbytes. induction k as [|k IH]; intros Hk.
  { exists (replicate (3 * planeSize) 0). split; [done|].
    split; [apply length_replicate|]. split; [|intros; lia].
    apply Forall_replicate. lra. }
  destruct IH as (chw & Hrun & Hsize & Hunit & Hset); [lia|].
  rewrite foldl_seq_S, Hrun. unfold canvasToFloat32CHW_pixel.
  destruct (lookup_lt_is_Some_2 data (k * 4)%nat) as [r Hr]; [lia|].
  destruct (lookup_lt_is_Some_2 data (k * 4 + 1)%nat) as [g Hg]; [lia|].
  destruct (lookup_lt_is_Some_2 data (k * 4 + 2)%nat) as [b Hb]; [lia|].
  cbn [mbind option_bind]. rewrite Hr, Hg, Hb. cbn [mbind option_bind].
  eexists. split; [reflexivity|].
  split; [by rewrite !length_insert|]. split.
  - pose proof (proj1 (Forall_forall _ _) Hbytes) as Hb255.
    repeat apply Forall_insert; try done;
      apply (byte_unit_range _ Hlaws), Hb255.
    + by eapply list_elem_of_lookup_2.
    + by eapply list_elem_of_lookup_2.
    + by eapply list_elem_of_lookup_2.
  - intros i c Hi Hc.
    destruct (decide (i = k)) as [->|Hne].
    + assert (c = 0 \/ c = 1 \/ c = 2)%nat as [-> | [-> | ->]] by lia.
      * exists r. split; [by rewrite Nat.add_0_r|].
        rewrite !list_lookup_insert_ne by lia.
        apply list_lookup_insert_eq. lia.
      * exists g. split; [done|].
        rewrite list_lookup_insert_ne by lia.
        replace (1 * planeSize + k)%nat with (planeSize + k)%nat by lia.
        apply list_lookup_insert_eq. rewrite length_insert. lia.
      * exists b. split; [done|].
        apply list_lookup_insert_eq. rewrite !length_insert. lia.
    + destruct (Hset i c) as (v & Hv & Hchw); [lia|done|].
      exists v. split; [done|]. rewrite <- Hchw.
      assert (c = 0 \/ c = 1 \/ c = 2)%nat as [-> | [-> | ->]] by lia;
        by rewrite !list_lookup_insert_ne by lia.
Qed.

(** [canvasToFloat32CHW] turns the RGBA bytes of a canvas into three
    planes: for a canvas of [width * height] pixels the result has
    [3 * width * height] numbers; the value of channel [c] (red, green,
    blue) of pixel [i] stands at index [c * width * height + i] and is
    byte [4 * i + c] divided by 255 in binary64 and then rounded to
    binary32 by the store; the alpha bytes are not used; and every
    number lies between 0 and 1. *)
Theorem canvasToFloat32CHW_planes `{Rounding} (width height : nat)
    (data : list Z) :
  RoundingLaws ->
  length data = (4 * (width * height))%nat ->
  Forall (fun v => (0 <= v <= 255)%Z) data ->
  exists chw : list Q,
    canvasToFloat32CHW width height data = Some chw
    /\ length chw = (3 * (width * height))%nat
    /\ Forall (fun q => 0 <= q <= 1) chw
    /\ forall i c : nat,
         (i < width * height)%nat -> (c < 3)%nat ->
         exists v : Z,
           data !! (4 * i + c)%nat = Some v
           /\ chw !! (c * (width * height) + i)%nat
              = Some (fround (fl (inject_Z v / 255))).
Proof.
  intros Hlaws Hlen Hbytes. unfold canvasToFloat32CHW.
  replace (3 * width * height)%nat with (3 * (width * height))%nat by lia.
  destruct (canvasToFloat32CHW_loop data (width * height) (width * height))
    as (chw & Hrun & Hsize & Hunit & Hset); [done|lia|done|lia|].
  exists chw. split; [done|]. split; [done|]. split; [done|].
  intros i c Hi Hc. destruct (Hset i c Hi Hc) as (v & Hv & Hchw).
  exists v. split; [|done]. by rewrite (Nat.mul_comm 4 i).
Qed.

Lemma canvasToFloat32CHW_planes_witness :
  exists (chw : list Q) (blue : Q),
    @canvasToFloat32CHW ieee754 2 1 [255; 0; 51; 255; 0; 102; 255; 255]%Z
    = Some chw
    /\ length chw = 6%nat
    /\ Forall (fun q => 0 <= q <= 1) chw
    /\ chw !! 4%nat = Some blue
    /\ blue == 13421773 # 67108864.
Proof.
  destruct (@canvasToFloat32CHW_planes ieee754 2 1
              [255; 0; 51; 255; 0; 102; 255; 255]%Z)
    as (chw & Hrun & Hsize & Hunit & Hset).
  - exact ieee754_laws.
  - reflexivity.
  - repeat constructor; discriminate.
  - destruct (Hset 0%nat 2%nat) as (v & Hv & Hchw); [simpl; lia|lia|].
    injection Hv as <-.
    exists chw, (@fround ieee754 (@fl ieee754 (inject_Z 51 / 255))).
    split; [exact Hrun|]. split; [exact Hsize|]. split; [exact Hunit|].
    split; [exact Hchw|]. by vm_compute.
Defined.

(** ** [parseGeoTIFF]: the RGBA bytes *)

Lemma ToUint8Clamp_range (number : option Q) :
  (0 <= ToUint8Clamp number <= 255)%Z.
Proof.
  destruct number as [number|]; [|done]. unfold ToUint8Clamp.
  set (clamped := Qmin (Qmax number 0) 255).
  assert (Hc : 0 <= clamped <= 255).
  { unfold clamped. split.
    - apply Q.min_glb; [apply Q.le_max_r|lra].
    - apply Q.le_min_r. }
  pose proof (Qfloor_le clamped) as Hle.
  pose proof (Qlt_floor clamped) as Hlt.
  set (f := Qfloor clamped) in *.
  assert (H0 : (0 <= f)%Z).
  { assert (H : inject_Z (-1) < inject_Z f).
    { rewrite inject_Z_plus in Hlt. change (inject_Z 1) with 1 in Hlt.
      change (inject_Z (-1)) with (-1 # 1). lra. }
    rewrite <- Zlt_Qlt in H. lia. }
  assert (H255 : (f <= 255)%Z).
  { rewrite Zle_Qle. change (inject_Z 255) with 255. lra. }
  destruct (clamped ?= inject_Z f + (1 # 2)) eqn:Hcmp.
  - apply Qeq_alt in Hcmp.
    assert (f <> 255)%Z.
    { intros ->. change (inject_Z 255) with 255 in Hcmp. lra. }
    destruct (Z.even f); lia.
  - lia.
  - apply Qgt_alt in Hcmp.
    assert (f <> 255)%Z.
    { intros ->. change (inject_Z 255) with 255 in Hcmp. lra. }
    lia.
Qed.

Lemma clamp_byte_cases (q : Q) :
  (q <= 0 -> Qmin (Qmax q 0) 255 == 0)
  /\ (0 <= q <= 255 -> Qmin (Qmax q 0) 255 == q)
  /\ (255 <= q -> Qmin (Qmax q 0) 255 == 255).
Proof.
  destruct (Q.max_spec q 0) as [[Hlt Hm]|[Hle Hm]];
    destruct (Q.min_spec (Qmax q 0) 255) as [[Hlt' Hn]|[Hle' Hn]];
    rewrite Hn; repeat split; intros; lra.
Qed.

Lemma ToUint8Clamp_integer (z : Z) :
  ToUint8Clamp (Some (inject_Z z)) = Z.max 0 (Z.min 255 z).
Proof.
  unfold ToUint8Clamp.
  set (clamped := Qmin (Qmax (inject_Z z) 0) 255).
  assert (Hc : clamped == inject_Z (Z.max 0 (Z.min 255 z))).
  { unfold clamped.
    destruct (clamp_byte_cases (inject_Z z)) as (Hlow & Hmid & Hhigh).
    assert (z <= 0 \/ 0 <= z <= 255 \/ 255 <= z)%Z as [Hz|[Hz|Hz]] by lia.
    - replace (Z.max 0 (Z.min 255 z)) with 0%Z by lia.
      apply Hlow. rewrite Zle_Qle in Hz. exact Hz.
    - replace (Z.max 0 (Z.min 255 z)) with z by lia.
      apply Hmid. destruct Hz as [H0 H255].
      rewrite Zle_Qle in H0, H255. by split.
    - replace (Z.max 0 (Z.min 255 z)) with 255%Z by lia.
      apply Hhigh. rewrite Zle_Qle in Hz. exact Hz. }
  rewrite (Qfloor_comp _ _ Hc), Qfloor_Z.
  assert (Hcmp : (inject_Z (Z.max 0 (Z.min 255 z))
                  ?= inject_Z (Z.max 0 (Z.min 255 z)) + (1 # 2)) = Lt).
  { generalize (inject_Z (Z.max 0 (Z.min 255 z))).
    intros q. apply (proj1 (Qlt_alt _ _)). lra. }
  by rewrite (Qcompare_comp _ _ Hc _ _ (Qeq_refl _)), Hcmp.
Qed.

Lemma parseGeoTIFF_rgba_loop (rasters : list (list Q))
    (band0 bandG bandB : list Q) (n k : nat) :
  rasters !! 0%nat = Some band0 ->
  (if (3 <=? length rasters)%nat then rasters !! 1%nat else Some band0)
  = Some bandG ->
  (if (3 <=? length rasters)%nat then rasters !! 2%nat else Some band0)
  = Some bandB ->
  (k <= n)%nat ->
  exists rgba : list Z,
    foldl (parseGeoTIFF_pixel rasters (length rasters))
          (Some (replicate (n * 4) 0%Z)) (seq 0 k) = Some rgba
    /\ length rgba = (n * 4)%nat
    /\ Forall (fun v => (0 <= v <= 255)%Z) rgba
    /\ forall i : nat,
         (i < k)%nat ->
         rgba !! (i * 4)%nat = Some (ToUint8Clamp (band0 !! i))
         /\ rgba !! (i * 4 + 1)%nat = Some (ToUint8Clamp (bandG !! i))
         /\ rgba !! (i * 4 + 2)%nat = Some (ToUint8Clamp (bandB !! i))
         /\ rgba !! (i * 4 + 3)%nat = Some 255%Z.
Proof.
  intros H0 HG HB. induction k as [|k IH]; intros Hk.
  { exists (replicate (n * 4) 0%Z). split; [done|].
    split; [apply length_replicate|]. split; [|intros; lia].
    apply Forall_replicate. lia. }
  destruct IH as (rgba & Hrun & Hsize & Hbytes & Hset); [lia|].
  rewrite foldl_seq_S, Hrun. unfold parseGeoTIFF_pixel.
  cbn [mbind option_bind]. rewrite H0. cbn [mbind option_bind].
  rewrite HG. cbn [mbind option_bind]. rewrite HB. cbn [mbind option_bind].
  eexists. split; [reflexivity|].
  split; [by rewrite !length_insert|]. split.
  - repeat apply Forall_insert; try done; try apply ToUint8Clamp_range.
  - intros i Hi. destruct (decide (i = k)) as [->|Hne].
    + split; [|split; [|split]].
      * rewrite !list_lookup_insert_ne by lia.
        apply list_lookup_insert_eq. lia.
      * rewrite !list_lookup_insert_ne by lia.
        apply list_lookup_insert_eq. rewrite !length_insert. lia.
      * rewrite !list_lookup_insert_ne by lia.
        apply list_lookup_insert_eq. rewrite !length_insert. lia.
      * apply list_lookup_insert_eq. rewrite !length_insert. lia.
    + destruct (Hset i) as (Hr & Hg & Hb & Ha); [lia|].
      rewrite <- Hr, <- Hg, <- Hb, <- Ha.
      by rewrite !list_lookup_insert_ne by lia.
Qed.

(** The RGBA bytes that [parseGeoTIFF] builds from the bands of a TIFF
    with at least one band: four bytes per pixel, each between 0 and
    255 and the alpha byte always 255; red is the first band; with
    fewer than three bands green and blue repeat red (a grey image),
    with three or more they are the second and third band; and a band
    value that is an integer is stored clamped to 0..255, so that a
    16-bit sample above 255 becomes 255. *)
Theorem parseGeoTIFF_rgba_bands (width height : nat)
    (rasters : list (list Q)) :
  rasters <> [] ->
  exists (rgba : list Z) (band0 : list Q),
    rasters !! 0%nat = Some band0
    /\ parseGeoTIFF_rgba width height rasters = Some rgba
    /\ length rgba = (width * height * 4)%nat
    /\ Forall (fun v => (0 <= v <= 255)%Z) rgba
    /\ (forall i : nat,
          (i < width * height)%nat ->
          rgba !! (4 * i)%nat = Some (ToUint8Clamp (band0 !! i))
          /\ rgba !! (4 * i + 3)%nat = Some 255%Z
          /\ ((length rasters < 3)%nat ->
              rgba !! (4 * i + 1)%nat = rgba !! (4 * i)%nat
              /\ rgba !! (4 * i + 2)%nat = rgba !! (4 * i)%nat)
          /\ (forall band1 band2 : list Q,
                rasters !! 1%nat = Some band1 ->
                rasters !! 2%nat = Some band2 ->
                rgba !! (4 * i + 1)%nat = Some (ToUint8Clamp (band1 !! i))
                /\ rgba !! (4 * i + 2)%nat
                   = Some (ToUint8Clamp (band2 !! i)))
          /\ (forall z : Z,
                band0 !! i = Some (inject_Z z) ->
                rgba !! (4 * i)%nat = Some (Z.max 0 (Z.min 255 z))))
.
Proof.
  intros Hne. destruct rasters as [|band0 rest]; [done|]. clear Hne.
  set (rasters := band0 :: rest).
  assert (HGB : exists bandG bandB : list Q,
            (if (3 <=? length rasters)%nat then rasters !! 1%nat
             else Some band0) = Some bandG
            /\ (if (3 <=? length rasters)%nat then rasters !! 2%nat
                else Some band0) = Some bandB).
  { destruct (3 <=? length rasters)%nat eqn:H3.
    - apply Nat.leb_le in H3.
      destruct (lookup_lt_is_Some_2 rasters 1%nat) as [b1 Hb1]; [lia|].
      destruct (lookup_lt_is_Some_2 rasters 2%nat) as [b2 Hb2]; [lia|].
      by exists b1, b2.
    - by exists band0, band0. }
  destruct HGB as (bandG & bandB & HG & HB).
  destruct (parseGeoTIFF_rgba_loop rasters band0 bandG bandB
              (width * height) (width * height) eq_refl HG HB)
    as (rgba & Hrun & Hsize & Hbytes & Hset); [lia|].
  exists rgba, band0. split; [done|]. split; [exact Hrun|].
  split; [done|]. split; [done|].
  intros i Hi. destruct (Hset i Hi) as (Hr & Hg & Hb & Ha).
  rewrite (Nat.mul_comm 4 i).
  split; [done|]. split; [done|]. split; [|split].
  - intros Hfew. apply Nat.leb_gt in Hfew. rewrite Hfew in HG, HB.
    injection HG as <-. injection HB as <-. by rewrite Hr, Hg, Hb.
  - intros band1 band2 H1 H2.
    assert (H3 : (3 <= length rasters)%nat).
    { apply lookup_lt_Some in H2. lia. }
    apply Nat.leb_le in H3. rewrite H3 in HG, HB.
    rewrite H1 in HG. rewrite H2 in HB.
    injection HG as <-. injection HB as <-. done.
  - intros z Hz. by rewrite Hr, Hz, ToUint8Clamp_integer.
Qed.

Lemma parseGeoTIFF_rgba_bands_witness :
  exists (rgba : list Z) (band0 : list Q),
    [[12; 300]; [0; 255 # 2]] !! 0%nat = Some band0
    /\ parseGeoTIFF_rgba 2 1 [[12; 300]; [0; 255 # 2]] = Some rgba
    /\ length rgba = 8%nat.
Proof.
  destruct (parseGeoTIFF_rgba_bands 2 1 [[12; 300]; [0; 255 # 2]])
    as (rgba & band0 & Hband & Hrun & Hsize & _).
  - discriminate.
  - exists rgba, band0. split; [exact Hband|].
    split; [exact Hrun|exact Hsize].
Defined.

(** ** [DetectionCanvas]: zoom and pan *)



(** ** [App]: the two image slots *)

Lemma App_step_invariant (st : App.State) (e : App.Event) :
  (App.isMerged st = true
   <-> exists first second : App.ImageData,
         App.firstImage st = Some first
         /\ App.secondImage st = Some second
         /\ is_Some (App.bothGeoTIFF first second)) ->
  (is_Some (App.secondImage st) -> is_Some (App.firstImage st)) ->
  (App.isMerged (App.step st e) = true
   <-> exists first second : App.ImageData,
         App.firstImage (App.step st e) = Some first
         /\ App.secondImage (App.step st e) = Some second
         /\ is_Some (App.bothGeoTIFF first second))
  /\ (is_Some (App.secondImage (App.step st e)) ->
      is_Some (App.firstImage (App.step st e))).
Proof.
  intros Hmerged Hslots. destruct e as [new| |value]; cbn [App.step].
  - unfold App.handleFileSelect.
    destruct (App.firstImage st) as [first|] eqn:Hfirst;
      cbn [App.firstImage App.secondImage App.isMerged].
    + split; [|by eauto]. split.
      * intros Hm. exists first, new. split; [done|]. split; [done|].
        by destruct (App.bothGeoTIFF first new).
      * intros (f & s & [= <-] & [= <-] & [metas Hmetas]).
        by rewrite Hmetas.
    + split; [|by eauto]. split; [done|].
      by intros (f & s & _ & ? & _).
  - cbn [App.resetImages App.firstImage App.secondImage App.isMerged].
    split; [|by intros [? ?]]. split; [done|].
    by intros (f & s & ? & _).
  - cbn [App.setConfidenceThreshold App.firstImage App.secondImage
         App.isMerged]. by split.
Qed.

Lemma App_atLeast_spec (threshold : Q) (d : Detection) :
  App.atLeast threshold d = true <-> threshold <= confidence d.
Proof.
  unfold App.atLeast.
  destruct (gtb threshold (confidence d)) eqn:Hg; simpl.
  - apply gtb_true in Hg. split; [done|]. lra.
  - apply gtb_false in Hg. by split.
Qed.

(** Whatever files are selected, whenever the images are reset or the
    threshold changed: the flag [isMerged] is set exactly when both
    slots hold a GeoTIFF with metadata, which is exactly when the
    displayed detections are those of [mergeGeoTIFFDetections] above
    the threshold; the second slot is never filled while the first is
    empty, and an image is shown exactly when the first slot is
    filled; every displayed detection has at least the chosen
    confidence and is a detection of one of the two images. *)
Theorem App_view_invariant `{MathTrig} (events : list App.Event) :
  let st := foldl App.step App.initial events in
  (App.isMerged st = true
   <-> exists (first second : App.ImageData) (meta1 meta2 : GeoTIFFMeta),
         App.firstImage st = Some first
         /\ App.secondImage st = Some second
         /\ App.isGeoTIFF first = true /\ App.isGeoTIFF second = true
         /\ App.geoMeta first = Some meta1
         /\ App.geoMeta second = Some meta2
         /\ App.viewDetections (App.currentView st)
            = List.filter (App.atLeast (App.confidenceThreshold st))
                (mergeGeoTIFFDetections (App.detections first) meta1
                   (App.detections second) meta2 (1 # 2)))
  /\ (is_Some (App.secondImage st) -> is_Some (App.firstImage st))
  /\ (is_Some (App.imageSource (App.currentView st))
      <-> is_Some (App.firstImage st))
  /\ (App.isMerged st = false ->
      forall image : App.ImageData,
        (App.secondImage st = Some image
         \/ App.secondImage st = None /\ App.firstImage st = Some image) ->
        App.currentView st = App.imageView (App.confidenceThreshold st) image)
  /\ (forall d : Detection,
        d ∈ App.viewDetections (App.currentView st) ->
        App.confidenceThreshold st <= confidence d
        /\ exists image : App.ImageData,
             (App.firstImage st = Some image
              \/ App.secondImage st = Some image)
             /\ d ∈ App.detections image).
Proof.
  intros st.
  assert (Hinv : (App.isMerged st = true
                  <-> exists first second : App.ImageData,
                        App.firstImage st = Some first
                        /\ App.secondImage st = Some second
                        /\ is_Some (App.bothGeoTIFF first second))
                 /\ (is_Some (App.secondImage st) ->
                     is_Some (App.firstImage st))).
  { unfold st. clear st.
    induction events as [|e events IH] using rev_ind.
    - cbn [foldl App.initial App.isMerged App.firstImage App.secondImage].
      split; [|by intros [? ?]]. split; [done|].
      by intros (f & s & ? & _).
    - rewrite foldl_app. cbn [foldl]. destruct IH as [IH1 IH2].
      by apply App_step_invariant. }
  destruct Hinv as [Hmerged Hslots].
  assert (Hboth : forall (first second : App.ImageData)
                         (meta1 meta2 : GeoTIFFMeta),
            App.bothGeoTIFF first second = Some (meta1, meta2)
            <-> App.isGeoTIFF first = true /\ App.isGeoTIFF second = true
                /\ App.geoMeta first = Some meta1
                /\ App.geoMeta second = Some meta2).
  { intros first second meta1 meta2. unfold App.bothGeoTIFF.
    destruct (App.isGeoTIFF first), (App.isGeoTIFF second),
      (App.geoMeta first), (App.geoMeta second); simpl;
      split; try done; try (intros (? & ? & ? & ?); done).
    - by intros [= -> ->].
    - by intros (_ & _ & [= ->] & [= ->]). }
  split; [|split; [done|split; [|split]]].
  - rewrite Hmerged. split.
    + intros (first & second & Hf & Hs & [[meta1 meta2] Hmetas]).
      exists first, second, meta1, meta2.
      pose proof (proj1 (Hboth _ _ _ _) Hmetas) as (? & ? & ? & ?).
      repeat (split; [done|]).
      unfold App.currentView. rewrite Hf, Hs. cbn [mbind option_bind].
      by rewrite Hmetas.
    + intros (first & second & meta1 & meta2 & Hf & Hs & H1 & H2 & H3
              & H4 & _).
      exists first, second. split; [done|]. split; [done|].
      exists (meta1, meta2). by apply Hboth.
  - unfold App.currentView.
    destruct (App.firstImage st) as [first|] eqn:Hf;
      destruct (App.secondImage st) as [second|] eqn:Hs;
      cbn [mbind option_bind].
    + destruct (App.bothGeoTIFF first second) as [[meta1 meta2]|];
        cbn [mbind option_bind App.imageSource App.imageView];
        split; by eauto.
    + cbn [App.imageSource App.imageView]. split; by eauto.
    + destruct Hslots as [? ?]; [by eauto|done].
    + cbn [App.emptyView App.imageSource]. split; by intros [? ?].
  - intros Hnot image Himage.
    assert (Hnone : forall first second : App.ImageData,
              App.firstImage st = Some first ->
              App.secondImage st = Some second ->
              App.bothGeoTIFF first second = None).
    { intros first second Hf Hs.
      destruct (App.bothGeoTIFF first second) as [metas|] eqn:Hmetas;
        [|done].
      assert (App.isMerged st = true); [|congruence].
      apply Hmerged. exists first, second. by eauto. }
    unfold App.currentView.
    destruct Himage as [Hs|[Hs Hf]].
    + rewrite Hs. destruct (App.firstImage st) as [first|] eqn:Hf.
      * cbn [mbind option_bind]. by rewrite (Hnone first image).
      * destruct Hslots as [? ?]; [by eauto|done].
    + by rewrite Hs, Hf.
  - intros d Hd. unfold App.currentView in Hd.
    destruct (App.firstImage st) as [first|] eqn:Hf;
      destruct (App.secondImage st) as [second|] eqn:Hs;
      cbn [mbind option_bind] in Hd.
    + destruct (App.bothGeoTIFF first second) as [[meta1 meta2]|];
        cbn [mbind option_bind App.viewDetections App.imageView] in Hd;
        apply list_elem_of_In, List.filter_In in Hd as [Hd Hconf];
        apply App_atLeast_spec in Hconf; (split; [done|]).
      * apply list_elem_of_In, mergeGeoTIFFDetections_elem_of in Hd
          as [Hd|Hd]; [exists first|exists second]; by eauto.
      * exists second. split; [by eauto|]. by apply list_elem_of_In.
    + cbn [App.viewDetections App.imageView] in Hd.
      apply list_elem_of_In, List.filter_In in Hd as [Hd Hconf].
      apply App_atLeast_spec in Hconf. split; [done|].
      exists first. split; [by eauto|]. by apply list_elem_of_In.
    + cbn [App.viewDetections App.imageView] in Hd.
      apply list_elem_of_In, List.filter_In in Hd as [Hd Hconf].
      apply App_atLeast_spec in Hconf. split; [done|].
      exists second. split; [by eauto|]. by apply list_elem_of_In.
    + cbn [App.emptyView App.viewDetections] in Hd.
      by apply elem_of_nil in Hd.
Qed.
